(** * The Vienna Vulkan Engine: scene graph, shadow cameras and frame scheduling

    A shallow embedding of the parts of the engine that the specification
    talks about:

    - [VEEntity.cpp]: scene nodes ([getWorldTransform], [lookAt], [addChild],
      [removeChild], [getOBB]), cameras ([getProjectionMatrix],
      [getFrustumPoints]) and lights ([updateShadowCameras]);
    - [VEMaterial.cpp]: the bounding sphere computed by the [VEMesh]
      constructors;
    - [VESceneManager.cpp]: the list of active lights;
    - [VERendererForward.cpp]: [recordCmdBuffers], [drawFrame] and
      [presentFrame].

    C++ [float] is IEEE 754 binary32.  It is modelled bit-exactly with the
    executable specification of the Standard Library ([SpecFloat], precision
    24 and maximal exponent 128), so that rounding, infinities and NaN are
    those of the compiled program (round to nearest even, no fused
    operations).  Pointers to scene nodes are natural numbers into a finite
    map of nodes; [nullptr] is [None]. *)

From Stdlib Require Import ZArith Lia Floats.SpecFloat.
From stdpp Require Import base option list gmap strings.

(** ** binary32 arithmetic *)

Module F32.

Definition prec : Z := 24.
Definition emax : Z := 128.

Definition float : Type := spec_float.

Definition add : float -> float -> float := SFadd prec emax.
Definition sub : float -> float -> float := SFsub prec emax.
Definition mul : float -> float -> float := SFmul prec emax.
Definition div : float -> float -> float := SFdiv prec emax.
Definition sqrt : float -> float := SFsqrt prec emax.
Definition opp : float -> float := SFopp.
Definition abs : float -> float := SFabs.
Definition ltb : float -> float -> bool := SFltb.
Definition eqb : float -> float -> bool := SFeqb.

(** An integer literal such as [500.0f] or [4]. *)
Definition of_Z (z : Z) : float := binary_normalize prec emax z 0 false.

(** A decimal literal [n/d] such as [0.05f = lit 5 100]: the binary32 number
    nearest to the decimal, which the correctly rounded quotient of the two
    integers is. *)
Definition lit (n d : positive) : float :=
  SFdiv prec emax (S754_finite false n 0) (S754_finite false d 0).

Definition zero : float := S754_zero false.
Definition one : float := of_Z 1.

Definition is_nan (f : float) : bool :=
  match f with S754_nan => true | _ => false end.

(** [std::max(a, b)] is [(a < b) ? b : a]. *)
Definition max (a b : float) : float := if ltb a b then b else a.

End F32.

Declare Scope f32_scope.
Delimit Scope f32_scope with f32.
Bind Scope f32_scope with F32.float.
Infix "+" := F32.add : f32_scope.
Infix "-" := F32.sub : f32_scope.
Infix "*" := F32.mul : f32_scope.
Infix "/" := F32.div : f32_scope.
Notation "- x" := (F32.opp x) : f32_scope.
Infix "<?" := F32.ltb : f32_scope.

Abbreviation float := F32.float.

(** The functions of the C library that the engine calls on floats.  They are
    not part of the repository and no property below depends on their
    values. *)
Class Libm := {
  (** [glm::cos] and [glm::sin] on [float] *)
  cosf : float -> float;
  sinf : float -> float;
  (** [(float)tan(x * M_PI / 180.0f)], evaluated in double precision *)
  tan_deg : float -> float
}.

(** ** The part of GLM that the engine uses

    Vectors, column-major 4x4 matrices and the functions called by the
    engine, with the order of the floating-point operations of GLM's scalar
    (non SIMD) code. *)

Module glm.

Local Open Scope f32_scope.

Record vec3 := Vec3 { x3 : float; y3 : float; z3 : float }.
Record vec4 := Vec4 { x4 : float; y4 : float; z4 : float; w4 : float }.

(** [m[0] .. m[3]] are the columns. *)
Record mat4 := Mat4 { c0 : vec4; c1 : vec4; c2 : vec4; c3 : vec4 }.

Definition add3 (a b : vec3) : vec3 :=
  Vec3 (x3 a + x3 b) (y3 a + y3 b) (z3 a + z3 b).
Definition sub3 (a b : vec3) : vec3 :=
  Vec3 (x3 a - x3 b) (y3 a - y3 b) (z3 a - z3 b).
(** [v * s] *)
Definition scale3 (v : vec3) (s : float) : vec3 :=
  Vec3 (x3 v * s) (y3 v * s) (z3 v * s).
(** [s * v] *)
Definition scalar3 (s : float) (v : vec3) : vec3 :=
  Vec3 (s * x3 v) (s * y3 v) (s * z3 v).

Definition add4 (a b : vec4) : vec4 :=
  Vec4 (x4 a + x4 b) (y4 a + y4 b) (z4 a + z4 b) (w4 a + w4 b).
Definition sub4 (a b : vec4) : vec4 :=
  Vec4 (x4 a - x4 b) (y4 a - y4 b) (z4 a - z4 b) (w4 a - w4 b).
Definition scale4 (v : vec4) (s : float) : vec4 :=
  Vec4 (x4 v * s) (y4 v * s) (z4 v * s) (w4 v * s).
Definition scalar4 (s : float) (v : vec4) : vec4 :=
  Vec4 (s * x4 v) (s * y4 v) (s * z4 v) (s * w4 v).

(** [glm::dot]: the products are summed from the left for [vec3] and in two
    pairs for [vec4]. *)
Definition dot3 (a b : vec3) : float :=
  (x3 a * x3 b + y3 a * y3 b) + z3 a * z3 b.
Definition dot4 (a b : vec4) : float :=
  (x4 a * x4 b + y4 a * y4 b) + (z4 a * z4 b + w4 a * w4 b).

Definition cross (a b : vec3) : vec3 :=
  Vec3 (y3 a * z3 b - y3 b * z3 a)
       (z3 a * x3 b - z3 b * x3 a)
       (x3 a * y3 b - x3 b * y3 a).

Definition inversesqrt (v : float) : float := F32.one / F32.sqrt v.

(** [glm::normalize(v)] is [v * inversesqrt(dot(v, v))]. *)
Definition normalize (v : vec3) : vec3 := scale3 v (inversesqrt (dot3 v v)).

(** [glm::mat4(1.0f)] *)
Definition identity : mat4 :=
  Mat4 (Vec4 F32.one F32.zero F32.zero F32.zero)
       (Vec4 F32.zero F32.one F32.zero F32.zero)
       (Vec4 F32.zero F32.zero F32.one F32.zero)
       (Vec4 F32.zero F32.zero F32.zero F32.one).

(** [m * v] *)
Definition mul_vec (m : mat4) (v : vec4) : vec4 :=
  add4 (add4 (scale4 (c0 m) (x4 v)) (scale4 (c1 m) (y4 v)))
       (add4 (scale4 (c2 m) (z4 v)) (scale4 (c3 m) (w4 v))).

Definition mul_col (a : mat4) (b : vec4) : vec4 :=
  add4 (add4 (add4 (scale4 (c0 a) (x4 b)) (scale4 (c1 a) (y4 b)))
             (scale4 (c2 a) (z4 b)))
       (scale4 (c3 a) (w4 b)).

(** [a * b] *)
Definition mul (a b : mat4) : mat4 :=
  Mat4 (mul_col a (c0 b)) (mul_col a (c1 b)) (mul_col a (c2 b)) (mul_col a (c3 b)).

(** [glm::radians]: the factor is the binary32 number nearest to pi/180. *)
Definition radians (degrees : float) : float :=
  degrees * F32.lit 1745329251994329576923690768489 100000000000000000000000000000000.

(** [glm::perspectiveFov] under [GLM_FORCE_DEPTH_ZERO_TO_ONE] and the default
    right-handed convention. *)
Definition perspectiveFov `{Libm} (fov width height zNear zFar : float) : mat4 :=
  let rad := fov in
  let h := cosf (F32.lit 1 2 * rad) / sinf (F32.lit 1 2 * rad) in
  let w := h * height / width in
  let z := F32.zero in
  Mat4 (Vec4 w z z z)
       (Vec4 z h z z)
       (Vec4 z z (zFar / (zNear - zFar)) (- F32.one))
       (Vec4 z z (- (zFar * zNear) / (zFar - zNear)) z).

Definition vec3_has_nan (v : vec3) : bool :=
  F32.is_nan (x3 v) || F32.is_nan (y3 v) || F32.is_nan (z3 v).
Definition vec4_has_nan (v : vec4) : bool :=
  F32.is_nan (x4 v) || F32.is_nan (y4 v) || F32.is_nan (z4 v) || F32.is_nan (w4 v).
Definition mat4_has_nan (m : mat4) : bool :=
  vec4_has_nan (c0 m) || vec4_has_nan (c1 m) || vec4_has_nan (c2 m) || vec4_has_nan (c3 m).

End glm.

Import glm.

(** ** Scene nodes ([VESceneNode], VEEntity.cpp) *)

(** A [VESceneNode *]. *)
Abbreviation ptr := nat.

Record VESceneNode := mkSceneNode {
  m_transform : mat4;            (* local to parent transform *)
  m_parent : option ptr;         (* nullptr is None *)
  m_children : list ptr
}.

(** The scene nodes that are alive, by address.  Reading through a pointer
    that names no node is undefined behaviour in C++; the operations below
    return [None] there. *)
Abbreviation heap := (gmap ptr VESceneNode).

Definition set_transform (n : VESceneNode) (t : mat4) : VESceneNode :=
  mkSceneNode t (m_parent n) (m_children n).
Definition set_parent (n : VESceneNode) (p : option ptr) : VESceneNode :=
  mkSceneNode (m_transform n) p (m_children n).
Definition set_children (n : VESceneNode) (l : list ptr) : VESceneNode :=
  mkSceneNode (m_transform n) (m_parent n) l.

(** [VESceneNode::getWorldTransform].  The recursion follows the parent
    pointers; [fuel] bounds its depth, and [None] is the recursion that did
    not come to an end within [fuel] calls or that left the heap. *)
Fixpoint getWorldTransform (fuel : nat) (h : heap) (this : ptr) : option mat4 :=
  match fuel with
  | O => None
  | S fuel' =>
      n ← h !! this;
      match m_parent n with
      | Some p => W ← getWorldTransform fuel' h p; Some (glm.mul W (m_transform n))
      | None => Some (m_transform n)
      end
  end.

(** The parent chain of [this] ends in a root after [d] steps. *)
Inductive at_depth (h : heap) : ptr -> nat -> Prop :=
| at_depth_root this n :
    h !! this = Some n -> m_parent n = None -> at_depth h this 0
| at_depth_child this n p d :
    h !! this = Some n -> m_parent n = Some p -> at_depth h p d -> at_depth h this (S d).

(** The local transforms from the root down to [this]. *)
Inductive chain (h : heap) : ptr -> list mat4 -> Prop :=
| chain_root this n :
    h !! this = Some n -> m_parent n = None -> chain h this [m_transform n]
| chain_child this n p ts :
    h !! this = Some n -> m_parent n = Some p -> chain h p ts ->
    chain h this (ts ++ [m_transform n]).

(** The product of a non-empty list of matrices, from the left. *)
Definition product (ts : list mat4) : option mat4 :=
  match ts with
  | [] => None
  | t :: ts' => Some (foldl glm.mul t ts')
  end.

(** [VESceneNode::setTransform], [setPosition], [multiplyTransform] on the
    transform of a node. *)
Definition setTransform (trans : mat4) (m : mat4) : mat4 := trans.

Definition setPosition (pos : vec3) (m : mat4) : mat4 :=
  Mat4 (c0 m) (c1 m) (c2 m) (Vec4 (x3 pos) (y3 pos) (z3 pos) F32.one).

Definition multiplyTransform (trans : mat4) (m : mat4) : mat4 :=
  setTransform (glm.mul trans m) m.

(** [VESceneNode::lookAt], as a function on [m_transform].  The four columns
    are assigned in the order 3, 2, 0, 1. *)
Definition lookAt (eye point up : vec3) (m : mat4) : mat4 :=
  let m := Mat4 (c0 m) (c1 m) (c2 m) (Vec4 (x3 eye) (y3 eye) (z3 eye) F32.one) in
  let z := normalize (sub3 point eye) in
  let up := normalize up in
  let corr := dot3 z up in
  let up :=
    if (F32.abs (F32.one - F32.abs corr) <? F32.lit 1 100000)%f32 then
      let sc := (x3 z + y3 z + z3 z)%f32 in
      normalize (Vec3 sc sc sc)
    else up in
  let m := Mat4 (c0 m) (c1 m) (Vec4 (x3 z) (y3 z) (z3 z) F32.zero) (c3 m) in
  let x := normalize (cross up z) in
  let m := Mat4 (Vec4 (x3 x) (y3 x) (z3 x) F32.zero) (c1 m) (c2 m) (c3 m) in
  let y := normalize (cross z x) in
  Mat4 (c0 m) (Vec4 (x3 y) (y3 y) (z3 y) F32.zero) (c2 m) (c3 m).

(** The loop of [VESceneNode::removeChild] on the vector of children: [rest]
    is the part of [children] from index [i] on.  The first entry equal to
    [pEntity] is overwritten with the last entry, the vector loses its last
    entry, and the loop ends. *)
Fixpoint removeChild_loop (pEntity : ptr) (children rest : list ptr) (i : nat)
  : list ptr :=
  match rest with
  | [] => children
  | c :: rest' =>
      if decide (pEntity = c) then
        removelast (<[i := List.last children pEntity]> children)
      else removeChild_loop pEntity children rest' (S i)
  end.

(** [this->removeChild(pEntity)] *)
Definition removeChild (this pEntity : ptr) (h : heap) : option heap :=
  n ← h !! this;
  Some (<[this := set_children n
                    (removeChild_loop pEntity (m_children n) (m_children n) 0)]> h).

(** [this->addChild(pObject)] *)
Definition addChild (this pObject : ptr) (h : heap) : option heap :=
  o ← h !! pObject;
  h1 ← match m_parent o with
       | Some p => removeChild p pObject h
       | None => Some h
       end;
  o1 ← h1 !! pObject;
  let h2 := <[pObject := set_parent o1 (Some this)]> h1 in
  t ← h2 !! this;
  Some (<[this := set_children t (m_children t ++ [pObject])]> h2).





(** Well-formed child lists: a node listed as a child of [p] names [p] as
    its parent, no child list has a node twice, and parent pointers name
    nodes. *)
Record tree_wf (h : heap) : Prop := {
  wf_child_parent : forall p n c, h !! p = Some n -> c ∈ m_children n ->
                    exists cn, h !! c = Some cn /\ m_parent cn = Some p;
  wf_nodup : forall p n, h !! p = Some n -> NoDup (m_children n);
  wf_parent_alive : forall c cn p, h !! c = Some cn -> m_parent cn = Some p ->
                    is_Some (h !! p)
}.

(** The same as a test on one node, so that a concrete heap can be checked
    by evaluation. *)
Definition node_ok (h : heap) (p : ptr) (n : VESceneNode) : Prop :=
  Forall (fun c => m_parent <$> h !! c = Some (Some p)) (m_children n) /\
  NoDup (m_children n) /\
  from_option (fun q => is_Some (h !! q)) True (m_parent n).

#[global] Instance node_ok_dec h p n : Decision (node_ok h p n).
Proof. unfold node_ok. destruct (m_parent n); simpl; apply _. Defined.

Definition tree_wfb (h : heap) : bool := bool_decide (map_Forall (node_ok h) h).

(** [c] is in the child list of [p]. *)
Definition child_of (h : heap) (c p : ptr) : Prop :=
  exists n, h !! p = Some n /\ c ∈ m_children n.

(** The child list of [p]; empty when [p] names no node. *)
Definition children_of (h : heap) (p : ptr) : list ptr :=
  match h !! p with Some n => m_children n | None => [] end.

(** A translation by [(x, y, z)], as [glm::translate] builds it. *)
Definition translation (x y z : Z) : mat4 :=
  setPosition (Vec3 (F32.of_Z x) (F32.of_Z y) (F32.of_Z z)) glm.identity.

(** The camera parent of the standard scene at (1, 3, 1) with one child
    moved by 15 along z. *)
Definition example_heap : heap :=
  <[0 := mkSceneNode (translation 1 3 1) None [1]]>
    (<[1 := mkSceneNode (translation 0 0 15) (Some 0) []]> ∅).

(** A scene of three nodes: [1] is the child of [0], and [2] stands alone. *)
Definition example_scene : heap :=
  <[0 := mkSceneNode (translation 1 3 1) None [1]]>
    (<[1 := mkSceneNode (translation 0 0 15) (Some 0) []]>
       (<[2 := mkSceneNode glm.identity None []]> ∅)).

(** [VESceneNode::getOBB]: the box around [points] along the local axes of
    the node whose world matrix is [W] (the value of [getWorldTransform()]).
    [maxvalue axis p0 rest] is the entry of [maxvalues] for one of the six
    directions after both loops; the six entries do not depend on each
    other.  The vector [box] is written and never read. *)
Definition maxvalue (axis : vec4) (p0 : vec4) (rest : list vec4) : float :=
  foldl (fun m p => let tmp := dot4 axis p in if (m <? tmp)%f32 then tmp else m)
        (dot4 axis p0) rest.

Definition getOBB (W : mat4) (points : list vec4)
  : option (vec3 * float * float * float) :=
  match points with
  | [] => None                                   (* points[0] on an empty vector *)
  | p0 :: rest =>
      let minus1 := (- F32.one)%f32 in
      let mv0 := maxvalue (scalar4 minus1 (c0 W)) p0 rest in
      let mv1 := maxvalue (c0 W) p0 rest in
      let mv2 := maxvalue (scalar4 minus1 (c1 W)) p0 rest in
      let mv3 := maxvalue (c1 W) p0 rest in
      let mv4 := maxvalue (scalar4 minus1 (c2 W)) p0 rest in
      let mv5 := maxvalue (c2 W) p0 rest in
      let width := (mv1 + mv0)%f32 in
      let height := (mv3 + mv2)%f32 in
      let depth := (mv5 + mv4)%f32 in
      let two := F32.of_Z 2 in
      let center4 := mul_vec W (Vec4 (- mv0 + width / two)%f32
                                     (- mv2 + height / two)%f32
                                     (- mv4 + depth / two)%f32
                                     F32.zero) in
      Some (Vec3 (x4 center4) (y4 center4) (z4 center4), width, height, depth)
  end.

(** ** Cameras ([VECamera], [VECameraProjective], [VECameraOrtho]) *)

Record VECamera := mkCamera {
  cam_transform : mat4;                (* m_transform of the scene node *)
  m_nearPlane : float;
  m_farPlane : float;
  m_nearPlaneFraction : float;
  m_farPlaneFraction : float
}.

Record VECameraProjective := mkProjective {
  proj_base : VECamera;
  m_aspectRatio : float;
  m_fov : float
}.

Record VECameraOrtho := mkOrtho {
  ortho_base : VECamera;
  m_width : float;
  m_height : float
}.

(** A [VECamera *] points to an object of one of the two derived classes. *)
Inductive Camera :=
| CameraProjective (c : VECameraProjective)
| CameraOrtho (c : VECameraOrtho).

Definition camera_base (c : Camera) : VECamera :=
  match c with
  | CameraProjective p => proj_base p
  | CameraOrtho o => ortho_base o
  end.

(** [VECameraProjective::getProjectionMatrix(width, height)]: the matrix and
    the camera with its new [m_aspectRatio]. *)
Definition getProjectionMatrix_wh `{Libm} (width height : float)
  (c : VECameraProjective) : mat4 * VECameraProjective :=
  let c := mkProjective (proj_base c) (width / height)%f32 (m_fov c) in
  let pm := perspectiveFov (radians (m_fov c)) width height
              (m_nearPlane (proj_base c)) (m_farPlane (proj_base c)) in
  let minus1 := (- F32.one)%f32 in
  let pm := Mat4 (c0 pm)
                 (Vec4 (x4 (c1 pm)) (y4 (c1 pm) * minus1)%f32 (z4 (c1 pm)) (w4 (c1 pm)))
                 (c2 pm) (c3 pm) in
  let pm := Mat4 (c0 pm) (c1 pm)
                 (Vec4 (x4 (c2 pm)) (y4 (c2 pm)) (z4 (c2 pm) * minus1)%f32 (w4 (c2 pm)))
                 (c3 pm) in
  let pm := Mat4 (c0 pm) (c1 pm)
                 (Vec4 (x4 (c2 pm)) (y4 (c2 pm)) (z4 (c2 pm)) (w4 (c2 pm) * minus1)%f32)
                 (c3 pm) in
  (pm, c).

(** [VECameraProjective::getProjectionMatrix()] *)
Definition getProjectionMatrix `{Libm} (c : VECameraProjective)
  : mat4 * VECameraProjective :=
  getProjectionMatrix_wh (m_aspectRatio c) F32.one c.

(** The depth that the rasteriser derives from a camera-space point: the
    clip coordinates are [pm * p], and the perspective division divides
    their z by their w. *)
Definition ndc_depth (pm : mat4) (p : vec4) : float :=
  let clip := mul_vec pm p in (z4 clip / w4 clip)%f32.

(** The loop that ends both [getFrustumPoints]: each far corner and each
    near corner is moved along the edge between them. *)
Definition interpolate (z0 z1 : float) (near far : vec4) : vec4 * vec4 :=
  let diff := sub4 far near in
  (add4 near (scalar4 z0 diff), add4 near (scalar4 z1 diff)).

(** The eight corners pushed onto [points] (four near, four far), then
    moved by the loop. *)
Definition interpolate_points (z0 z1 : float)
  (n0 n1 n2 n3 f0 f1 f2 f3 : vec4) : list vec4 :=
  let e0 := interpolate z0 z1 n0 f0 in
  let e1 := interpolate z0 z1 n1 f1 in
  let e2 := interpolate z0 z1 n2 f2 in
  let e3 := interpolate z0 z1 n3 f3 in
  [e0.1; e1.1; e2.1; e3.1; e0.2; e1.2; e2.2; e3.2].

(** [getFrustumPoints(points, z0, z1)] on an empty vector [points], for the
    camera whose world matrix is [W]. *)
Definition getFrustumPoints `{Libm} (W : mat4) (c : Camera) (z0 z1 : float)
  : list vec4 :=
  let pt x y z := mul_vec W (Vec4 x y z F32.one) in
  match c with
  | CameraProjective p =>
      let halfh := tan_deg (m_fov p / F32.of_Z 2)%f32 in
      let halfw := (halfh * m_aspectRatio p)%f32 in
      let n := m_nearPlane (proj_base p) in
      let f := m_farPlane (proj_base p) in
      interpolate_points z0 z1
        (pt (- n * halfw) (- n * halfh) n)%f32
        (pt (n * halfw) (- n * halfh) n)%f32
        (pt (- n * halfw) (n * halfh) n)%f32
        (pt (n * halfw) (n * halfh) n)%f32
        (pt (- f * halfw) (- f * halfh) f)%f32
        (pt (f * halfw) (- f * halfh) f)%f32
        (pt (- f * halfw) (f * halfh) f)%f32
        (pt (f * halfw) (f * halfh) f)%f32
  | CameraOrtho o =>
      let halfh := (m_height o / F32.of_Z 2)%f32 in
      let halfw := (m_width o / F32.of_Z 2)%f32 in
      let n := m_nearPlane (ortho_base o) in
      let f := m_farPlane (ortho_base o) in
      interpolate_points z0 z1
        (pt (- halfw) (- halfh) n)%f32
        (pt halfw (- halfh) n)%f32
        (pt (- halfw) halfh n)%f32
        (pt halfw halfh n)
        (pt (- halfw) (- halfh) f)%f32
        (pt halfw (- halfh) f)%f32
        (pt (- halfw) halfh f)%f32
        (pt halfw halfh f)
  end.

(** ** Lights ([VELight] and its derived classes) *)

Inductive veLightType :=
| VE_LIGHT_TYPE_DIRECTIONAL
| VE_LIGHT_TYPE_POINT
| VE_LIGHT_TYPE_SPOT.

Record VELight := mkLight {
  getLightType : veLightType;
  m_param : vec4;
  m_shadowCameras : list Camera
}.

(** The cameras made by the constructors that take only a name,
    [VECameraOrtho("ShadowCamDirOrtho")] and
    [VECameraProjective("ShadowCamPointProj")].  Their fields are the default
    member initialisers of VEEntity.h, which is not among the sources. *)
Class CameraDefaults := {
  new_VECameraOrtho : VECameraOrtho;
  new_VECameraProjective : VECameraProjective;
  (** the initialiser of [VELight::m_param] *)
  new_m_param : vec4
}.

(** The constructor [VEDirectionalLight::VEDirectionalLight]: the loop runs
    for [i = 0 .. 3]. *)
Definition VEDirectionalLight `{CameraDefaults} : VELight :=
  mkLight VE_LIGHT_TYPE_DIRECTIONAL new_m_param
          (foldl (fun cams _ => cams ++ [CameraOrtho new_VECameraOrtho]) [] (seq 0 4)).

(** The constructor [VEPointLight::VEPointLight]: the loop runs for
    [i = 0 .. 5]. *)
Definition VEPointLight `{CameraDefaults} : VELight :=
  mkLight VE_LIGHT_TYPE_POINT new_m_param
          (foldl (fun cams _ => cams ++ [CameraProjective new_VECameraProjective]) [] (seq 0 6)).

(** The constructor [VESpotLight::VESpotLight]: the loop runs for [i = 0]. *)
Definition VESpotLight `{CameraDefaults} : VELight :=
  mkLight VE_LIGHT_TYPE_SPOT new_m_param
          (foldl (fun cams _ => cams ++ [CameraProjective new_VECameraProjective]) [] (seq 0 1)).

(** [limits] of [VEDirectionalLight::updateShadowCameras] *)
Definition limits : list float :=
  [F32.zero; F32.lit 5 100; F32.lit 15 100; F32.lit 50 100; F32.one].

(** One turn of the loop of [VEDirectionalLight::updateShadowCameras], on the
    [i]-th shadow camera.  [W] is the world matrix of the light, [Wcam] that
    of the viewer camera [pCamera].  [None] stands for undefined behaviour:
    an index outside [limits], or a shadow camera that is not a
    [VECameraOrtho].  The upload of the camera data to the GPU
    ([update(imageIndex)]) changes none of the fields below. *)
Definition directional_step `{Libm} (W Wcam : mat4) (pCamera : Camera)
  (i : nat) (cam : Camera) : option Camera :=
  match cam with
  | CameraProjective _ => None
  | CameraOrtho pShadowCamera =>
      t0 ← limits !! i;
      t1 ← limits !! (S i);
      let pointsW := getFrustumPoints Wcam pCamera t0 t1 in
      '(center, width, height, depth) ← getOBB W pointsW;
      let farPlane := (depth * F32.of_Z 5)%f32 in
      let transform := setTransform W (cam_transform (ortho_base pShadowCamera)) in
      let transform :=
        setPosition
          (sub3 center
                (scalar3 (farPlane * F32.lit 9 10)%f32
                         (Vec3 (x4 (c2 W)) (y4 (c2 W)) (z4 (c2 W)))))
          transform in
      Some (CameraOrtho
              (mkOrtho (mkCamera transform
                                 (m_nearPlane (ortho_base pShadowCamera))
                                 farPlane t0 t1)
                       width height))
  end.

(** The loop over [m_shadowCameras], from index [i] on. *)
Fixpoint update_loop (step : nat -> Camera -> option Camera)
  (i : nat) (cams : list Camera) : option (list Camera) :=
  match cams with
  | [] => Some []
  | cam :: rest =>
      cam' ← step i cam;
      rest' ← update_loop step (S i) rest;
      Some (cam' :: rest')
  end.

(** The tables [zaxis] and [up] of [VEPointLight::updateShadowCameras]. *)
Definition zaxis : list vec3 :=
  let o := F32.zero in let l := F32.one in
  [ Vec3 l o o; Vec3 (- l)%f32 o o;
    Vec3 o l o; Vec3 o (- l)%f32 o;
    Vec3 o o l; Vec3 o o (- l)%f32 ].

Definition up : list vec3 :=
  let o := F32.zero in let l := F32.one in
  [ Vec3 o l o; Vec3 o l o;
    Vec3 o o (- l)%f32; Vec3 o o l;
    Vec3 o l o; Vec3 o l o ].

(** One turn of the loop of [VEPointLight::updateShadowCameras]; [lnear],
    [llength] and [pos] are set before the loop. *)
Definition point_step (lnear llength : float) (pos : vec3)
  (i : nat) (cam : Camera) : option Camera :=
  match cam with
  | CameraOrtho _ => None
  | CameraProjective pShadowCamera =>
      zi ← zaxis !! i;
      ui ← up !! i;
      Some (CameraProjective
              (mkProjective
                 (mkCamera (lookAt pos (add3 pos zi) ui
                                   (cam_transform (proj_base pShadowCamera)))
                           lnear (lnear + llength)%f32 F32.zero F32.one)
                 F32.one (F32.of_Z 91)))
  end.

(** [limits] of [VESpotLight::updateShadowCameras] *)
Definition spot_limits : list float := [F32.zero; F32.one].

(** One turn of the loop of [VESpotLight::updateShadowCameras]. *)
Definition spot_step (W : mat4) (m_param0 : float)
  (i : nat) (cam : Camera) : option Camera :=
  match cam with
  | CameraOrtho _ => None
  | CameraProjective pShadowCamera =>
      t0 ← spot_limits !! i;
      t1 ← spot_limits !! (S i);
      let lnear := F32.lit 1 10 in
      let llength := m_param0 in
      Some (CameraProjective
              (mkProjective
                 (mkCamera (setTransform W (cam_transform (proj_base pShadowCamera)))
                           (lnear + t0 * llength)%f32 (lnear + t1 * llength)%f32
                           t0 t1)
                 F32.one (F32.of_Z 90)))
  end.

(** The virtual [updateShadowCameras(pCamera, imageIndex)] of the three
    lights.  [W] is the value of the light's
    [getWorldTransform()], [Wcam] that of the viewer camera. *)
Definition updateShadowCameras `{Libm} (W Wcam : mat4) (pCamera : Camera)
  (l : VELight) : option VELight :=
  match getLightType l with
  | VE_LIGHT_TYPE_DIRECTIONAL =>
      cams ← update_loop (directional_step W Wcam pCamera) 0 (m_shadowCameras l);
      Some (mkLight (getLightType l) (m_param l) cams)
  | VE_LIGHT_TYPE_POINT =>
      let lnear := F32.lit 1 10 in
      let llength := x4 (m_param l) in
      let pos4 := c3 W in
      let pos := Vec3 (x4 pos4) (y4 pos4) (z4 pos4) in
      cams ← update_loop (point_step lnear llength pos) 0 (m_shadowCameras l);
      Some (mkLight (getLightType l) (m_param l) cams)
  | VE_LIGHT_TYPE_SPOT =>
      cams ← update_loop (spot_step W (x4 (m_param l))) 0 (m_shadowCameras l);
      Some (mkLight (getLightType l) (m_param l) cams)
  end.

(** What happens to a light after its constructor: the application assigns
    the public member [m_param], and every frame calls
    [updateShadowCameras] with the world matrices and the viewer camera of
    that frame.  Nothing else in the sources writes [m_shadowCameras] while
    the light is alive. *)
Inductive light_op :=
| SetParam (param : vec4)
| UpdateShadowCameras (W Wcam : mat4) (pCamera : Camera).

Definition run_light_op `{Libm} (o : light_op) (l : VELight) : option VELight :=
  match o with
  | SetParam param => Some (mkLight (getLightType l) param (m_shadowCameras l))
  | UpdateShadowCameras W Wcam pCamera => updateShadowCameras W Wcam pCamera l
  end.

Fixpoint run_light_ops `{Libm} (os : list light_op) (l : VELight) : option VELight :=
  match os with
  | [] => Some l
  | o :: os' => l' ← run_light_op o l; run_light_ops os' l'
  end.

(** The two fraction fields of a camera. *)
Definition fractions (c : Camera) : float * float :=
  (m_nearPlaneFraction (camera_base c), m_farPlaneFraction (camera_base c)).

(** Pairs [(near, far)] that start at [start], end at [stop], follow each
    other without gap or overlap, and are not empty. *)
Fixpoint contiguous_from (start : float) (ps : list (float * float)) (stop : float)
  : bool :=
  match ps with
  | [] => F32.eqb start stop
  | (a, b) :: ps' => F32.eqb a start && F32.ltb a b && contiguous_from b ps' stop
  end.

Definition covers_unit_interval (ps : list (float * float)) : bool :=
  contiguous_from F32.zero ps F32.one.

Definition is_ortho (c : Camera) : bool :=
  match c with CameraOrtho _ => true | CameraProjective _ => false end.

Definition is_projective (c : Camera) : bool :=
  match c with CameraProjective _ => true | CameraOrtho _ => false end.

(** The state of a directional light between calls: four orthographic
    shadow cameras. *)
Definition directional_inv (l : VELight) : Prop :=
  getLightType l = VE_LIGHT_TYPE_DIRECTIONAL /\
  length (m_shadowCameras l) = 4 /\
  Forall (fun c => is_ortho c = true) (m_shadowCameras l).

(** The state of a point light between calls: six projective shadow
    cameras. *)
Definition point_inv (l : VELight) : Prop :=
  getLightType l = VE_LIGHT_TYPE_POINT /\
  length (m_shadowCameras l) = 6 /\
  Forall (fun c => is_projective c = true) (m_shadowCameras l).

(** What a turn of the point-light loop leaves in a shadow camera. *)
Definition point_camera (W : mat4) (m_param0 : float) (i : nat) (cam : Camera)
  : Prop :=
  exists p zi ui,
    cam = CameraProjective p /\ zaxis !! i = Some zi /\ up !! i = Some ui /\
    m_fov p = F32.of_Z 91 /\
    m_aspectRatio p = F32.one /\
    m_nearPlane (proj_base p) = F32.lit 1 10 /\
    m_farPlane (proj_base p) = (F32.lit 1 10 + m_param0)%f32 /\
    let pos := Vec3 (x4 (c3 W)) (y4 (c3 W)) (z4 (c3 W)) in
    cam_transform (proj_base p) = lookAt pos (add3 pos zi) ui glm.identity.

(** ** Meshes ([VEMesh], VEMaterial.cpp) *)

Record vec2 := Vec2 { x2 : float; y2 : float }.

Record vhVertex := mkVertex {
  pos : vec3;
  normal : vec3;
  tangent : vec3;
  texCoord : vec2
}.

Record VEMesh := mkMesh {
  m_vertexCount : nat;
  m_boundingSphereRadius : float;
  m_boundingSphereCenter : vec3
}.

(** The body of the loop over the vertices, in both constructors. *)
Definition radius_step (m_boundingSphereRadius : float) (p : vec3) : float :=
  F32.max (F32.max (F32.max (x3 p * x3 p) (y3 p * y3 p))%f32 (z3 p * z3 p)%f32)
          m_boundingSphereRadius.

(** [VEMesh::VEMesh(name, vertices, indices)]; the vertex and index buffers
    live on the GPU and are left out. *)
Definition VEMesh_of_vertices (vertices : list vhVertex) : VEMesh :=
  let r := foldl (fun r v => radius_step r (pos v)) F32.zero vertices in
  mkMesh (length vertices) (F32.sqrt r) (Vec3 F32.zero F32.zero F32.zero).

(** [VEMesh::VEMesh(name, paiMesh)], on the array [mVertices] of the Assimp
    mesh: each position is copied into a vertex and enters the radius in the
    same way. *)
Definition VEMesh_of_aiMesh (mVertices : list vec3) : VEMesh :=
  let r := foldl radius_step F32.zero mVertices in
  mkMesh (length mVertices) (F32.sqrt r) (Vec3 F32.zero F32.zero F32.zero).

(** The Euclidean distance of a point from the origin of local space, with
    the operations of [float]. *)
Definition distance_from_origin (p : vec3) : float :=
  F32.sqrt (x3 p * x3 p + y3 p * y3 p + z3 p * z3 p)%f32.

(** ** The active lights ([VESceneManager]) *)

Record VESceneManager := mkSceneManager {
  m_lights : list ptr;                 (* std::vector<VELight *> *)
  getCamera : ptr;                     (* the active camera *)
  light_at : ptr -> VELight            (* the light a VELight * points to *)
}.

(** [VESceneManager::switchOnLight] *)
Definition switchOnLight (light : ptr) (sm : VESceneManager) : VESceneManager :=
  mkSceneManager (m_lights sm ++ [light]) (getCamera sm) (light_at sm).

(** ** The forward renderer ([VERendererForward]) *)

Inductive VkRenderPass :=
| m_renderPassShadow
| m_renderPassClear
| m_renderPassLoad.

Inductive VkAttachmentLoadOp :=
| VK_ATTACHMENT_LOAD_OP_LOAD
| VK_ATTACHMENT_LOAD_OP_CLEAR.

(** The load operation that each render pass is created with, in
    [initRenderer] and [recreateSwapchain] ([vhRenderCreateRenderPass] with
    its [loadOp] argument) and in [vhRenderCreateRenderPassShadow]. *)
Definition loadOp (renderPass : VkRenderPass) : VkAttachmentLoadOp :=
  match renderPass with
  | m_renderPassShadow => VK_ATTACHMENT_LOAD_OP_CLEAR
  | m_renderPassClear => VK_ATTACHMENT_LOAD_OP_CLEAR
  | m_renderPassLoad => VK_ATTACHMENT_LOAD_OP_LOAD
  end.

Inductive VkFramebuffer :=
| m_shadowFramebuffers (imageIndex i : nat)
| m_swapChainFramebuffers (imageIndex : nat).

Inductive VkClearValue :=
| color (r g b a : float)
| depthStencil (depth : float) (stencil : Z).

Inductive veSubrenderClass :=
| VE_SUBRENDERER_CLASS_BACKGROUND
| VE_SUBRENDERER_CLASS_OBJECT
| VE_SUBRENDERER_CLASS_OVERLAY.

#[global] Instance veSubrenderClass_eq_dec : EqDecision veSubrenderClass.
Proof. solve_decision. Defined.

Record VESubrender := mkSubrender {
  sub_id : nat;                        (* which subrenderer object *)
  getClass : veSubrenderClass
}.

(** The camera handed to a subrenderer: a shadow camera of a light, or a
    camera of the scene. *)
Inductive camera_ref :=
| shadow_camera (pLight : ptr) (i : nat)
| scene_camera (pCamera : ptr).

(** What [recordCmdBuffers] writes into the command buffer, and the calls to
    the subrenderers that write the draw commands of a pass. *)
Inductive Cmd :=
| vhCmdBeginCommandBuffer
| vhRenderBeginRenderPass (renderPass : VkRenderPass) (frameBuffer : VkFramebuffer)
                          (clearValues : list VkClearValue)
| shadow_draw (imageIndex numPass : nat) (pCamera : camera_ref) (pLight : ptr)
| prepareDraw (pSub : VESubrender)
| draw (pSub : VESubrender) (imageIndex numPass : nat) (pCamera : camera_ref)
       (pLight : ptr)
| vkCmdEndRenderPass
| vkEndCommandBuffer.

Definition clearValuesShadow : list VkClearValue := [depthStencil F32.one 0].

Definition clearValuesLight_init : list VkClearValue :=
  [color F32.zero F32.zero F32.zero F32.one; depthStencil F32.one 0].

(** The inner loop over the shadow cameras of [pLight], from index [i] on;
    [n] turns are left. *)
Fixpoint record_shadow_passes (imageIndex : nat) (pLight : ptr) (n i : nat)
  (cmds : list Cmd) : list Cmd :=
  match n with
  | O => cmds
  | S n' =>
      let cmds := cmds ++ [vhRenderBeginRenderPass m_renderPassShadow
                             (m_shadowFramebuffers imageIndex i) clearValuesShadow] in
      let cmds := cmds ++ [shadow_draw imageIndex i (shadow_camera pLight i) pLight] in
      let cmds := cmds ++ [vkCmdEndRenderPass] in
      record_shadow_passes imageIndex pLight n' (S i) cmds
  end.

(** The loop over [m_subrenderers] in the light pass of light number [i]. *)
Fixpoint record_subrenderers (imageIndex i : nat) (pCamera pLight : ptr)
  (subs : list VESubrender) (cmds : list Cmd) : list Cmd :=
  match subs with
  | [] => cmds
  | pSub :: subs' =>
      let cmds :=
        if bool_decide (i = 0) || bool_decide (getClass pSub = VE_SUBRENDERER_CLASS_OBJECT)
        then cmds ++ [prepareDraw pSub]
                  ++ [draw pSub imageIndex i (scene_camera pCamera) pLight]
        else cmds in
      record_subrenderers imageIndex i pCamera pLight subs' cmds
  end.

(** The outer loop over the active lights, from index [i] on.  The state of
    the loop is the command buffer and the vector [clearValuesLight]. *)
Fixpoint record_lights (sm : VESceneManager) (m_subrenderers : list VESubrender)
  (imageIndex : nat) (lights : list ptr) (i : nat)
  (st : list Cmd * list VkClearValue) : list Cmd * list VkClearValue :=
  match lights with
  | [] => st
  | pLight :: lights' =>
      let '(cmds, clearValuesLight) := st in
      (* shadow passes *)
      let cmds := record_shadow_passes imageIndex pLight
                    (length (m_shadowCameras (light_at sm pLight))) 0 cmds in
      (* light pass *)
      let cmds := cmds ++ [vhRenderBeginRenderPass
                             (if bool_decide (i = 0) then m_renderPassClear
                              else m_renderPassLoad)
                             (m_swapChainFramebuffers imageIndex) clearValuesLight] in
      let cmds := record_subrenderers imageIndex i (getCamera sm) pLight
                    m_subrenderers cmds in
      let cmds := cmds ++ [vkCmdEndRenderPass] in
      record_lights sm m_subrenderers imageIndex lights' (S i) (cmds, [])
  end.

(** [VERendererForward::recordCmdBuffers]: the contents of the command buffer
    made for [imageIndex]. *)
Definition recordCmdBuffers (sm : VESceneManager)
  (m_subrenderers : list VESubrender) (imageIndex : nat) : list Cmd :=
  let cmds := [vhCmdBeginCommandBuffer] in
  let '(cmds, _) := record_lights sm m_subrenderers imageIndex (m_lights sm) 0
                      (cmds, clearValuesLight_init) in
  cmds ++ [vkEndCommandBuffer].

(** [VkResult] is a C enumeration; these are the values of vulkan_core.h. *)
Abbreviation VkResult := Z.
Definition VK_SUCCESS : VkResult := 0.
Definition VK_SUBOPTIMAL_KHR : VkResult := 1000001003.
Definition VK_ERROR_OUT_OF_DATE_KHR : VkResult := -1000001004.

Definition MAX_FRAMES_IN_FLIGHT : nat := 2.

(** The calls that the frame functions make to Vulkan, to the helper layer
    and to the engine, in the order in which they are made. *)
Inductive Call :=
| vkWaitForFences (m_currentFrame : nat)
| vkAcquireNextImageKHR (m_currentFrame : nat)
| call_recreateSwapchain
| fatalError (message : string)
| call_recordCmdBuffers (imageIndex : nat)
| vhCmdSubmitCommandBuffer (imageIndex m_currentFrame : nat)
| vhBufTransitionImageLayout (imageIndex : nat)
| vhRenderPresentResult (imageIndex m_currentFrame : nat).

Record VERendererForward := mkRenderer {
  m_subrenderers : list VESubrender;
  (** [m_commandBuffers[i]]; an index without entry holds [VK_NULL_HANDLE] *)
  m_commandBuffers : gmap nat (list Cmd);
  imageIndex : nat;
  m_currentFrame : nat;
  m_framebufferResized : bool;
  calls : list Call
}.

Definition log (c : Call) (r : VERendererForward) : VERendererForward :=
  mkRenderer (m_subrenderers r) (m_commandBuffers r) (imageIndex r)
             (m_currentFrame r) (m_framebufferResized r) (calls r ++ [c]).

(** [VEEngine::fatalError] is virtual and its body is not among the sources:
    whether the call comes back to the frame function is left open. *)
Class Engine := { fatalError_returns : bool }.

(** How a frame function ends: by returning, or inside [fatalError]. *)
Inductive outcome :=
| Returned (r : VERendererForward)
| InFatalError (r : VERendererForward).

Definition renderer_of (o : outcome) : VERendererForward :=
  match o with Returned r => r | InFatalError r => r end.

Definition call_fatalError `{Engine} (message : string) (r : VERendererForward)
  (rest : VERendererForward -> outcome) : outcome :=
  let r := log (fatalError message) r in
  if fatalError_returns then rest r else InFatalError r.

(** [VERendererForward::recreateSwapchain]: of its effects, the one on the
    state kept here is that of [deleteCmdBuffers], which leaves every
    command buffer [VK_NULL_HANDLE]. *)
Definition recreateSwapchain (r : VERendererForward) : VERendererForward :=
  let r := log call_recreateSwapchain r in
  mkRenderer (m_subrenderers r) ∅ (imageIndex r)
             (m_currentFrame r) (m_framebufferResized r) (calls r).

(** [VERendererForward::drawFrame].  [result] and [index] are what
    [vkAcquireNextImageKHR] answers. *)
Definition drawFrame `{Engine} (sm : VESceneManager) (result : VkResult) (index : nat)
  (r : VERendererForward) : outcome :=
  let r := log (vkWaitForFences (m_currentFrame r)) r in
  let r := log (vkAcquireNextImageKHR (m_currentFrame r)) r in
  let r := mkRenderer (m_subrenderers r) (m_commandBuffers r) index
                      (m_currentFrame r) (m_framebufferResized r) (calls r) in
  let rest (r : VERendererForward) : outcome :=
    let r :=
      match m_commandBuffers r !! imageIndex r with
      | None =>
          let r := log (call_recordCmdBuffers (imageIndex r)) r in
          mkRenderer (m_subrenderers r)
                     (<[imageIndex r :=
                          recordCmdBuffers sm (m_subrenderers r) (imageIndex r)]>
                        (m_commandBuffers r))
                     (imageIndex r) (m_currentFrame r) (m_framebufferResized r)
                     (calls r)
      | Some _ => r
      end in
    Returned (log (vhCmdSubmitCommandBuffer (imageIndex r) (m_currentFrame r)) r) in
  if bool_decide (result = VK_ERROR_OUT_OF_DATE_KHR) then
    Returned (recreateSwapchain r)
  else if bool_decide (result ≠ VK_SUCCESS) && bool_decide (result ≠ VK_SUBOPTIMAL_KHR) then
    call_fatalError "Failed to acquire swap chain image!" r rest
  else rest r.

(** [VERendererForward::presentFrame].  [result] is what
    [vhRenderPresentResult] answers. *)
Definition presentFrame `{Engine} (result : VkResult) (r : VERendererForward)
  : outcome :=
  let r := log (vhBufTransitionImageLayout (imageIndex r)) r in
  let r := log (vhRenderPresentResult (imageIndex r) (m_currentFrame r)) r in
  let rest (r : VERendererForward) : outcome :=
    Returned (mkRenderer (m_subrenderers r) (m_commandBuffers r) (imageIndex r)
                         ((m_currentFrame r + 1) `mod` MAX_FRAMES_IN_FLIGHT)
                         (m_framebufferResized r) (calls r)) in
  if bool_decide (result = VK_ERROR_OUT_OF_DATE_KHR)
     || bool_decide (result = VK_SUBOPTIMAL_KHR)
     || m_framebufferResized r then
    let r := mkRenderer (m_subrenderers r) (m_commandBuffers r) (imageIndex r)
                        (m_currentFrame r) false (calls r) in
    rest (recreateSwapchain r)
  else if bool_decide (result ≠ VK_SUCCESS) then
    call_fatalError "failed to present swap chain image!" r rest
  else rest r.

(** The calls of a frame function that record or submit draw work. *)
Definition is_draw_work (c : Call) : bool :=
  match c with
  | call_recordCmdBuffers _ | vhCmdSubmitCommandBuffer _ _ => true
  | _ => false
  end.

Definition is_fatalError (c : Call) : bool :=
  match c with fatalError _ => true | _ => false end.

Definition is_recreateSwapchain (c : Call) : bool :=
  match c with call_recreateSwapchain => true | _ => false end.

(** ** The recorded frame, pass by pass

    The command buffer as the specification describes it, to be compared
    with [recordCmdBuffers]: one round per active light, and a round is the
    shadow passes of the light followed by its light pass. *)

(** The shadow pass of shadow camera [j] of [pLight]: the shadow render pass
    begun with its clear value, the draw of the shadow subrenderer, the end
    of the pass. *)
Definition shadow_pass (imageIndex : nat) (pLight : ptr) (j : nat) : list Cmd :=
  [ vhRenderBeginRenderPass m_renderPassShadow (m_shadowFramebuffers imageIndex j)
                            clearValuesShadow;
    shadow_draw imageIndex j (shadow_camera pLight j) pLight;
    vkCmdEndRenderPass ].

(** The light pass of light number [i]: the clearing render pass for the
    first light and the loading one for the others; the first light makes
    every subrenderer draw, the others only those of class object. *)
Definition light_pass (sm : VESceneManager) (subs : list VESubrender)
  (imageIndex i : nat) (pLight : ptr) : list Cmd :=
  [ vhRenderBeginRenderPass
      (if bool_decide (i = 0) then m_renderPassClear else m_renderPassLoad)
      (m_swapChainFramebuffers imageIndex)
      (if bool_decide (i = 0) then clearValuesLight_init else []) ]
  ++ flat_map (fun pSub =>
       if bool_decide (i = 0) || bool_decide (getClass pSub = VE_SUBRENDERER_CLASS_OBJECT)
       then [prepareDraw pSub; draw pSub imageIndex i (scene_camera (getCamera sm)) pLight]
       else []) subs
  ++ [ vkCmdEndRenderPass ].

Definition shadow_passes (sm : VESceneManager) (imageIndex : nat) (pLight : ptr)
  : list Cmd :=
  flat_map (shadow_pass imageIndex pLight)
           (seq 0 (length (m_shadowCameras (light_at sm pLight)))).

Definition light_round (sm : VESceneManager) (subs : list VESubrender)
  (imageIndex i : nat) (pLight : ptr) : list Cmd :=
  shadow_passes sm imageIndex pLight ++ light_pass sm subs imageIndex i pLight.

(** The render pass that a command begins, if it begins one. *)
Definition render_pass_of (c : Cmd) : option VkRenderPass :=
  match c with
  | vhRenderBeginRenderPass renderPass _ _ => Some renderPass
  | _ => None
  end.

(** ** Concrete inputs *)

Definition vec3_of_Z (x y z : Z) : vec3 :=
  Vec3 (F32.of_Z x) (F32.of_Z y) (F32.of_Z z).

Definition vertex_at (x y z : Z) : vhVertex :=
  mkVertex (vec3_of_Z x y z) (vec3_of_Z 0 0 0) (vec3_of_Z 0 0 0)
           (Vec2 F32.zero F32.zero).

(** The camera of the projection test: near plane 0.1, far plane 500, aspect ratio
    16/9 and a vertical field of view of 45 degrees. *)
Definition camera_16_9 : VECameraProjective :=
  mkProjective (mkCamera glm.identity (F32.lit 1 10) (F32.of_Z 500) F32.zero F32.one)
               (F32.lit 16 9) (F32.of_Z 45).

(** A renderer before its first frame: two swap chain images without
    command buffer, an object and a background subrenderer. *)
Definition renderer_at_start : VERendererForward :=
  mkRenderer [mkSubrender 0 VE_SUBRENDERER_CLASS_OBJECT;
              mkSubrender 1 VE_SUBRENDERER_CLASS_BACKGROUND]
             ∅ 0 0 false [].

(** Light [7] is a directional light and every other pointer a point
    light; light [7] is switched on; the camera is node [1]. *)
Definition scene_with_one_light `{CameraDefaults} : VESceneManager :=
  mkSceneManager [7] 1
    (fun p => if bool_decide (p = 7) then VEDirectionalLight else VEPointLight).

(** An engine whose [fatalError] shows the message and comes back, as the
    call in [main] expects. *)
Definition fatalError_comes_back : Engine := {| fatalError_returns := true |}.

(** Default cameras for the examples: near plane 1 and far plane 200 with
    the whole frustum, at the origin. *)
Definition example_defaults : CameraDefaults :=
  {| new_VECameraOrtho :=
       mkOrtho (mkCamera glm.identity F32.one (F32.of_Z 200) F32.zero F32.one)
               F32.one F32.one;
     new_VECameraProjective :=
       mkProjective (mkCamera glm.identity F32.one (F32.of_Z 200) F32.zero F32.one)
                    F32.one (F32.of_Z 45);
     new_m_param := Vec4 (F32.of_Z 100) F32.one F32.one F32.one |}.

(** * More of the engine

    The functions around those above: the top-down update of the scene
    graph, switching lights off, and what the frame functions do over
    several frames. *)

(** ** The update of the scene graph ([VESceneNode::update], VEEntity.cpp) *)

(** [VESceneNode::update(parentWorldMatrix, imageIndex)] together with
    [updateChildren]: the calls of [updateUBO], as pairs of the node and the
    world matrix handed to it, in the order in which they are made.  [fuel]
    bounds the depth of the recursion over the children. *)
Fixpoint update_from (fuel : nat) (h : heap) (parentWorldMatrix : mat4) (this : ptr)
  : option (list (ptr * mat4)) :=
  match fuel with
  | O => None
  | S fuel' =>
      n ← h !! this;
      let worldMatrix := glm.mul parentWorldMatrix (m_transform n) in
      below ← mapM (update_from fuel' h worldMatrix) (m_children n);
      Some ((this, worldMatrix) :: concat below)
  end.

(** [VESceneNode::update(imageIndex)] *)
Definition update (fuel : nat) (h : heap) (this : ptr) : option (list (ptr * mat4)) :=
  n ← h !! this;
  parentWorldMatrix ← match m_parent n with
                      | Some p => getWorldTransform fuel h p
                      | None => Some glm.identity
                      end;
  update_from fuel h parentWorldMatrix this.

(** [VESceneManager::updateSceneNodes]: [nodes] are the values of
    [m_sceneNodes] in the order of the map. *)
Fixpoint updateSceneNodes (fuel : nat) (h : heap) (nodes : list ptr)
  : option (list (ptr * mat4)) :=
  match nodes with
  | [] => Some []
  | p :: nodes' =>
      n ← h !! p;
      ups ← match m_parent n with
            | None => update fuel h p
            | Some _ => Some []
            end;
      ups' ← updateSceneNodes fuel h nodes';
      Some (ups ++ ups')
  end.

(** Every node below [p] is at most [k] child links away. *)
Inductive height (h : heap) : ptr -> nat -> Prop :=
| height_node p n k :
    h !! p = Some n ->
    (forall c, c ∈ m_children n -> height h c k) ->
    height h p (S k).

(** ** Switching a light off ([VESceneManager::switchOffLight]) *)

(** The loop of [switchOffLight] at index [i].  A turn that finds the light
    overwrites the entry with the last one and drops the end of the vector;
    the loop then goes on with the next index.  Every turn adds one to [i]
    and the vector never grows, so that [fuel] equal to the length at the
    start is never used up. *)
Fixpoint switchOffLight_loop (light : ptr) (fuel i : nat) (m_lights : list ptr)
  : list ptr :=
  match fuel with
  | O => m_lights
  | S fuel' =>
      match m_lights !! i with
      | None => m_lights
      | Some p =>
          if decide (light = p) then
            switchOffLight_loop light fuel' (S i)
              (removelast (<[i := List.last m_lights light]> m_lights))
          else switchOffLight_loop light fuel' (S i) m_lights
      end
  end.

Definition switchOffLight (light : ptr) (sm : VESceneManager) : VESceneManager :=
  mkSceneManager (switchOffLight_loop light (length (m_lights sm)) 0 (m_lights sm))
                 (getCamera sm) (light_at sm).

(** ** The state of a command buffer while it is recorded

    A command buffer starts in the initial state, is recording between
    [vhCmdBeginCommandBuffer] and [vkEndCommandBuffer], and is executable
    afterwards.  A render pass is begun only while recording and outside a
    render pass, and draws are recorded only inside one. *)
Inductive recording :=
| Initial
| Recording
| InsideRenderPass
| Executable.

Definition record_step (s : recording) (c : Cmd) : option recording :=
  match s, c with
  | Initial, vhCmdBeginCommandBuffer => Some Recording
  | Recording, vhRenderBeginRenderPass _ _ _ => Some InsideRenderPass
  | InsideRenderPass, shadow_draw _ _ _ _ => Some InsideRenderPass
  | InsideRenderPass, prepareDraw _ => Some InsideRenderPass
  | InsideRenderPass, draw _ _ _ _ _ => Some InsideRenderPass
  | InsideRenderPass, vkCmdEndRenderPass => Some Recording
  | Recording, vkEndCommandBuffer => Some Executable
  | _, _ => None
  end.

Fixpoint record_run (s : recording) (cmds : list Cmd) : option recording :=
  match cmds with
  | [] => Some s
  | c :: cmds' => s' ← record_step s c; record_run s' cmds'
  end.

#[global] Instance VESubrender_eq_dec : EqDecision VESubrender.
Proof. solve_decision. Defined.

(** The draw calls that [cmds] makes to the subrenderer [pSub]. *)
Definition is_draw_of (pSub : VESubrender) (c : Cmd) : bool :=
  match c with
  | draw s _ _ _ _ => bool_decide (s = pSub)
  | _ => false
  end.

Definition count_draws (pSub : VESubrender) (cmds : list Cmd) : nat :=
  length (List.filter (is_draw_of pSub) cmds).

(** How often [pSub] is registered in [m_subrenderers]. *)
Definition registered (pSub : VESubrender) (subs : list VESubrender) : nat :=
  length (List.filter (fun s => bool_decide (s = pSub)) subs).

(** The shadow framebuffer that a command renders to, if it begins a shadow
    pass. *)
Definition shadow_framebuffer_of (c : Cmd) : option (nat * nat) :=
  match c with
  | vhRenderBeginRenderPass _ (m_shadowFramebuffers imageIndex i) _ => Some (imageIndex, i)
  | _ => None
  end.

(** The state of a spot light between calls: one projective shadow
    camera. *)
Definition spot_inv (l : VELight) : Prop :=
  getLightType l = VE_LIGHT_TYPE_SPOT /\
  length (m_shadowCameras l) = 1 /\
  Forall (fun c => is_projective c = true) (m_shadowCameras l).

(** A light as one of the three constructors makes it, after any calls. *)
Definition light_of_engine `{Libm} `{CameraDefaults} (l : VELight) : Prop :=
  exists os l0,
    (l0 = VEDirectionalLight \/ l0 = VEPointLight \/ l0 = VESpotLight) /\
    run_light_ops os l0 = Some l.

(** The number of attachments that each render pass is created with:
    colour and depth in [vhRenderCreateRenderPass], depth alone in
    [vhRenderCreateRenderPassShadow] (VHRender.cpp). *)
Definition attachmentCount (renderPass : VkRenderPass) : nat :=
  match renderPass with
  | m_renderPassShadow => 1
  | m_renderPassClear => 2
  | m_renderPassLoad => 2
  end.

(** [clearValueCount] as [vhRenderBeginRenderPass] sets it. *)
Definition clearValueCount (clearValues : list VkClearValue) : nat :=
  length clearValues.

Inductive VkImageLayout :=
| VK_IMAGE_LAYOUT_UNDEFINED
| VK_IMAGE_LAYOUT_COLOR_ATTACHMENT_OPTIMAL
| VK_IMAGE_LAYOUT_PRESENT_SRC_KHR.

(** The layouts of the colour attachment in [vhRenderCreateRenderPass]:
    the initial layout depends on [loadOp]. *)
Definition colorAttachment_initialLayout (loadOp : VkAttachmentLoadOp) : VkImageLayout :=
  match loadOp with
  | VK_ATTACHMENT_LOAD_OP_LOAD => VK_IMAGE_LAYOUT_COLOR_ATTACHMENT_OPTIMAL
  | VK_ATTACHMENT_LOAD_OP_CLEAR => VK_IMAGE_LAYOUT_UNDEFINED
  end.

Definition colorAttachment_finalLayout : VkImageLayout :=
  VK_IMAGE_LAYOUT_COLOR_ATTACHMENT_OPTIMAL.

(** The old layout that [presentFrame] names in its call of
    [vhBufTransitionImageLayout]. *)
Definition presentFrame_oldLayout : VkImageLayout :=
  VK_IMAGE_LAYOUT_COLOR_ATTACHMENT_OPTIMAL.

#[global] Instance VkImageLayout_eq_dec : EqDecision VkImageLayout.
Proof. solve_decision. Defined.

(** The layout of the swap chain image along a command buffer.  A render
    pass on the swap chain framebuffer needs the image in the initial layout
    of its colour attachment, unless that is the undefined layout, and
    leaves it in the final layout.  [None]: a pass finds the image in
    another layout than the one it was created for. *)
Definition layout_step (layout : VkImageLayout) (c : Cmd) : option VkImageLayout :=
  match c with
  | vhRenderBeginRenderPass renderPass (m_swapChainFramebuffers _) _ =>
      let initialLayout := colorAttachment_initialLayout (loadOp renderPass) in
      if bool_decide (initialLayout = VK_IMAGE_LAYOUT_UNDEFINED)
         || bool_decide (initialLayout = layout)
      then Some colorAttachment_finalLayout
      else None
  | _ => Some layout
  end.

Fixpoint layout_run (layout : VkImageLayout) (cmds : list Cmd) : option VkImageLayout :=
  match cmds with
  | [] => Some layout
  | c :: cmds' => layout' ← layout_step layout c; layout_run layout' cmds'
  end.

(** What a turn of the spot-light loop leaves in the shadow camera. *)
Definition spot_camera (W : mat4) (m_param0 : float) (cam : Camera) : Prop :=
  exists p,
    cam = CameraProjective p /\
    m_fov p = F32.of_Z 90 /\
    m_aspectRatio p = F32.one /\
    m_nearPlane (proj_base p) = (F32.lit 1 10 + F32.zero * m_param0)%f32 /\
    m_farPlane (proj_base p) = (F32.lit 1 10 + F32.one * m_param0)%f32 /\
    fractions cam = (F32.zero, F32.one) /\
    cam_transform (proj_base p) = W.

(** A float that is neither infinite nor NaN. *)
Definition is_finite (x : float) : bool :=
  match x with
  | S754_zero _ | S754_finite _ _ _ => true
  | _ => false
  end.

(** What a turn of the directional loop leaves in the [i]-th shadow camera:
    the box around the [i]-th segment of the viewer's frustum gives width,
    height and, times five, the far plane; the camera has the axes of the
    light and sits nine tenths of the far plane behind the centre of the
    box. *)
Definition directional_camera `{Libm} (W Wcam : mat4) (pCamera : Camera)
  (i : nat) (cam : Camera) : Prop :=
  exists o t0 t1 center width height depth,
    cam = CameraOrtho o /\
    limits !! i = Some t0 /\ limits !! S i = Some t1 /\
    getOBB W (getFrustumPoints Wcam pCamera t0 t1) = Some (center, width, height, depth) /\
    m_width o = width /\ m_height o = height /\
    m_farPlane (ortho_base o) = (depth * F32.of_Z 5)%f32 /\
    c0 (cam_transform (ortho_base o)) = c0 W /\
    c1 (cam_transform (ortho_base o)) = c1 W /\
    c2 (cam_transform (ortho_base o)) = c2 W /\
    c3 (cam_transform (ortho_base o))
    = (let pos := sub3 center
                    (scalar3 (depth * F32.of_Z 5 * F32.lit 9 10)%f32
                             (Vec3 (x4 (c2 W)) (y4 (c2 W)) (z4 (c2 W)))) in
       Vec4 (x3 pos) (y3 pos) (z3 pos) F32.one).

(** A libm for the examples: the first terms of the series of cosine and
    sine, and of the tangent of an angle given in degrees. *)
Definition example_libm : Libm :=
  {| cosf := fun x => (F32.one - x * x / F32.of_Z 2)%f32;
     sinf := fun x => (x - x * x * x / F32.of_Z 6)%f32;
     tan_deg := fun x => let r := glm.radians x in
                         (r + r * r * r / F32.of_Z 3)%f32 |}.

(** The near plane of the constructor in every shadow camera. *)
Definition default_near `{CameraDefaults} (l : VELight) : Prop :=
  Forall (fun c => m_nearPlane (camera_base c) = m_nearPlane (ortho_base new_VECameraOrtho))
         (m_shadowCameras l).

(** [extent] is the distance, along [axis], between two of the [points]
    beyond which none of them lies: one in the direction of [axis] and one
    in the opposite direction. *)
Definition spans (axis : vec4) (points : list vec4) (extent : float) : Prop :=
  let back := scalar4 (- F32.one)%f32 axis in
  exists pmin pmax,
    pmin ∈ points /\ pmax ∈ points /\
    extent = (dot4 axis pmax + dot4 back pmin)%f32 /\
    forall p, p ∈ points ->
      (dot4 axis pmax <? dot4 axis p)%f32 = false /\
      (dot4 back pmin <? dot4 back p)%f32 = false.

(** The squares that a vertex position enters into the radius of a mesh. *)
Definition squares (p : vec3) : list float :=
  [(x3 p * x3 p)%f32; (y3 p * y3 p)%f32; (z3 p * z3 p)%f32].

(** Three lights switched on one after the other: [7], [8] and [9]. *)
Definition scene_with_three_lights `{CameraDefaults} : VESceneManager :=
  switchOnLight 9 (switchOnLight 8 scene_with_one_light).





(** ** Making a scene node ([VESceneNode::VESceneNode]) *)

(** The constructor, for the object at the fresh address [this].  [m0] is
    what the member [m_transform] holds before the body runs; the body ends
    with [setTransform], so that it does not show in the result.  The body
    sets [m_parent] first and then calls [parent->addChild(this)], which
    finds [m_parent] set and so calls [removeChild] on the parent before it
    appends the node. *)
Definition new_VESceneNode (this : ptr) (m0 transf : mat4) (parent : option ptr)
  (h : heap) : option heap :=
  let h := <[this := mkSceneNode m0 parent []]> h in
  h ← match parent with
      | Some p => addChild p this h
      | None => Some h
      end;
  n ← h !! this;
  Some (<[this := set_transform n (setTransform transf (m_transform n))]> h).

(** ** Bounding spheres ([getBoundingSphere]) *)

(** [VESceneNode::getPosition] *)
Definition getPosition (m_transform : mat4) : vec3 :=
  Vec3 (x4 (c3 m_transform)) (y4 (c3 m_transform)) (z4 (c3 m_transform)).

(** [VESceneNode::getBoundingSphere]: centre and radius. *)
Definition VESceneNode_getBoundingSphere (m_transform : mat4) : vec3 * float :=
  (getPosition m_transform, F32.one).

(** [VEEntity::getBoundingSphere], for an entity with the mesh [m_pMesh]
    ([None] is the null pointer). *)
Definition VEEntity_getBoundingSphere (m_transform : mat4) (m_pMesh : option VEMesh)
  : vec3 * float :=
  let center := getPosition m_transform in
  let radius := F32.one in
  match m_pMesh with
  | Some mesh => (m_boundingSphereCenter mesh, m_boundingSphereRadius mesh)
  | None => (center, radius)
  end.

(** ** The meshes of the scene manager ([createMeshes], [deleteMesh]) *)

(** The part of an Assimp mesh that the engine reads. *)
Record aiMesh := mkAiMesh {
  mName : string;
  mVertices : list vec3
}.

(** The map [m_meshes] from names to [VEMesh *], and the [VEMesh] objects on
    the heap.  A key of a [std::map] can hold the null pointer, which is
    [Some None] here; [None] is a key that the map does not have. *)
Record Assets := mkAssets {
  m_meshes : gmap string (option ptr);
  objects : gmap ptr VEMesh
}.

(** [m[name]] of a [std::map]: a name that the map does not have is entered
    with the null pointer. *)
Definition at_key (name : string) (m : gmap string (option ptr))
  : option ptr * gmap string (option ptr) :=
  match m !! name with
  | Some pMesh => (pMesh, m)
  | None => (None, <[name := None]> m)
  end.

(** [new VEMesh(name, paiMesh)]: the object at an address not in use. *)
Definition new_VEMesh (paiMesh : aiMesh) (objects : gmap ptr VEMesh)
  : ptr * gmap ptr VEMesh :=
  let p := fresh (dom objects) in
  (p, <[p := VEMesh_of_aiMesh (mVertices paiMesh)]> objects).

(** The name under which [createMeshes] keeps a mesh of the file
    [filekey]. *)
Definition mesh_key (filekey : string) (paiMesh : aiMesh) : string :=
  filekey +:+ "/" +:+ mName paiMesh.

(** One turn of the loop of [VESceneManager::createMeshes]: the new state
    and the pointer pushed onto [meshes]. *)
Definition createMeshes_turn (filekey : string) (paiMesh : aiMesh) (a : Assets)
  : Assets * option ptr :=
  let name := mesh_key filekey paiMesh in
  let '(pMesh, m) := at_key name (m_meshes a) in
  match pMesh with
  | None =>
      let '(p, objs) := new_VEMesh paiMesh (objects a) in
      (mkAssets (<[name := Some p]> m) objs, Some p)
  | Some p => (mkAssets m (objects a), Some p)
  end.

(** [VESceneManager::createMeshes]: the loop over [pScene->mMeshes]; the
    result is the new state and the vector [meshes]. *)
Fixpoint createMeshes (mMeshes : list aiMesh) (filekey : string) (a : Assets)
  (meshes : list (option ptr)) : Assets * list (option ptr) :=
  match mMeshes with
  | [] => (a, meshes)
  | paiMesh :: rest =>
      let '(a, pMesh) := createMeshes_turn filekey paiMesh a in
      createMeshes rest filekey a (meshes ++ [pMesh])
  end.

(** [name] holds an object. *)
Definition stored (a : Assets) (name : string) (p : ptr) : Prop :=
  m_meshes a !! name = Some (Some p).

(** [VESceneManager::deleteMesh] *)
Definition deleteMesh (name : string) (a : Assets) : Assets :=
  let '(pMesh, m) := at_key name (m_meshes a) in
  match pMesh with
  | Some p => mkAssets (delete name m) (delete p (objects a))
  | None => mkAssets m (objects a)
  end.

(** The names hold different objects, and each object they hold is
    alive. *)
Definition assets_ok (a : Assets) : Prop :=
  (forall name p, m_meshes a !! name = Some (Some p) -> is_Some (objects a !! p)) /\
  (forall name1 name2 p, m_meshes a !! name1 = Some (Some p) ->
                         m_meshes a !! name2 = Some (Some p) -> name1 = name2).

(** Calls that load and delete meshes. *)
Inductive asset_op :=
| CreateMeshes (mMeshes : list aiMesh) (filekey : string)
| DeleteMesh (name : string).

Definition run_asset_op (o : asset_op) (a : Assets) : Assets :=
  match o with
  | CreateMeshes mMeshes filekey => (createMeshes mMeshes filekey a []).1
  | DeleteMesh name => deleteMesh name a
  end.

Definition run_asset_ops (os : list asset_op) (a : Assets) : Assets :=
  foldl (fun a o => run_asset_op o a) a os.

(** The scene manager before anything is loaded. *)
Definition no_assets : Assets := mkAssets ∅ ∅.

(** ** Entities ([VEEntity]) *)

(** The members of an entity that its constructor and [getBoundingSphere]
    use.  A mesh is not changed after it is made, so that the pointer
    [m_pMesh] is given as the mesh it points to. *)
Record VEEntity := mkEntity {
  entity_transform : mat4;             (* m_transform of the scene node *)
  m_pMesh : option VEMesh;
  m_pMaterial : option ptr;
  m_drawEntity : bool;
  m_castsShadow : bool
}.

(** [VEEntity::VEEntity]; [members] holds what the default member
    initialisers of VEEntity.h, which is not among the sources, leave in the
    four members. *)
Definition new_VEEntity (members : VEEntity) (pMesh : option VEMesh)
  (pMat : option ptr) (transf : mat4) : VEEntity :=
  let e := mkEntity (setTransform transf (entity_transform members))
                    (m_pMesh members) (m_pMaterial members)
                    (m_drawEntity members) (m_castsShadow members) in
  match pMesh, pMat with
  | Some _, Some _ => mkEntity (entity_transform e) pMesh pMat true true
  | _, _ => e
  end.

(** [setPosition] on an entity. *)
Definition entity_setPosition (pos : vec3) (e : VEEntity) : VEEntity :=
  mkEntity (setPosition pos (entity_transform e)) (m_pMesh e) (m_pMaterial e)
           (m_drawEntity e) (m_castsShadow e).

(** [VEEntity::getBoundingSphere] of an entity. *)
Definition getBoundingSphere (e : VEEntity) : vec3 * float :=
  VEEntity_getBoundingSphere (entity_transform e) (m_pMesh e).

(** ** Cycles in the scene graph *)

(** [a] is reached from [x] by one or more steps along [m_parent]. *)
Inductive ancestor (h : heap) : ptr -> ptr -> Prop :=
| ancestor_parent x n a :
    h !! x = Some n -> m_parent n = Some a -> ancestor h x a
| ancestor_step x n p a :
    h !! x = Some n -> m_parent n = Some p -> ancestor h p a -> ancestor h x a.

(** ** The textures of a material ([VESceneManager::createMaterials]) *)

(** What [createMaterials] reads from an Assimp material: the textures of
    the four kinds that it keeps, by file name.  [None] for the colour:
    [Get] does not answer [AI_SUCCESS]. *)
Record aiMaterial := mkAiMaterial {
  AI_MATKEY_SHADING_MODEL : Z;
  AI_MATKEY_COLOR_DIFFUSE : option (float * float * float);
  aiTextureType_DIFFUSE : list string;
  aiTextureType_NORMALS : list string;
  aiTextureType_DISPLACEMENT : list string;
  aiTextureType_HEIGHT : list string
}.

(** A texture made by [new VETexture(name, basedir, { texName })]. *)
Record VETexture := mkTexture {
  texture_name : string;
  texture_basedir : string;
  texture_files : list string
}.

Record VEMaterial := mkMaterial {
  shading : Z;
  material_color : vec4;            (* color *)
  mapDiffuse : option VETexture;
  mapBump : option VETexture;
  mapNormal : option VETexture;
  mapHeight : option VETexture
}.

Definition texture_of (filekey basedir name : string) : VETexture :=
  mkTexture (filekey +:+ "/" +:+ name) basedir [name].

(** The four loops that make textures.  The state is the material and the
    textures made so far.  The loop over the diffuse textures assigns
    [mapDiffuse] in every turn; the other three assign only while their map
    is null. *)
Definition diffuse_turn (filekey basedir : string)
  (st : VEMaterial * list VETexture) (name : string) : VEMaterial * list VETexture :=
  let '(pMat, made) := st in
  let t := texture_of filekey basedir name in
  (mkMaterial (shading pMat) (material_color pMat) (Some t) (mapBump pMat) (mapNormal pMat)
              (mapHeight pMat),
   made ++ [t]).

Definition normals_turn (filekey basedir : string)
  (st : VEMaterial * list VETexture) (name : string) : VEMaterial * list VETexture :=
  let '(pMat, made) := st in
  match mapNormal pMat with
  | None =>
      let t := texture_of filekey basedir name in
      (mkMaterial (shading pMat) (material_color pMat) (mapDiffuse pMat) (mapBump pMat) (Some t)
                  (mapHeight pMat),
       made ++ [t])
  | Some _ => st
  end.

Definition displacement_turn (filekey basedir : string)
  (st : VEMaterial * list VETexture) (name : string) : VEMaterial * list VETexture :=
  let '(pMat, made) := st in
  match mapBump pMat with
  | None =>
      let t := texture_of filekey basedir name in
      (mkMaterial (shading pMat) (material_color pMat) (mapDiffuse pMat) (Some t) (mapNormal pMat)
                  (mapHeight pMat),
       made ++ [t])
  | Some _ => st
  end.

Definition height_turn (filekey basedir : string)
  (st : VEMaterial * list VETexture) (name : string) : VEMaterial * list VETexture :=
  let '(pMat, made) := st in
  match mapHeight pMat with
  | None =>
      let t := texture_of filekey basedir name in
      (mkMaterial (shading pMat) (material_color pMat) (mapDiffuse pMat) (mapBump pMat)
                  (mapNormal pMat) (Some t),
       made ++ [t])
  | Some _ => st
  end.

(** The branch of [createMaterials] that makes a material for a name that
    holds none: the material, and the textures made for it in order.
    [members] is the material as [new VEMaterial(name)] leaves it; the class
    is declared in a header that is not among the sources. *)
Definition new_VEMaterial (members : VEMaterial) (filekey basedir : string)
  (paiMat : aiMaterial) : VEMaterial * list VETexture :=
  let pMat := mkMaterial (AI_MATKEY_SHADING_MODEL paiMat) (material_color members)
                         (mapDiffuse members) (mapBump members) (mapNormal members)
                         (mapHeight members) in
  let pMat :=
    match AI_MATKEY_COLOR_DIFFUSE paiMat with
    | Some (r, g, b) =>
        mkMaterial (shading pMat) (Vec4 r g b F32.one) (mapDiffuse pMat) (mapBump pMat)
                   (mapNormal pMat) (mapHeight pMat)
    | None => pMat
    end in
  let st := (pMat, []) in
  let st := foldl (diffuse_turn filekey basedir) st (aiTextureType_DIFFUSE paiMat) in
  let st := foldl (normals_turn filekey basedir) st (aiTextureType_NORMALS paiMat) in
  let st := foldl (displacement_turn filekey basedir) st
                  (aiTextureType_DISPLACEMENT paiMat) in
  foldl (height_turn filekey basedir) st (aiTextureType_HEIGHT paiMat).

(** The textures that a material points to. *)
Definition maps_of (pMat : VEMaterial) : list VETexture :=
  omap id [mapDiffuse pMat; mapBump pMat; mapNormal pMat; mapHeight pMat].

(** ** The mouse of the GLFW listener ([VEEventListenerGLFW]) *)

(** Constants of glfw3.h. *)
Definition GLFW_RELEASE : Z := 0.
Definition GLFW_PRESS : Z := 1.
Definition GLFW_MOUSE_BUTTON_RIGHT : Z := 1.

(** [glm::rotate(m, angle, v)] and [glm::translate(m, v)] of GLM's
    matrix_transform.inl. *)
Definition glm_rotate `{Libm} (m : mat4) (angle : float) (v : vec3) : mat4 :=
  let c := cosf angle in
  let s := sinf angle in
  let axis := normalize v in
  let temp := scalar3 (F32.one - c)%f32 axis in
  let r00 := (c + x3 temp * x3 axis)%f32 in
  let r01 := (x3 temp * y3 axis + s * z3 axis)%f32 in
  let r02 := (x3 temp * z3 axis - s * y3 axis)%f32 in
  let r10 := (y3 temp * x3 axis - s * z3 axis)%f32 in
  let r11 := (c + y3 temp * y3 axis)%f32 in
  let r12 := (y3 temp * z3 axis + s * x3 axis)%f32 in
  let r20 := (z3 temp * x3 axis + s * y3 axis)%f32 in
  let r21 := (z3 temp * y3 axis - s * x3 axis)%f32 in
  let r22 := (c + z3 temp * z3 axis)%f32 in
  Mat4 (add4 (add4 (scale4 (c0 m) r00) (scale4 (c1 m) r01)) (scale4 (c2 m) r02))
       (add4 (add4 (scale4 (c0 m) r10) (scale4 (c1 m) r11)) (scale4 (c2 m) r12))
       (add4 (add4 (scale4 (c0 m) r20) (scale4 (c1 m) r21)) (scale4 (c2 m) r22))
       (c3 m).

Definition glm_translate (m : mat4) (v : vec3) : mat4 :=
  Mat4 (c0 m) (c1 m) (c2 m)
       (add4 (add4 (add4 (scale4 (c0 m) (x3 v)) (scale4 (c1 m) (y3 v)))
                   (scale4 (c2 m) (z3 v)))
             (c3 m)).

(** The members of the listener that the mouse callbacks use. *)
Record VEEventListenerGLFW := mkListener {
  m_usePrevCursorPosition : bool;
  m_rightButtonClicked : bool;
  m_cursorPrevX : float;
  m_cursorPrevY : float
}.

(** [VEEventListenerGLFW::onMouseButton]; [idata1] is the button and
    [idata3] the action of the event. *)
Definition onMouseButton (idata1 idata3 : Z) (l : VEEventListenerGLFW)
  : VEEventListenerGLFW * bool :=
  if bool_decide (idata3 = GLFW_PRESS) then
    let l := mkListener false (m_rightButtonClicked l) (m_cursorPrevX l) (m_cursorPrevY l) in
    let l := if bool_decide (idata1 = GLFW_MOUSE_BUTTON_RIGHT)
             then mkListener (m_usePrevCursorPosition l) true
                             (m_cursorPrevX l) (m_cursorPrevY l)
             else l in
    (l, true)
  else if bool_decide (idata3 = GLFW_RELEASE) then
    let l := mkListener false (m_rightButtonClicked l) (m_cursorPrevX l) (m_cursorPrevY l) in
    let l := if bool_decide (idata1 = GLFW_MOUSE_BUTTON_RIGHT)
             then mkListener (m_usePrevCursorPosition l) false
                             (m_cursorPrevX l) (m_cursorPrevY l)
             else l in
    (l, true)
  else (l, false).

(** The rotation that [onMouseMove] multiplies onto the camera for a cursor
    motion of [(dx, dy)]; [cam] is the transform of the camera and [dt] the
    value of [(float)event.dt]. *)
Definition mouse_rotation `{Libm} (dt dx dy : float) (cam : mat4) : mat4 :=
  let slow := F32.lit 1 2 in
  let angledx := (slow * dt * dx)%f32 in
  let rot3dx := Vec3 F32.zero F32.one F32.zero in
  let rotatedx := glm_rotate glm.identity angledx rot3dx in
  let angledy := (slow * dt * dy)%f32 in
  let rot4dy := mul_vec cam (Vec4 F32.one F32.zero F32.zero F32.one) in
  let rot3dy := Vec3 (x4 rot4dy) (y4 rot4dy) (z4 rot4dy) in
  let rotatedy := glm_rotate glm.identity angledy rot3dy in
  glm.mul rotatedx rotatedy.

(** [VEEventListenerGLFW::onMouseMove] on the listener and the transform of
    the camera; [fdata1] and [fdata2] are the position of the cursor. *)
Definition onMouseMove `{Libm} (fdata1 fdata2 dt : float) (l : VEEventListenerGLFW)
  (cam : mat4) : VEEventListenerGLFW * mat4 * bool :=
  if negb (m_rightButtonClicked l) then (l, cam, false)
  else
    let x := fdata1 in
    let y := fdata2 in
    if negb (m_usePrevCursorPosition l) then
      (mkListener true (m_rightButtonClicked l) x y, cam, true)
    else
      let dx := (x - m_cursorPrevX l)%f32 in
      let dy := (y - m_cursorPrevY l)%f32 in
      let l := mkListener (m_usePrevCursorPosition l) (m_rightButtonClicked l) x y in
      (l, multiplyTransform (mouse_rotation dt dx dy cam) cam, false).

(** Mouse events in the order in which the engine delivers them. *)
Inductive mouse_event :=
| MouseButton (idata1 idata3 : Z)
| MouseMove (fdata1 fdata2 dt : float).

(** The listener, the transform of the camera, and the values returned so
    far. *)
Definition on_mouse_event `{Libm} (s : VEEventListenerGLFW * mat4 * list bool)
  (e : mouse_event) : VEEventListenerGLFW * mat4 * list bool :=
  let '(l, cam, consumed) := s in
  match e with
  | MouseButton idata1 idata3 =>
      let '(l, b) := onMouseButton idata1 idata3 l in (l, cam, consumed ++ [b])
  | MouseMove fdata1 fdata2 dt =>
      let '(l, cam, b) := onMouseMove fdata1 fdata2 dt l cam in (l, cam, consumed ++ [b])
  end.

Definition run_mouse `{Libm} (evs : list mouse_event) (l : VEEventListenerGLFW)
  (cam : mat4) : VEEventListenerGLFW * mat4 * list bool :=
  foldl on_mouse_event (l, cam, []) evs.

(** A button is pressed or released. *)
Definition is_click (e : mouse_event) : bool :=
  match e with
  | MouseButton _ idata3 =>
      bool_decide (idata3 = GLFW_PRESS) || bool_decide (idata3 = GLFW_RELEASE)
  | MouseMove _ _ _ => false
  end.

(** The right button is pressed. *)
Definition is_right_press (e : mouse_event) : bool :=
  match e with
  | MouseButton idata1 idata3 =>
      bool_decide (idata1 = GLFW_MOUSE_BUTTON_RIGHT) && bool_decide (idata3 = GLFW_PRESS)
  | MouseMove _ _ _ => false
  end.

(** No move follows a move without a click in between; [after_move] tells
    whether a move came last. *)
Fixpoint no_two_moves (after_move : bool) (evs : list mouse_event) : bool :=
  match evs with
  | [] => true
  | e :: evs' =>
      match e with
      | MouseMove _ _ _ => negb after_move && no_two_moves true evs'
      | MouseButton _ _ => no_two_moves (if is_click e then false else after_move) evs'
      end
  end.

(** ** The rows of houses ([createHouses], [moveHousesToFront]) *)











(** ** Moving the first light with the keyboard ([LightListener], main.cpp) *)

(** Key codes of glfw3.h. *)
Definition GLFW_KEY_H : Z := 72.
Definition GLFW_KEY_I : Z := 73.
Definition GLFW_KEY_J : Z := 74.
Definition GLFW_KEY_K : Z := 75.
Definition GLFW_KEY_U : Z := 85.
Definition GLFW_KEY_Y : Z := 89.

(** The direction that a key moves the light in, if it moves it. *)
Definition light_key (idata1 : Z) : option vec3 :=
  let o := F32.zero in
  let l := F32.one in
  if bool_decide (idata1 = GLFW_KEY_Y) then Some (Vec3 o (- l)%f32 o)
  else if bool_decide (idata1 = GLFW_KEY_I) then Some (Vec3 o l o)
  else if bool_decide (idata1 = GLFW_KEY_U) then Some (Vec3 o o l)
  else if bool_decide (idata1 = GLFW_KEY_J) then Some (Vec3 o o (- l)%f32)
  else if bool_decide (idata1 = GLFW_KEY_H) then Some (Vec3 (- l)%f32 o o)
  else if bool_decide (idata1 = GLFW_KEY_K) then Some (Vec3 l o o)
  else None.

(** [p->multiplyTransform(trans)] on the node that [p] points to. *)
Definition multiplyTransform_at (p : ptr) (trans : mat4) (h : heap) : option heap :=
  n ← h !! p;
  Some (<[p := set_transform n (multiplyTransform trans (m_transform n))]> h).

(** [LightListener::onKeyboard]: the scene graph afterwards and the value
    returned; [idata1] is the key, [idata3] the action and [dt] the value of
    [(float)event.dt].  [None] is undefined behaviour: [getLights()[0]] on
    an empty vector, or a call on a light that is no longer alive. *)
Definition LightListener_onKeyboard (idata1 idata3 : Z) (dt : float)
  (sm : VESceneManager) (h : heap) : option (heap * bool) :=
  if bool_decide (idata3 = GLFW_RELEASE) then Some (h, false)
  else
    pLight ← m_lights sm !! 0;
    let speed := (F32.of_Z 5 * dt)%f32 in
    match light_key idata1 with
    | Some direction =>
        h ← multiplyTransform_at pLight
              (glm_translate glm.identity (scalar3 speed direction)) h;
        Some (h, false)
    | None => Some (h, false)
    end.

(** * Properties *)

(** ** World transforms *)

Section WorldTransform.

Implicit Types (h : heap) (this p : ptr) (n : VESceneNode).

(** More fuel does not change a result. *)
Lemma getWorldTransform_fuel h fuel fuel' this W :
  getWorldTransform fuel h this = Some W -> fuel <= fuel' ->
  getWorldTransform fuel' h this = Some W.
Proof.
  revert fuel' this W.
  induction fuel as [|fuel IH]; intros fuel' this W Hw Hle; [discriminate|].
  destruct fuel' as [|fuel']; [lia|].
  simpl in *.
  destruct (h !! this) as [n|]; simpl in *; [|discriminate].
  destruct (m_parent n) as [p|]; [|exact Hw].
  destruct (getWorldTransform fuel h p) as [WP|] eqn:HP; simpl in *; [|discriminate].
  rewrite (IH fuel' p WP HP); [exact Hw | lia].
Qed.

(** A node at depth [d] has a world transform after [d + 1] calls. *)
Lemma getWorldTransform_total h this d :
  at_depth h this d ->
  forall fuel, d < fuel -> is_Some (getWorldTransform fuel h this).
Proof.
  induction 1 as [this n Hn Hp | this n p d Hn Hp Hd IH]; intros fuel Hlt.
  - destruct fuel as [|fuel]; [lia|]. simpl. rewrite Hn. simpl. rewrite Hp. eauto.
  - destruct fuel as [|fuel]; [lia|]. simpl. rewrite Hn. simpl. rewrite Hp.
    destruct (IH fuel) as [WP HWP]; [lia|]. rewrite HWP. simpl. eauto.
Qed.

(** The recursion multiplies the local transforms along the parent chain,
    the root first. *)
Lemma getWorldTransform_chain h this ts :
  chain h this ts ->
  forall fuel, length ts <= fuel -> getWorldTransform fuel h this = product ts.
Proof.
  induction 1 as [this n Hn Hp | this n p ts Hn Hp Hc IH]; intros fuel Hlen.
  - destruct fuel as [|fuel]; [simpl in Hlen; lia|].
    simpl. rewrite Hn. simpl. rewrite Hp. reflexivity.
  - rewrite length_app in Hlen. simpl in Hlen.
    destruct fuel as [|fuel]; [lia|].
    simpl. rewrite Hn. simpl. rewrite Hp.
    rewrite (IH fuel) by lia.
    destruct ts as [|t ts]; [inversion Hc; destruct ts; discriminate|].
    simpl. rewrite foldl_app. reflexivity.
Qed.

(** C1.  For a node [this] with parent [p], the world transform is the
    world transform of [p] times the local transform of [this]; for a node
    without parent it is the local transform.  Each call goes up the parent
    chain of the current heap again (nothing is cached): the result is the
    product of the local transforms along the chain.  The recursion returns
    as soon as [fuel] exceeds the depth of the node. *)
Theorem C1_world_transform h this n :
  h !! this = Some n ->
  (m_parent n = None ->
   forall fuel, getWorldTransform (S fuel) h this = Some (m_transform n)) /\
  (forall p d, m_parent n = Some p -> at_depth h p d ->
   forall fuel, S d < fuel ->
   exists WP, getWorldTransform fuel h p = Some WP /\
              getWorldTransform fuel h this = Some (glm.mul WP (m_transform n))) /\
  (forall ts, chain h this ts ->
   forall fuel, length ts <= fuel -> getWorldTransform fuel h this = product ts).
Proof.
  intros Hn. split; [|split].
  - intros Hp fuel. simpl. rewrite Hn. simpl. rewrite Hp. reflexivity.
  - intros p d Hp Hd fuel Hlt.
    destruct fuel as [|fuel]; [lia|].
    destruct (getWorldTransform_total h p d Hd fuel) as [WP HWP]; [lia|].
    exists WP. split.
    + apply (getWorldTransform_fuel h fuel); [exact HWP | lia].
    + simpl. rewrite Hn. simpl. rewrite Hp. rewrite HWP. reflexivity.
  - intros ts Hc fuel Hlen. apply getWorldTransform_chain; assumption.
Qed.

End WorldTransform.

Lemma C1_world_transform_witness :
  exists WP, getWorldTransform 2 example_heap 0 = Some WP /\
             getWorldTransform 2 example_heap 1
             = Some (glm.mul WP (translation 0 0 15)).
Proof.
  destruct (C1_world_transform example_heap 1
              (mkSceneNode (translation 0 0 15) (Some 0) []) eq_refl)
    as (_ & H & _).
  apply (H 0 0 eq_refl); [|lia].
  apply (at_depth_root example_heap 0 (mkSceneNode (translation 1 3 1) None [1]));
    reflexivity.
Defined.

Example example_world_transform :
  getWorldTransform 2 example_heap 1 = Some (translation 1 3 16).
Proof. vm_compute. reflexivity. Qed.

(** Nothing is cached: once the parent has been moved, the next call on the
    child gives the new product. *)
Example example_parent_moved :
  getWorldTransform 2
    (alter (fun n => set_transform n (setTransform (translation 2 0 0) (m_transform n)))
           0 example_heap) 1
  = Some (translation 2 0 15).
Proof. vm_compute. reflexivity. Qed.

(** ** Child lists *)

Section RemoveChild.

Implicit Types (x y : ptr) (l rest : list ptr).

Lemma insert_middle (l1 l2 : list ptr) x y :
  <[length l1 := y]> (l1 ++ x :: l2) = l1 ++ y :: l2.
Proof. induction l1 as [|a l1 IH]; simpl; [reflexivity | by rewrite IH]. Qed.

(** The loop leaves a vector without [x] as it is. *)
Lemma removeChild_loop_absent x l rest i :
  x ∉ rest -> removeChild_loop x l rest i = l.
Proof.
  revert i. induction rest as [|c rest IH]; intros i Hx; simpl; [reflexivity|].
  apply not_elem_of_cons in Hx as [Hne Hx].
  destruct (decide (x = c)); [contradiction|]. by apply IH.
Qed.

(** At the first [x] the loop swaps in the last entry and drops the end. *)
Lemma removeChild_loop_found x l r1 r2 i :
  x ∉ r1 ->
  removeChild_loop x l (r1 ++ x :: r2) i
  = removelast (<[i + length r1 := List.last l x]> l).
Proof.
  revert i. induction r1 as [|c r1 IH]; intros i Hx; simpl.
  - destruct (decide (x = x)); [|contradiction]. by rewrite Nat.add_0_r.
  - apply not_elem_of_cons in Hx as [Hne Hx].
    destruct (decide (x = c)); [contradiction|].
    rewrite IH by assumption. by rewrite Nat.add_succ_r.
Qed.

(** Up to the order of the entries, the first [x] is taken out. *)
Lemma swap_with_last_perm (l1 l2 : list ptr) x :
  removelast (<[length l1 := List.last (l1 ++ x :: l2) x]> (l1 ++ x :: l2))
  ≡ₚ l1 ++ l2.
Proof.
  rewrite insert_middle.
  destruct (decide (l2 = [])) as [->|Hne].
  - rewrite List.last_last, List.removelast_last, app_nil_r. reflexivity.
  - destruct (List.exists_last Hne) as (l2' & z & ->).
    replace (l1 ++ x :: l2' ++ [z]) with ((l1 ++ x :: l2') ++ [z])
      by (by rewrite <- app_assoc).
    rewrite List.last_last.
    replace (l1 ++ z :: l2' ++ [z]) with ((l1 ++ z :: l2') ++ [z])
      by (by rewrite <- app_assoc).
    rewrite List.removelast_last.
    apply Permutation_app_head. apply Permutation_cons_append.
Qed.

Lemma removeChild_loop_perm x l :
  x ∈ l ->
  exists l1 l2, l = l1 ++ x :: l2 /\ (x ∉ l1) /\
                removeChild_loop x l l 0 ≡ₚ l1 ++ l2.
Proof.
  intros Hx. apply list_elem_of_split_l in Hx as (l1 & l2 & -> & Hl1).
  exists l1, l2. split; [reflexivity|]. split; [assumption|].
  rewrite removeChild_loop_found by assumption. simpl.
  apply swap_with_last_perm.
Qed.

Lemma removeChild_loop_subseteq x l y :
  y ∈ removeChild_loop x l l 0 -> y ∈ l.
Proof.
  destruct (decide (x ∈ l)) as [Hx|Hx].
  - destruct (removeChild_loop_perm x l Hx) as (l1 & l2 & Hl & _ & Hp).
    rewrite Hp, Hl. rewrite !elem_of_app, elem_of_cons. tauto.
  - by rewrite removeChild_loop_absent.
Qed.

Lemma removeChild_loop_NoDup x l :
  NoDup l -> NoDup (removeChild_loop x l l 0).
Proof.
  intros Hnd. destruct (decide (x ∈ l)) as [Hx|Hx].
  - destruct (removeChild_loop_perm x l Hx) as (l1 & l2 & Hl & _ & Hp).
    rewrite Hp. rewrite Hl in Hnd.
    apply NoDup_app in Hnd as (H1 & H12 & H2).
    apply NoDup_cons in H2 as [_ H2].
    apply NoDup_app. split; [assumption|]. split; [|assumption].
    intros y Hy Hy2. apply (H12 y Hy). by right.
  - by rewrite removeChild_loop_absent.
Qed.

Lemma removeChild_loop_removed x l :
  NoDup l -> x ∉ removeChild_loop x l l 0.
Proof.
  intros Hnd. destruct (decide (x ∈ l)) as [Hx|Hx].
  - destruct (removeChild_loop_perm x l Hx) as (l1 & l2 & Hl & Hl1 & Hp).
    rewrite Hp. rewrite Hl in Hnd.
    apply NoDup_app in Hnd as (_ & _ & H2).
    apply NoDup_cons in H2 as [H2 _].
    rewrite elem_of_app. tauto.
  - by rewrite removeChild_loop_absent.
Qed.

Lemma removeChild_loop_kept x l y :
  y ∈ l -> y <> x -> y ∈ removeChild_loop x l l 0.
Proof.
  intros Hy Hne. destruct (decide (x ∈ l)) as [Hx|Hx].
  - destruct (removeChild_loop_perm x l Hx) as (l1 & l2 & Hl & _ & Hp).
    rewrite Hp. rewrite Hl in Hy.
    rewrite !elem_of_app, elem_of_cons in Hy. rewrite elem_of_app. tauto.
  - by rewrite removeChild_loop_absent.
Qed.

End RemoveChild.

Section SceneTree.

Implicit Types (h : heap) (this p c : ptr) (n : VESceneNode).

Lemma removeChild_Some this x h n :
  h !! this = Some n ->
  removeChild this x h
  = Some (<[this := set_children n
              (removeChild_loop x (m_children n) (m_children n) 0)]> h).
Proof. intros Hn. unfold removeChild. by rewrite Hn. Qed.

(** Replacing the child list of a node by a part of it without repetition
    keeps the child lists well formed. *)
Lemma shrink_children_wf h this n l :
  tree_wf h -> h !! this = Some n ->
  (forall y, y ∈ l -> y ∈ m_children n) -> NoDup l ->
  tree_wf (<[this := set_children n l]> h).
Proof.
  intros [Hcp Hnd Hpa] Hn Hsub Hl. split.
  - intros p np c Hp Hc.
    assert (exists np0, h !! p = Some np0 /\ c ∈ m_children np0) as (np0 & Hp0 & Hc0).
    { destruct (decide (p = this)) as [->|Hne].
      - rewrite lookup_insert_eq in Hp. injection Hp as <-. eauto.
      - rewrite lookup_insert_ne in Hp by done. eauto. }
    destruct (Hcp p np0 c Hp0 Hc0) as (cn & Hcn & Hpar).
    destruct (decide (c = this)) as [->|Hne].
    + rewrite Hn in Hcn. injection Hcn as <-.
      exists (set_children n l). by rewrite lookup_insert_eq.
    + exists cn. by rewrite lookup_insert_ne.
  - intros p np Hp.
    destruct (decide (p = this)) as [->|Hne].
    + rewrite lookup_insert_eq in Hp. by injection Hp as <-.
    + rewrite lookup_insert_ne in Hp by done. eauto.
  - intros c cn p Hc Hpar.
    assert (exists cn0, h !! c = Some cn0 /\ m_parent cn0 = Some p) as (cn0 & Hc0 & Hp0).
    { destruct (decide (c = this)) as [->|Hne].
      - rewrite lookup_insert_eq in Hc. injection Hc as <-. eauto.
      - rewrite lookup_insert_ne in Hc by done. eauto. }
    destruct (Hpa c cn0 p Hc0 Hp0) as [pn Hpn].
    destruct (decide (p = this)) as [->|Hne].
    + rewrite lookup_insert_eq. eauto.
    + rewrite lookup_insert_ne by done. eauto.
Qed.


(** After [p->removeChild(x)] for the parent [p] that [x] names, [x] is in
    no child list. *)
Lemma detached_after_removeChild h x o p n :
  tree_wf h -> h !! x = Some o -> m_parent o = Some p -> h !! p = Some n ->
  forall q nq,
    <[p := set_children n
             (removeChild_loop x (m_children n) (m_children n) 0)]> h !! q = Some nq ->
    x ∉ m_children nq.
Proof.
  intros Hwf Hx Hpar Hp q nq Hq.
  destruct (decide (q = p)) as [->|Hne].
  - rewrite lookup_insert_eq in Hq. injection Hq as <-. simpl.
    apply removeChild_loop_removed. by apply (wf_nodup h Hwf p).
  - rewrite lookup_insert_ne in Hq by done.
    intros Hin. destruct (wf_child_parent h Hwf q nq x Hq Hin) as (cn & Hcn & Hpq).
    congruence.
Qed.

Lemma orphan_in_no_list h x o :
  tree_wf h -> h !! x = Some o -> m_parent o = None ->
  forall q nq, h !! q = Some nq -> x ∉ m_children nq.
Proof.
  intros Hwf Hx Hpar q nq Hq Hin.
  destruct (wf_child_parent h Hwf q nq x Hq Hin) as (cn & Hcn & Hpq). congruence.
Qed.

(** The second half of [addChild]: on a heap where [x] is in no child list,
    naming [this] as the parent of [x] and appending [x] to the children of
    [this] keeps the child lists well formed. *)
Lemma attach_wf h this x o t :
  tree_wf h -> h !! x = Some o ->
  (forall q nq, h !! q = Some nq -> x ∉ m_children nq) ->
  <[x := set_parent o (Some this)]> h !! this = Some t ->
  tree_wf (<[this := set_children t (m_children t ++ [x])]>
             (<[x := set_parent o (Some this)]> h)).
Proof.
  intros [Hcp Hnd Hpa] Hx Hfree Ht.
  assert (exists t0, h !! this = Some t0 /\ m_children t = m_children t0
                     /\ (this <> x -> t = t0)) as (t0 & Ht0 & Hch & Hsame).
  { destruct (decide (x = this)) as [->|Hne].
    - rewrite lookup_insert_eq in Ht. injection Ht as <-. exists o. by intuition.
    - rewrite lookup_insert_ne in Ht by done. exists t. by intuition. }
  assert (m_parent (set_children t (m_children t ++ [x])) = m_parent t) as Hpt
    by reflexivity.
  assert (x = this -> m_parent t = Some this) as Hself.
  { intros ->. rewrite lookup_insert_eq in Ht. by injection Ht as <-. }
  (* the node stored at [q] in the new heap, in terms of the old one *)
  assert (forall q nq,
    <[this := set_children t (m_children t ++ [x])]>
      (<[x := set_parent o (Some this)]> h) !! q = Some nq ->
    exists nq0, h !! q = Some nq0 /\
      (m_children nq = if decide (q = this) then m_children nq0 ++ [x]
                       else m_children nq0) /\
      (m_parent nq = if decide (q = x) then Some this else m_parent nq0)) as Hnode.
  { intros q nq Hq. destruct (decide (q = this)) as [->|Hqt].
    - rewrite lookup_insert_eq in Hq. injection Hq as <-.
      exists t0. split; [assumption|]. simpl. split; [by rewrite Hch|].
      destruct (decide (this = x)) as [->|Hne]; [by apply Hself|].
      by rewrite (Hsame Hne).
    - rewrite lookup_insert_ne in Hq by done.
      destruct (decide (q = x)) as [->|Hqx].
      + rewrite lookup_insert_eq in Hq. injection Hq as <-. exists o. by intuition.
      + rewrite lookup_insert_ne in Hq by done. exists nq. by intuition. }
  assert (forall q nq0, h !! q = Some nq0 ->
    exists nq,
    <[this := set_children t (m_children t ++ [x])]>
      (<[x := set_parent o (Some this)]> h) !! q = Some nq) as Halive.
  { intros q nq0 Hq. destruct (decide (q = this)) as [->|Hqt].
    - rewrite lookup_insert_eq. eauto.
    - rewrite lookup_insert_ne by done. destruct (decide (q = x)) as [->|Hqx].
      + rewrite lookup_insert_eq. eauto.
      + rewrite lookup_insert_ne by done. eauto. }
  split.
  - intros p np c Hp Hc.
    destruct (Hnode p np Hp) as (np0 & Hp0 & Hchp & _).
    rewrite Hchp in Hc.
    assert (c = x /\ p = this \/ c ∈ m_children np0) as [[-> ->]|Hc0].
    { destruct (decide (p = this)); [|by right].
      apply elem_of_app in Hc as [Hc|Hc]; [by right|].
      apply list_elem_of_singleton in Hc. by left. }
    + destruct (Halive x o Hx) as [nx Hnx]. exists nx. split; [assumption|].
      destruct (Hnode x nx Hnx) as (? & _ & _ & Hparx).
      rewrite Hparx. by destruct (decide (x = x)).
    + assert (c <> x) as Hcx by (intros ->; by apply (Hfree p np0 Hp0)).
      destruct (Hcp p np0 c Hp0 Hc0) as (cn0 & Hcn0 & Hparc).
      destruct (Halive c cn0 Hcn0) as [cn Hcn]. exists cn. split; [assumption|].
      destruct (Hnode c cn Hcn) as (cn1 & Hcn1 & _ & Hparc1).
      rewrite Hparc1. destruct (decide (c = x)); [contradiction|]. congruence.
  - intros p np Hp.
    destruct (Hnode p np Hp) as (np0 & Hp0 & Hchp & _). rewrite Hchp.
    destruct (decide (p = this)) as [->|]; [|by eauto].
    apply NoDup_app. split; [by eauto|]. split; [|apply NoDup_singleton].
    intros y Hy Hy'. apply list_elem_of_singleton in Hy' as ->.
    by apply (Hfree this np0 Hp0).
  - intros c cn p Hc Hpar.
    destruct (Hnode c cn Hc) as (cn0 & Hcn0 & _ & Hparc).
    rewrite Hparc in Hpar.
    destruct (decide (c = x)) as [->|Hcx].
    + injection Hpar as <-. destruct (Halive this t0 Ht0) as [? ->]. eauto.
    + destruct (Hpa c cn0 p Hcn0 Hpar) as [pn0 Hpn0].
      destruct (Halive p pn0 Hpn0) as [? ->]. eauto.
Qed.

Lemma children_of_lookup h p n : h !! p = Some n -> children_of h p = m_children n.
Proof. intros Hp. unfold children_of. by rewrite Hp. Qed.

(** [addChild], step by step: the heap [h1] after the call of [removeChild]
    on the old parent (or [h] for a node without parent), and the final
    heap. *)
Lemma addChild_steps this x h o :
  tree_wf h -> is_Some (h !! this) -> h !! x = Some o ->
  exists h1 o1 t,
    h1 = match m_parent o with
         | Some p => <[p := set_children (default o (h !! p))
                         (removeChild_loop x (children_of h p) (children_of h p) 0)]> h
         | None => h
         end /\
    h1 !! x = Some o1 /\ m_parent o1 = m_parent o /\
    <[x := set_parent o1 (Some this)]> h1 !! this = Some t /\
    tree_wf h1 /\ dom h1 = dom h /\
    (forall q nq, h1 !! q = Some nq -> x ∉ m_children nq) /\
    addChild this x h
    = Some (<[this := set_children t (m_children t ++ [x])]>
              (<[x := set_parent o1 (Some this)]> h1)).
Proof.
  intros Hwf [t0 Ht0] Hx.
  destruct (m_parent o) as [p|] eqn:Hpar.
  - destruct (wf_parent_alive h Hwf x o p Hx Hpar) as [n Hp].
    set (rc := removeChild_loop x (m_children n) (m_children n) 0).
    set (h1 := <[p := set_children n rc]> h).
    assert (tree_wf h1) as Hwf1.
    { apply shrink_children_wf; try assumption.
      - intros y. apply removeChild_loop_subseteq.
      - apply removeChild_loop_NoDup. by apply (wf_nodup h Hwf p). }
    assert (exists o1, h1 !! x = Some o1 /\ m_parent o1 = Some p) as (o1 & Ho1 & Hpar1).
    { subst h1. destruct (decide (x = p)) as [->|Hne].
      - rewrite lookup_insert_eq. eexists. split; [reflexivity|]. simpl. congruence.
      - rewrite lookup_insert_ne by done. eauto. }
    assert (exists t, <[x := set_parent o1 (Some this)]> h1 !! this = Some t) as [t Ht].
    { destruct (decide (this = x)) as [->|Hne].
      - rewrite lookup_insert_eq. eauto.
      - rewrite lookup_insert_ne by done. subst h1.
        destruct (decide (this = p)) as [->|Hne'].
        + rewrite lookup_insert_eq. eauto.
        + rewrite lookup_insert_ne by done. eauto. }
    exists h1, o1, t.
    rewrite (children_of_lookup h p n Hp), Hp. simpl.
    split; [reflexivity|]. split; [assumption|]. split; [assumption|].
    split; [assumption|]. split; [assumption|].
    split; [subst h1; apply dom_insert_lookup_L; eauto|].
    split; [subst h1 rc; by apply (detached_after_removeChild h x o p n)|].
    unfold addChild. rewrite Hx. simpl. rewrite Hpar.
    rewrite (removeChild_Some p x h n Hp). simpl.
    fold rc. fold h1. rewrite Ho1. simpl. rewrite Ht. reflexivity.
  - assert (exists t, <[x := set_parent o (Some this)]> h !! this = Some t) as [t Ht].
    { destruct (decide (this = x)) as [->|Hne].
      - rewrite lookup_insert_eq. eauto.
      - rewrite lookup_insert_ne by done. eauto. }
    exists h, o, t.
    split; [reflexivity|]. split; [assumption|]. split; [assumption|].
    split; [assumption|]. split; [assumption|]. split; [reflexivity|].
    split; [by apply (orphan_in_no_list h x o)|].
    unfold addChild. rewrite Hx. simpl. rewrite Hpar. simpl.
    rewrite Hx. simpl. rewrite Ht. reflexivity.
Qed.

Lemma addChild_wf this x h :
  tree_wf h -> is_Some (h !! this) -> is_Some (h !! x) ->
  exists h', addChild this x h = Some h' /\ tree_wf h' /\ dom h' = dom h.
Proof.
  intros Hwf Hthis [o Hx].
  destruct (addChild_steps this x h o Hwf Hthis Hx)
    as (h1 & o1 & t & _ & Ho1 & _ & Ht & Hwf1 & Hdom1 & Hfree & ->).
  eexists. split; [reflexivity|]. split.
  - by apply attach_wf.
  - rewrite dom_insert_lookup_L.
    + rewrite dom_insert_lookup_L; [assumption | eauto].
    + eauto.
Qed.




(** In a well-formed heap a node is in the child list of one node at most,
    the one that its [m_parent] names. *)
Lemma child_of_parent h c p :
  tree_wf h -> child_of h c p ->
  exists cn, h !! c = Some cn /\ m_parent cn = Some p.
Proof. intros Hwf (n & Hp & Hc). by apply (wf_child_parent h Hwf p n c). Qed.

Lemma child_of_unique h c p1 p2 :
  tree_wf h -> child_of h c p1 -> child_of h c p2 -> p1 = p2.
Proof.
  intros Hwf H1 H2.
  destruct (child_of_parent h c p1 Hwf H1) as (cn1 & Hc1 & Hp1).
  destruct (child_of_parent h c p2 Hwf H2) as (cn2 & Hc2 & Hp2).
  congruence.
Qed.

(** What [B->addChild(N)] does to a node [N] with parent [A]. *)
Lemma addChild_reparent h A B N o :
  tree_wf h -> h !! N = Some o -> m_parent o = Some A -> is_Some (h !! B) ->
  exists h' o',
    addChild B N h = Some h' /\
    h' !! N = Some o' /\ m_parent o' = Some B /\
    (A <> B -> N ∉ children_of h' A) /\
    children_of h' B
    = (if decide (A = B)
       then removeChild_loop N (children_of h B) (children_of h B) 0
       else children_of h B) ++ [N].
Proof.
  intros Hwf HN Hpar HB.
  destruct (addChild_steps B N h o Hwf HB HN)
    as (h1 & o1 & t & Hh1 & Ho1 & Hpar1 & Ht & Hwf1 & Hdom1 & Hfree & Hadd).
  rewrite Hpar in Hh1.
  set (h' := <[B := set_children t (m_children t ++ [N])]>
               (<[N := set_parent o1 (Some B)]> h1)) in *.
  assert (tree_wf h') as Hwf' by (by apply attach_wf).
  assert (h' !! B = Some (set_children t (m_children t ++ [N]))) as HB'
    by (subst h'; by rewrite lookup_insert_eq).
  assert (child_of h' N B) as HNB.
  { eexists. split; [exact HB'|]. simpl. apply elem_of_app. right. by left. }
  destruct (child_of_parent h' N B Hwf' HNB) as (o' & Ho' & Hpar').
  exists h', o'. split; [exact Hadd|]. split; [assumption|]. split; [assumption|].
  split.
  - intros Hne Hin. apply Hne. apply (child_of_unique h' N A B Hwf'); [|assumption].
    unfold children_of in Hin. destruct (h' !! A) as [nA|] eqn:HA.
    + by exists nA.
    + by apply elem_of_nil in Hin.
  - rewrite (children_of_lookup h' B _ HB'). simpl. f_equal.
    (* the children of [t] are those of [B] after the removal *)
    assert (m_children t = children_of h1 B) as ->.
    { destruct (decide (N = B)) as [->|Hne].
      - rewrite lookup_insert_eq in Ht. injection Ht as <-. simpl.
        by rewrite (children_of_lookup h1 B o1 Ho1).
      - rewrite lookup_insert_ne in Ht by done.
        by rewrite (children_of_lookup h1 B t Ht). }
    destruct (wf_parent_alive h Hwf N o A HN Hpar) as [nA HA].
    rewrite Hh1. destruct (decide (A = B)) as [->|Hne].
    + unfold children_of at 1. by rewrite lookup_insert_eq.
    + unfold children_of at 1. rewrite lookup_insert_ne by done. reflexivity.
Qed.

End SceneTree.


Lemma tree_wfb_correct (h : heap) : tree_wfb h = true -> tree_wf h.
Proof.
  unfold tree_wfb. intros Hb. apply bool_decide_eq_true in Hb.
  split.
  - intros p n c Hp Hc.
    destruct (Hb p n Hp) as (Hall & _ & _).
    rewrite Forall_forall in Hall. specialize (Hall c Hc).
    destruct (h !! c) as [cn|]; simpl in Hall; [|discriminate].
    exists cn. split; [reflexivity|]. congruence.
  - intros p n Hp. by destruct (Hb p n Hp) as (_ & Hnd & _).
  - intros c cn p Hc Hpar.
    destruct (Hb c cn Hc) as (_ & _ & Hal). by rewrite Hpar in Hal.
Qed.


(** ** Shadow cameras *)

Section ShadowCameras.

Context `{Libm} `{CameraDefaults}.

(** The loop over the shadow cameras runs to the end when each turn does,
    and relates each camera to its successor. *)
Lemma update_loop_spec (step : nat -> Camera -> option Camera)
  (P : nat -> Camera -> Camera -> Prop) (cams : list Camera) :
  forall i,
  (forall k cam, cams !! k = Some cam ->
     exists cam', step (i + k) cam = Some cam' /\ P (i + k) cam cam') ->
  exists cams', update_loop step i cams = Some cams' /\
    length cams' = length cams /\
    forall k cam', cams' !! k = Some cam' ->
      exists cam, cams !! k = Some cam /\ step (i + k) cam = Some cam' /\
                  P (i + k) cam cam'.
Proof.
  induction cams as [|cam cams IH]; intros i Hstep; simpl.
  - exists []. split; [reflexivity|]. split; [reflexivity|].
    intros k cam' Hk. discriminate.
  - destruct (Hstep 0 cam eq_refl) as (cam' & Hcam' & HP).
    rewrite Nat.add_0_r in Hcam', HP. rewrite Hcam'. simpl.
    destruct (IH (S i)) as (cams' & -> & Hlen & Hall).
    { intros k c Hk. destruct (Hstep (S k) c Hk) as (c' & Hc' & HP').
      rewrite Nat.add_succ_r in Hc', HP'. eauto. }
    simpl. exists (cam' :: cams'). split; [reflexivity|].
    split; [simpl; congruence|].
    intros [|k] c' Hk; simpl in Hk.
    + injection Hk as <-. exists cam. rewrite Nat.add_0_r. auto.
    + destruct (Hall k c' Hk) as (c & Hc & Hs & HP').
      exists c. rewrite Nat.add_succ_r. auto.
Qed.

Lemma getFrustumPoints_cons W (c : Camera) z0 z1 :
  exists p0 rest, getFrustumPoints W c z0 z1 = p0 :: rest.
Proof. destruct c; unfold getFrustumPoints, interpolate_points; eauto. Qed.

(** A turn of the directional loop on an orthographic camera with index
    below 4 succeeds and stores the two limits. *)
Lemma directional_step_fractions W Wcam pCamera i o t0 t1 :
  limits !! i = Some t0 -> limits !! S i = Some t1 ->
  exists o', directional_step W Wcam pCamera i (CameraOrtho o) = Some (CameraOrtho o') /\
             fractions (CameraOrtho o') = (t0, t1).
Proof.
  intros Ht0 Ht1. unfold directional_step. rewrite Ht0, Ht1.
  destruct (getFrustumPoints_cons Wcam pCamera t0 t1) as (p0 & rest & Hpts).
  cbn [mbind option_bind]. rewrite Hpts. unfold getOBB. cbn [mbind option_bind].
  eexists. split; reflexivity.
Qed.

Lemma VEDirectionalLight_inv : directional_inv VEDirectionalLight.
Proof.
  split; [reflexivity|]. split; [reflexivity|].
  repeat constructor.
Qed.

Lemma limits_lookup k :
  k < 4 -> exists t0 t1, limits !! k = Some t0 /\ limits !! S k = Some t1.
Proof.
  intros Hk. destruct k as [|[|[|[|k]]]]; [..|lia]; cbn; eauto.
Qed.

Lemma directional_update W Wcam pCamera l :
  directional_inv l ->
  exists l', updateShadowCameras W Wcam pCamera l = Some l' /\
    directional_inv l' /\
    map fractions (m_shadowCameras l') = zip limits (drop 1 limits).
Proof.
  intros (Hty & Hlen & Hortho).
  destruct (update_loop_spec (directional_step W Wcam pCamera)
              (fun k _ cam' => is_ortho cam' = true /\
                 forall t0 t1, limits !! k = Some t0 -> limits !! S k = Some t1 ->
                               fractions cam' = (t0, t1))
              (m_shadowCameras l) 0)
    as (cams' & Hloop & Hlen' & Hall).
  { intros k cam Hk. change (0 + k) with k.
    assert (k < 4) as Hk4 by (rewrite <- Hlen; by apply (lookup_lt_Some _ _ cam)).
    rewrite Forall_forall in Hortho.
    assert (is_ortho cam = true) as Hcam
      by (apply Hortho; by apply (list_elem_of_lookup_2 _ k)).
    destruct cam as [p|o]; [discriminate|].
    destruct (limits_lookup k Hk4) as (t0 & t1 & Ht0 & Ht1).
    destruct (directional_step_fractions W Wcam pCamera k o t0 t1 Ht0 Ht1)
      as (o' & Hstep & Hfr).
    exists (CameraOrtho o'). split; [assumption|]. split; [reflexivity|].
    intros t0' t1' Ht0' Ht1'. congruence. }
  unfold updateShadowCameras. rewrite Hty, Hloop. cbn [mbind option_bind].
  eexists. split; [reflexivity|].
  rewrite Hlen in Hlen'.
  assert (forall k cam', cams' !! k = Some cam' ->
            is_ortho cam' = true /\
            forall t0 t1, limits !! k = Some t0 -> limits !! S k = Some t1 ->
                          fractions cam' = (t0, t1)) as Hall'.
  { intros k cam' Hk. destruct (Hall k cam' Hk) as (_ & _ & _ & HP). exact HP. }
  clear Hall Hloop.
  destruct cams' as [|a0 [|a1 [|a2 [|a3 [|a4 cams']]]]]; try discriminate.
  destruct (Hall' 0 a0 eq_refl) as [Ho0 Hf0].
  destruct (Hall' 1 a1 eq_refl) as [Ho1 Hf1].
  destruct (Hall' 2 a2 eq_refl) as [Ho2 Hf2].
  destruct (Hall' 3 a3 eq_refl) as [Ho3 Hf3].
  split.
  - split; [reflexivity|]. split; [reflexivity|]. simpl.
    repeat constructor; assumption.
  - cbn [map m_shadowCameras].
    rewrite (Hf0 _ _ eq_refl eq_refl), (Hf1 _ _ eq_refl eq_refl),
            (Hf2 _ _ eq_refl eq_refl), (Hf3 _ _ eq_refl eq_refl).
    reflexivity.
Qed.

Lemma run_light_ops_app os1 os2 l :
  run_light_ops (os1 ++ os2) l = run_light_ops os1 l ≫= run_light_ops os2.
Proof.
  revert l. induction os1 as [|o os1 IH]; intros l; simpl; [reflexivity|].
  destruct (run_light_op o l) as [l'|]; simpl; [apply IH | reflexivity].
Qed.

Lemma directional_run os l :
  directional_inv l ->
  exists l', run_light_ops os l = Some l' /\ directional_inv l'.
Proof.
  revert l. induction os as [|o os IH]; intros l Hinv; simpl; [eauto|].
  destruct o as [param | W Wcam pCamera]; simpl.
  - apply IH. exact Hinv.
  - destruct (directional_update W Wcam pCamera l Hinv) as (l1 & -> & Hinv1 & _).
    simpl. by apply IH.
Qed.

(** C3.  A directional light has four shadow cameras from its constructor
    on, whatever is done to it; and each call of [updateShadowCameras], for
    any viewer camera, leaves in the [i]-th of them the pair
    [(limits[i], limits[i+1])] of the list 0, 0.05, 0.15, 0.50, 1.  The four
    pairs start at 0, end at 1, and each begins where the one before ends. *)
Theorem C3_directional_cascades :
  (forall os, exists l,
     run_light_ops os VEDirectionalLight = Some l /\
     length (m_shadowCameras l) = 4) /\
  (forall os W Wcam pCamera, exists l,
     run_light_ops (os ++ [UpdateShadowCameras W Wcam pCamera]) VEDirectionalLight
     = Some l /\
     length (m_shadowCameras l) = 4 /\
     map fractions (m_shadowCameras l) = zip limits (drop 1 limits)) /\
  length (zip limits (drop 1 limits)) = 4 /\
  covers_unit_interval (zip limits (drop 1 limits)) = true.
Proof.
  split; [|split; [|split]].
  - intros os.
    destruct (directional_run os _ VEDirectionalLight_inv) as (l & Hrun & _ & Hlen & _).
    eauto.
  - intros os W Wcam pCamera. rewrite run_light_ops_app.
    destruct (directional_run os _ VEDirectionalLight_inv) as (l & -> & Hinv).
    simpl.
    destruct (directional_update W Wcam pCamera l Hinv) as (l' & -> & Hinv' & Hfr).
    simpl. exists l'. split; [reflexivity|]. split; [apply Hinv' | exact Hfr].
  - reflexivity.
  - vm_compute. reflexivity.
Qed.

(** [lookAt] assigns all four columns: the transform before the call does
    not matter. *)
Lemma lookAt_overwrites eye point u m m' :
  lookAt eye point u m = lookAt eye point u m'.
Proof. reflexivity. Qed.

Lemma VEPointLight_inv : point_inv VEPointLight.
Proof.
  split; [reflexivity|]. split; [reflexivity|].
  repeat constructor.
Qed.

Lemma axis_lookup k :
  k < 6 -> exists zi ui, zaxis !! k = Some zi /\ up !! k = Some ui.
Proof.
  intros Hk. destruct k as [|[|[|[|[|[|k]]]]]]; [..|lia]; cbn; eauto.
Qed.

Lemma point_update W Wcam pCamera l :
  point_inv l ->
  exists l', updateShadowCameras W Wcam pCamera l = Some l' /\
    point_inv l' /\ m_param l' = m_param l /\
    forall i cam, m_shadowCameras l' !! i = Some cam ->
                  point_camera W (x4 (m_param l)) i cam.
Proof.
  intros (Hty & Hlen & Hproj).
  destruct (update_loop_spec
              (point_step (F32.lit 1 10) (x4 (m_param l))
                          (Vec3 (x4 (c3 W)) (y4 (c3 W)) (z4 (c3 W))))
              (fun k _ cam' => point_camera W (x4 (m_param l)) k cam')
              (m_shadowCameras l) 0)
    as (cams' & Hloop & Hlen' & Hall).
  { intros k cam Hk. change (0 + k) with k.
    assert (k < 6) as Hk6 by (rewrite <- Hlen; by apply (lookup_lt_Some _ _ cam)).
    rewrite Forall_forall in Hproj.
    assert (is_projective cam = true) as Hcam
      by (apply Hproj; by apply (list_elem_of_lookup_2 _ k)).
    destruct cam as [p|o]; [|discriminate].
    destruct (axis_lookup k Hk6) as (zi & ui & Hzi & Hui).
    unfold point_step. rewrite Hzi, Hui. cbn [mbind option_bind].
    eexists. split; [reflexivity|].
    eexists _, zi, ui. split; [reflexivity|].
    split; [assumption|]. split; [assumption|].
    split; [reflexivity|]. split; [reflexivity|]. split; [reflexivity|].
    split; [reflexivity|]. reflexivity. }
  unfold updateShadowCameras. rewrite Hty. cbn zeta. rewrite Hloop.
  cbn [mbind option_bind].
  eexists. split; [reflexivity|].
  assert (forall k cam', cams' !! k = Some cam' ->
            point_camera W (x4 (m_param l)) k cam') as Hall'.
  { intros k cam' Hk. destruct (Hall k cam' Hk) as (_ & _ & _ & HP). exact HP. }
  split; [|split; [reflexivity | exact Hall']].
  split; [reflexivity|]. split; [simpl; congruence|]. simpl.
  apply Forall_forall. intros cam' Hin.
  apply list_elem_of_lookup_1 in Hin as [k Hk].
  destruct (Hall' k cam' Hk) as (p & _ & _ & -> & _). reflexivity.
Qed.

Lemma point_run os l :
  point_inv l ->
  exists l', run_light_ops os l = Some l' /\ point_inv l'.
Proof.
  revert l. induction os as [|o os IH]; intros l Hinv; simpl; [eauto|].
  destruct o as [param | W Wcam pCamera]; simpl.
  - apply IH. exact Hinv.
  - destruct (point_update W Wcam pCamera l Hinv) as (l1 & -> & Hinv1 & _).
    simpl. by apply IH.
Qed.

(** C5.  What the code does for a point light: six shadow cameras from the
    constructor on; after [updateShadowCameras] each is projective with
    aspect ratio 1, near plane 0.1, far plane 0.1 + [m_param[0]] and the
    transform that [lookAt] builds from the world position of the light
    along [zaxis[i]] with [up[i]].  The field of view written is 91 degrees,
    which is not 90. *)
Theorem C5_point_light_fov_is_91 :
  (forall os, exists l,
     run_light_ops os VEPointLight = Some l /\
     length (m_shadowCameras l) = 6) /\
  (forall os W Wcam pCamera, exists l,
     run_light_ops (os ++ [UpdateShadowCameras W Wcam pCamera]) VEPointLight
     = Some l /\
     length (m_shadowCameras l) = 6 /\
     forall i cam, m_shadowCameras l !! i = Some cam ->
                   point_camera W (x4 (m_param l)) i cam) /\
  F32.eqb (F32.of_Z 91) (F32.of_Z 90) = false.
Proof.
  split; [|split].
  - intros os.
    destruct (point_run os _ VEPointLight_inv) as (l & Hrun & _ & Hlen & _).
    eauto.
  - intros os W Wcam pCamera. rewrite run_light_ops_app.
    destruct (point_run os _ VEPointLight_inv) as (l & -> & Hinv).
    simpl.
    destruct (point_update W Wcam pCamera l Hinv) as (l' & -> & Hinv' & Hpar & Hcams).
    simpl. exists l'. split; [reflexivity|]. split; [apply Hinv'|].
    rewrite Hpar. exact Hcams.
  - vm_compute. reflexivity.
Qed.

End ShadowCameras.

(** ** Bounding spheres *)

(** C6.  What the constructors compute is the largest absolute coordinate,
    not the largest distance: for the one vertex (3, 4, 0) the radius is 4,
    the distance of the vertex from the origin is 5, and the vertex is
    outside the sphere. *)
Theorem C6_radius_is_largest_coordinate :
  let v := vertex_at 3 4 0 in
  m_boundingSphereRadius (VEMesh_of_vertices [v]) = F32.of_Z 4 /\
  m_boundingSphereRadius (VEMesh_of_aiMesh [pos v]) = F32.of_Z 4 /\
  distance_from_origin (pos v) = F32.of_Z 5 /\
  F32.ltb (m_boundingSphereRadius (VEMesh_of_vertices [v]))
          (distance_from_origin (pos v)) = true.
Proof. vm_compute. repeat split; reflexivity. Qed.

(** ** Projection *)

(** C7.  For the projective camera with near plane 0.1, far plane 500,
    aspect ratio 16/9 and field of view 45 degrees, the matrix of
    [getProjectionMatrix] sends the centre of the near plane to depth 0 and
    the centre of the far plane to depth 1, in binary32 arithmetic and
    whatever the values of the sine and cosine are. *)
Theorem C7_projection_depth `{Libm} :
  let c := camera_16_9 in
  let pm := (getProjectionMatrix c).1 in
  ndc_depth pm (Vec4 F32.zero F32.zero (m_nearPlane (proj_base c)) F32.one) = F32.zero /\
  ndc_depth pm (Vec4 F32.zero F32.zero (m_farPlane (proj_base c)) F32.one) = F32.one.
Proof. vm_compute. split; reflexivity. Qed.

(** ** lookAt *)

(** C8.  [lookAt] with the eye at the origin, looking at (1, 1, 1) with the
    up vector (1, 1, 1), and looking at (1, -1, 0) with the up vector
    (1, -1, 0): the eye is not the point and the up vector is not zero, the
    view direction is parallel to the up vector, and the matrix has NaN
    entries.  In the first call the replacement for the up vector is
    parallel to the view direction again; in the second the sum of the
    components is 0 and the replacement is the normalised zero vector. *)
Theorem C8_lookAt_nan (m : mat4) :
  mat4_has_nan (lookAt (vec3_of_Z 0 0 0) (vec3_of_Z 1 1 1) (vec3_of_Z 1 1 1) m) = true /\
  mat4_has_nan (lookAt (vec3_of_Z 0 0 0) (vec3_of_Z 1 (-1) 0) (vec3_of_Z 1 (-1) 0) m) = true.
Proof. vm_compute. split; reflexivity. Qed.

(** The calls of the standard scene have no NaN, and neither has a view
    direction along the up vector (0, 1, 0), where the replacement works. *)
Example lookAt_standard_camera :
  lookAt (vec3_of_Z 0 0 0) (vec3_of_Z 0 0 1) (vec3_of_Z 0 1 0) (translation 1 3 1)
  = glm.identity.
Proof. vm_compute. reflexivity. Qed.

Example lookAt_without_nan (m : mat4) :
  mat4_has_nan (lookAt (vec3_of_Z 0 20 (-20)) (vec3_of_Z 0 0 0) (vec3_of_Z 0 1 0) m) = false /\
  mat4_has_nan (lookAt (vec3_of_Z 0 0 0) (vec3_of_Z 0 1 0) (vec3_of_Z 0 1 0) m) = false.
Proof. vm_compute. split; reflexivity. Qed.

(** ** The recorded command buffer *)

Section Recording.

Variable sm : VESceneManager.
Variable subs : list VESubrender.
Variable idx : nat.

Lemma record_shadow_passes_spec pLight n i cmds :
  record_shadow_passes idx pLight n i cmds
  = cmds ++ flat_map (shadow_pass idx pLight) (seq i n).
Proof.
  revert i cmds. induction n as [|n IH]; intros i cmds; simpl.
  - by rewrite app_nil_r.
  - rewrite IH. by rewrite <- !app_assoc.
Qed.

Lemma record_subrenderers_spec i pCamera pLight l cmds :
  record_subrenderers idx i pCamera pLight l cmds
  = cmds ++ flat_map (fun pSub =>
      if bool_decide (i = 0) || bool_decide (getClass pSub = VE_SUBRENDERER_CLASS_OBJECT)
      then [prepareDraw pSub; draw pSub idx i (scene_camera pCamera) pLight]
      else []) l.
Proof.
  revert cmds. induction l as [|pSub l IH]; intros cmds; simpl.
  - by rewrite app_nil_r.
  - rewrite IH.
    destruct (bool_decide (i = 0)
              || bool_decide (getClass pSub = VE_SUBRENDERER_CLASS_OBJECT));
      by rewrite <- ?app_assoc.
Qed.

(** The outer loop appends one round per light; the clear values of the
    light pass are those of the first turn only. *)
Lemma record_lights_spec lights i cmds cv :
  cv = (if bool_decide (i = 0) then clearValuesLight_init else []) ->
  (record_lights sm subs idx lights i (cmds, cv)).1
  = cmds ++ concat (imap (fun k => light_round sm subs idx (i + k)) lights).
Proof.
  revert i cmds cv. induction lights as [|pLight lights IH]; intros i cmds cv Hcv.
  - simpl. by rewrite app_nil_r.
  - cbn [record_lights]. rewrite (IH (S i)).
    + rewrite record_subrenderers_spec, record_shadow_passes_spec.
      cbn [imap concat]. rewrite Nat.add_0_r.
      unfold light_round at 2, light_pass, shadow_passes. subst cv.
      rewrite <- !app_assoc.
      assert (imap ((fun k => light_round sm subs idx (i + k)) ∘ S) lights
              = imap (fun k => light_round sm subs idx (S i + k)) lights) as ->.
      { apply imap_ext. intros k x _. simpl. by rewrite Nat.add_succ_r. }
      reflexivity.
    + reflexivity.
Qed.

Lemma recordCmdBuffers_rounds :
  recordCmdBuffers sm subs idx
  = [vhCmdBeginCommandBuffer]
    ++ concat (imap (light_round sm subs idx) (m_lights sm))
    ++ [vkEndCommandBuffer].
Proof.
  unfold recordCmdBuffers.
  pose proof (record_lights_spec (m_lights sm) 0 [vhCmdBeginCommandBuffer]
                clearValuesLight_init eq_refl) as Hspec.
  destruct (record_lights sm subs idx (m_lights sm) 0
              ([vhCmdBeginCommandBuffer], clearValuesLight_init)) as [cmds cv].
  simpl in Hspec. rewrite Hspec. reflexivity.
Qed.

(** C4.  The command buffer of [recordCmdBuffers] is one round per active
    light, in the order of the list; the round of a light is its shadow
    passes, one per shadow camera and each begun on the shadow render pass
    with the shadow clear value, and after them its light pass; the light
    pass is begun on the clearing render pass for the light of index 0 and
    on the loading render pass for every other light.  A shadow pass and a
    light pass each begin one render pass, and the shadow and the clearing
    render pass are created with the load operation clear. *)
Theorem C4_shadow_passes_before_light_pass :
  recordCmdBuffers sm subs idx
  = [vhCmdBeginCommandBuffer]
    ++ concat (imap (fun i pLight =>
                 flat_map (shadow_pass idx pLight)
                          (seq 0 (length (m_shadowCameras (light_at sm pLight))))
                 ++ light_pass sm subs idx i pLight) (m_lights sm))
    ++ [vkEndCommandBuffer] /\
  (forall pLight j,
     omap render_pass_of (shadow_pass idx pLight j) = [m_renderPassShadow]) /\
  (forall i pLight,
     omap render_pass_of (light_pass sm subs idx i pLight)
     = [if bool_decide (i = 0) then m_renderPassClear else m_renderPassLoad]) /\
  loadOp m_renderPassShadow = VK_ATTACHMENT_LOAD_OP_CLEAR /\
  loadOp m_renderPassClear = VK_ATTACHMENT_LOAD_OP_CLEAR /\
  loadOp m_renderPassLoad = VK_ATTACHMENT_LOAD_OP_LOAD.
Proof.
  split; [exact recordCmdBuffers_rounds|].
  split; [reflexivity|]. split; [|by repeat split].
  intros i pLight. unfold light_pass. rewrite !omap_app. cbn [omap render_pass_of].
  assert (omap render_pass_of
            (flat_map (fun pSub =>
               if bool_decide (i = 0)
                  || bool_decide (getClass pSub = VE_SUBRENDERER_CLASS_OBJECT)
               then [prepareDraw pSub;
                     draw pSub idx i (scene_camera (getCamera sm)) pLight]
               else []) subs) = []) as ->.
  { induction subs as [|pSub l IH]; [reflexivity|].
    cbn [flat_map]. rewrite omap_app, IH, app_nil_r.
    by destruct (bool_decide (i = 0)
                 || bool_decide (getClass pSub = VE_SUBRENDERER_CLASS_OBJECT)). }
  reflexivity.
Qed.

(** Switching a light on changes neither the lights nor the camera that a
    round is made from. *)
Lemma light_round_switchOnLight light i pLight :
  light_round (switchOnLight light sm) subs idx i pLight
  = light_round sm subs idx i pLight.
Proof. reflexivity. Qed.

End Recording.

(** ** The active lights *)

(** C10.  [switchOnLight] appends without looking at the list: switching
    the same light on twice leaves two more entries for it, which is not
    what switching it on once leaves, and the command buffer recorded then
    ends with two rounds (shadow passes and light pass) for this light. *)
Theorem C10_switchOnLight_twice (sm : VESceneManager) (subs : list VESubrender)
  (idx : nat) (light : ptr) :
  let sm2 := switchOnLight light (switchOnLight light sm) in
  let n := length (m_lights sm) in
  m_lights sm2 = m_lights sm ++ [light; light] /\
  m_lights sm2 <> m_lights (switchOnLight light sm) /\
  recordCmdBuffers sm2 subs idx
  = [vhCmdBeginCommandBuffer]
    ++ concat (imap (light_round sm subs idx) (m_lights sm))
    ++ light_round sm subs idx n light
    ++ light_round sm subs idx (S n) light
    ++ [vkEndCommandBuffer].
Proof.
  cbn zeta.
  assert (m_lights (switchOnLight light (switchOnLight light sm))
          = m_lights sm ++ [light; light]) as Hl.
  { simpl. by rewrite <- app_assoc. }
  split; [exact Hl|]. split.
  - intros Heq. apply (f_equal length) in Heq. simpl in Heq.
    rewrite !length_app in Heq. simpl in Heq. lia.
  - rewrite recordCmdBuffers_rounds, Hl.
    rewrite imap_app, concat_app. cbn [imap concat].
    unfold compose. rewrite Nat.add_0_r, Nat.add_1_r, app_nil_r, <- !app_assoc.
    reflexivity.
Qed.

(** ** Acquiring and presenting a frame *)

Section FrameCycle.

Context `{Engine}.

Variable sm : VESceneManager.

Ltac frame_cases :=
  unfold drawFrame, presentFrame, call_fatalError, recreateSwapchain, log;
  cbn [calls m_currentFrame m_subrenderers m_commandBuffers
       m_framebufferResized imageIndex];
  repeat case_bool_decide; cbn [andb orb]; try congruence;
  try (exfalso; unfold VK_SUCCESS, VK_SUBOPTIMAL_KHR, VK_ERROR_OUT_OF_DATE_KHR in *;
       congruence);
  repeat match goal with
  | |- context [if fatalError_returns then _ else _] => destruct fatalError_returns
  | |- context [m_commandBuffers ?r !! ?i] => destruct (m_commandBuffers r !! i)
  | |- context [if m_framebufferResized ?r then _ else _] =>
      destruct (m_framebufferResized r) eqn:?
  end;
  cbn [calls m_currentFrame m_subrenderers m_commandBuffers
       m_framebufferResized imageIndex renderer_of];
  rewrite <- ?app_assoc; cbn [app].

(** [drawFrame] on an out-of-date swap chain: the swap chain is made again,
    and the function returns. *)
Lemma drawFrame_out_of_date index r :
  exists r',
    drawFrame sm VK_ERROR_OUT_OF_DATE_KHR index r = Returned r' /\
    calls r' = calls r ++ [vkWaitForFences (m_currentFrame r);
                           vkAcquireNextImageKHR (m_currentFrame r);
                           call_recreateSwapchain] /\
    m_commandBuffers r' = ∅.
Proof.
  frame_cases. eexists. split; [reflexivity|]. cbn. rewrite <- ?app_assoc. auto.
Qed.

(** [drawFrame] on any other result than success and suboptimal. *)
Lemma drawFrame_failed result index r :
  result <> VK_ERROR_OUT_OF_DATE_KHR -> result <> VK_SUCCESS ->
  result <> VK_SUBOPTIMAL_KHR ->
  exists rest,
    calls (renderer_of (drawFrame sm result index r))
    = calls r ++ [vkWaitForFences (m_currentFrame r);
                  vkAcquireNextImageKHR (m_currentFrame r);
                  fatalError "Failed to acquire swap chain image!"] ++ rest /\
    Forall (fun c => is_recreateSwapchain c = false) rest.
Proof.
  intros H1 H2 H3. frame_cases;
    (eexists; split; [reflexivity | repeat constructor]).
Qed.

(** [drawFrame] on success or on a suboptimal swap chain: the command buffer
    is recorded if there is none, and submitted. *)
Lemma drawFrame_acquired result index r :
  result = VK_SUCCESS \/ result = VK_SUBOPTIMAL_KHR ->
  exists r',
    drawFrame sm result index r = Returned r' /\
    calls r' = calls r ++ [vkWaitForFences (m_currentFrame r);
                           vkAcquireNextImageKHR (m_currentFrame r)]
               ++ (if m_commandBuffers r !! index is Some _ then []
                   else [call_recordCmdBuffers index])
               ++ [vhCmdSubmitCommandBuffer index (m_currentFrame r)].
Proof.
  intros [-> | ->]; frame_cases; (eexists; split; reflexivity).
Qed.

(** [presentFrame] on an out-of-date or suboptimal swap chain, or after a
    change of the window size. *)
Lemma presentFrame_stale result r :
  result = VK_ERROR_OUT_OF_DATE_KHR \/ result = VK_SUBOPTIMAL_KHR \/
  m_framebufferResized r = true ->
  exists r',
    presentFrame result r = Returned r' /\
    calls r' = calls r ++ [vhBufTransitionImageLayout (imageIndex r);
                           vhRenderPresentResult (imageIndex r) (m_currentFrame r);
                           call_recreateSwapchain] /\
    m_framebufferResized r' = false /\
    m_commandBuffers r' = ∅ /\
    m_currentFrame r' = (m_currentFrame r + 1) `mod` MAX_FRAMES_IN_FLIGHT.
Proof.
  intros [-> | [-> | Hres]]; frame_cases; try congruence;
    (eexists; split; [reflexivity|]; cbn; rewrite <- ?app_assoc; auto).
Qed.

(** [presentFrame] on any other result than success. *)
Lemma presentFrame_failed result r :
  result <> VK_ERROR_OUT_OF_DATE_KHR -> result <> VK_SUBOPTIMAL_KHR ->
  m_framebufferResized r = false -> result <> VK_SUCCESS ->
  calls (renderer_of (presentFrame result r))
  = calls r ++ [vhBufTransitionImageLayout (imageIndex r);
                vhRenderPresentResult (imageIndex r) (m_currentFrame r);
                fatalError "failed to present swap chain image!"].
Proof.
  intros H1 H2 Hres H3. frame_cases; try congruence; reflexivity.
Qed.

(** [presentFrame] on success without change of the window size. *)
Lemma presentFrame_presented r :
  m_framebufferResized r = false ->
  exists r',
    presentFrame VK_SUCCESS r = Returned r' /\
    calls r' = calls r ++ [vhBufTransitionImageLayout (imageIndex r);
                           vhRenderPresentResult (imageIndex r) (m_currentFrame r)] /\
    m_currentFrame r' = (m_currentFrame r + 1) `mod` MAX_FRAMES_IN_FLIGHT.
Proof.
  intros Hres. frame_cases; try congruence.
  eexists. split; [reflexivity|]. cbn. auto.
Qed.

(** C9.  When the acquisition in [drawFrame] answers that the swap chain is
    out of date, the swap chain is made again and the function returns: no
    command buffer is recorded and none is submitted, and no fatal error is
    raised.  Any other answer that is neither success nor suboptimal raises
    the fatal error.  [presentFrame] makes the swap chain again when the
    answer is out of date or suboptimal or the window size has changed, and
    raises the fatal error on any other answer that is not success. *)
Theorem C9_swapchain_results (result : VkResult) (index : nat) (r : VERendererForward) :
  (exists r',
     drawFrame sm VK_ERROR_OUT_OF_DATE_KHR index r = Returned r' /\
     calls r' = calls r ++ [vkWaitForFences (m_currentFrame r);
                            vkAcquireNextImageKHR (m_currentFrame r);
                            call_recreateSwapchain] /\
     m_commandBuffers r' = ∅) /\
  (result <> VK_ERROR_OUT_OF_DATE_KHR -> result <> VK_SUCCESS ->
   result <> VK_SUBOPTIMAL_KHR ->
   exists rest,
     calls (renderer_of (drawFrame sm result index r))
     = calls r ++ [vkWaitForFences (m_currentFrame r);
                   vkAcquireNextImageKHR (m_currentFrame r);
                   fatalError "Failed to acquire swap chain image!"] ++ rest /\
     Forall (fun c => is_recreateSwapchain c = false) rest) /\
  (result = VK_SUCCESS \/ result = VK_SUBOPTIMAL_KHR ->
   exists r',
     drawFrame sm result index r = Returned r' /\
     calls r' = calls r ++ [vkWaitForFences (m_currentFrame r);
                            vkAcquireNextImageKHR (m_currentFrame r)]
                ++ (if m_commandBuffers r !! index is Some _ then []
                    else [call_recordCmdBuffers index])
                ++ [vhCmdSubmitCommandBuffer index (m_currentFrame r)]) /\
  (result = VK_ERROR_OUT_OF_DATE_KHR \/ result = VK_SUBOPTIMAL_KHR \/
   m_framebufferResized r = true ->
   exists r',
     presentFrame result r = Returned r' /\
     calls r' = calls r ++ [vhBufTransitionImageLayout (imageIndex r);
                            vhRenderPresentResult (imageIndex r) (m_currentFrame r);
                            call_recreateSwapchain] /\
     m_framebufferResized r' = false /\
     m_commandBuffers r' = ∅ /\
     m_currentFrame r' = (m_currentFrame r + 1) `mod` MAX_FRAMES_IN_FLIGHT) /\
  (result <> VK_ERROR_OUT_OF_DATE_KHR -> result <> VK_SUBOPTIMAL_KHR ->
   m_framebufferResized r = false -> result <> VK_SUCCESS ->
   calls (renderer_of (presentFrame result r))
   = calls r ++ [vhBufTransitionImageLayout (imageIndex r);
                 vhRenderPresentResult (imageIndex r) (m_currentFrame r);
                 fatalError "failed to present swap chain image!"]) /\
  (m_framebufferResized r = false ->
   exists r',
     presentFrame VK_SUCCESS r = Returned r' /\
     calls r' = calls r ++ [vhBufTransitionImageLayout (imageIndex r);
                            vhRenderPresentResult (imageIndex r) (m_currentFrame r)] /\
     m_currentFrame r' = (m_currentFrame r + 1) `mod` MAX_FRAMES_IN_FLIGHT).
Proof.
  split; [apply drawFrame_out_of_date|].
  split; [apply drawFrame_failed|].
  split; [apply drawFrame_acquired|].
  split; [apply presentFrame_stale|].
  split; [apply presentFrame_failed | apply presentFrame_presented].
Qed.

End FrameCycle.

Lemma C9_swapchain_results_witness :
  (exists rest,
     calls (renderer_of (drawFrame (H := fatalError_comes_back)
                           (scene_with_one_light (H := example_defaults))
                           (-4) 0 renderer_at_start))
     = [vkWaitForFences 0; vkAcquireNextImageKHR 0;
        fatalError "Failed to acquire swap chain image!"] ++ rest /\
     Forall (fun c => is_recreateSwapchain c = false) rest) /\
  (exists r',
     presentFrame (H := fatalError_comes_back) VK_SUBOPTIMAL_KHR renderer_at_start
     = Returned r' /\
     calls r' = [vhBufTransitionImageLayout 0; vhRenderPresentResult 0 0;
                 call_recreateSwapchain] /\
     m_framebufferResized r' = false /\
     m_commandBuffers r' = ∅ /\
     m_currentFrame r' = 1).
Proof.
  destruct (C9_swapchain_results (H := fatalError_comes_back)
              (scene_with_one_light (H := example_defaults)) (-4) 0 renderer_at_start)
    as (_ & Hfail & _).
  destruct (C9_swapchain_results (H := fatalError_comes_back)
              (scene_with_one_light (H := example_defaults))
              VK_SUBOPTIMAL_KHR 0 renderer_at_start)
    as (_ & _ & _ & Hstale & _).
  split.
  - apply Hfail; discriminate.
  - apply Hstale. right. left. reflexivity.
Defined.

(** ** The frame functions and the recorder on concrete inputs *)

(** A frame whose acquisition finds the swap chain out of date is skipped:
    nothing is recorded or submitted and no fatal error is raised. *)
Example skipped_frame :
  let o := drawFrame (H := fatalError_comes_back)
                     (scene_with_one_light (H := example_defaults))
                     VK_ERROR_OUT_OF_DATE_KHR 0 renderer_at_start in
  calls (renderer_of o)
  = [vkWaitForFences 0; vkAcquireNextImageKHR 0; call_recreateSwapchain] /\
  filter is_draw_work (calls (renderer_of o)) = [] /\
  filter is_fatalError (calls (renderer_of o)) = [].
Proof. vm_compute. repeat split; reflexivity. Qed.

(** A device that is lost at acquisition (-4) raises the fatal error. *)
Example lost_device :
  calls (renderer_of (drawFrame (H := fatalError_comes_back)
                                (scene_with_one_light (H := example_defaults))
                                (-4) 0 renderer_at_start))
  = [vkWaitForFences 0; vkAcquireNextImageKHR 0;
     fatalError "Failed to acquire swap chain image!";
     call_recordCmdBuffers 0; vhCmdSubmitCommandBuffer 0 0].
Proof. vm_compute. reflexivity. Qed.

(** The command buffer of the scene with one directional light: four shadow
    passes and then the light pass, which clears. *)
Example one_light_recorded :
  omap render_pass_of
       (recordCmdBuffers (scene_with_one_light (H := example_defaults))
                         (m_subrenderers renderer_at_start) 0)
  = [m_renderPassShadow; m_renderPassShadow; m_renderPassShadow;
     m_renderPassShadow; m_renderPassClear].
Proof. vm_compute. reflexivity. Qed.

(** The same light switched on a second time: a second round, with a light
    pass that loads. *)
Example two_rounds_recorded :
  omap render_pass_of
            (recordCmdBuffers
               (switchOnLight 7 (scene_with_one_light (H := example_defaults)))
               (m_subrenderers renderer_at_start) 0)
  = [m_renderPassShadow; m_renderPassShadow; m_renderPassShadow;
     m_renderPassShadow; m_renderPassClear;
     m_renderPassShadow; m_renderPassShadow; m_renderPassShadow;
     m_renderPassShadow; m_renderPassLoad].
Proof. vm_compute. reflexivity. Qed.

(** * More properties *)

(** ** The update of the scene graph *)

Section Update.

Implicit Types (h : heap) (this p c : ptr) (n : VESceneNode).




End Update.

Section Detached.

Implicit Types (h : heap) (p c : ptr).

(** Whatever [update_from] reaches below [p] is in the child list of some
    node. *)
Lemma update_from_reach h fuel :
  forall p Wp ups, update_from fuel h Wp p = Some ups ->
  forall c Wc, (c, Wc) ∈ ups -> c = p \/ exists q, child_of h c q.
Proof.
  induction fuel as [|fuel IH]; intros p Wp ups Hup c Wc Hin; [discriminate|].
  simpl in Hup. destruct (h !! p) as [n|] eqn:Hp; simpl in Hup; [|discriminate].
  destruct (mapM _ _) as [below|] eqn:Hbelow in Hup; simpl in Hup; [|discriminate].
  injection Hup as <-.
  apply elem_of_cons in Hin as [Heq | Hin]; [left; congruence|].
  right.
  apply list_elem_of_In, in_concat in Hin as (ups' & Hups' & Hin).
  apply list_elem_of_In in Hups', Hin.
  apply mapM_Some in Hbelow.
  apply list_elem_of_lookup_1 in Hups' as [i Hi].
  destruct (Forall2_lookup_r _ _ _ _ _ Hbelow Hi) as (ch & Hch & Hupch).
  apply list_elem_of_lookup_2 in Hch.
  destruct (IH ch _ ups' Hupch c Wc Hin) as [-> | Hq]; [|assumption].
  exists p, n. split; assumption.
Qed.

(** [updateSceneNodes] uploads only nodes without parent and nodes that are
    in a child list. *)
Lemma updateSceneNodes_reach h fuel nodes :
  forall ups, updateSceneNodes fuel h nodes = Some ups ->
  forall c Wc, (c, Wc) ∈ ups ->
    (exists n, h !! c = Some n /\ m_parent n = None) \/ exists q, child_of h c q.
Proof.
  induction nodes as [|p nodes IH]; intros ups Hup c Wc Hin; simpl in Hup.
  - injection Hup as <-. inversion Hin.
  - destruct (h !! p) as [n|] eqn:Hp; simpl in Hup; [|discriminate].
    destruct (m_parent n) as [q|] eqn:Hq; simpl in Hup.
    + destruct (updateSceneNodes fuel h nodes) as [ups'|]; simpl in Hup; [|discriminate].
      injection Hup as <-. apply (IH ups' eq_refl c Wc Hin).
    + destruct (update fuel h p) as [ups0|] eqn:Hup0; simpl in Hup; [|discriminate].
      destruct (updateSceneNodes fuel h nodes) as [ups'|]; simpl in Hup; [|discriminate].
      injection Hup as <-.
      apply elem_of_app in Hin as [Hin | Hin]; [|apply (IH ups' eq_refl c Wc Hin)].
      unfold update in Hup0. rewrite Hp in Hup0. simpl in Hup0. rewrite Hq in Hup0.
      simpl in Hup0.
      destruct (update_from_reach h fuel p _ ups0 Hup0 c Wc Hin) as [-> | Hch];
        [left; eauto | right; assumption].
Qed.

(** X2.  A child taken out with [removeChild] is no longer updated: the call
    leaves the parent pointer of the child as it is, so that afterwards the
    child is neither a node without parent nor in a child list, and
    [updateSceneNodes] uploads no matrix for it, whatever nodes the scene
    manager holds. *)
Theorem X2_removed_child_is_not_updated h h' p c fuel nodes ups :
  tree_wf h -> child_of h c p ->
  removeChild p c h = Some h' ->
  updateSceneNodes fuel h' nodes = Some ups ->
  (exists cn, h' !! c = Some cn /\ m_parent cn = Some p) /\
  (forall q, ~ child_of h' c q) /\
  forall Wc, (c, Wc) ∉ ups.
Proof.
  intros Hwf Hch Hrm Hup.
  destruct (child_of_parent h c p Hwf Hch) as (cn & Hc & Hpar).
  destruct Hch as (n & Hp & Hin).
  rewrite (removeChild_Some p c h n Hp) in Hrm. injection Hrm as <-.
  set (h' := <[p := set_children n
                       (removeChild_loop c (m_children n) (m_children n) 0)]> h) in *.
  assert (exists cn', h' !! c = Some cn' /\ m_parent cn' = Some p) as Hc'.
  { destruct (decide (c = p)) as [-> | Hne].
    - exists (set_children n (removeChild_loop p (m_children n) (m_children n) 0)).
      split; [apply lookup_insert_eq|]. simpl. congruence.
    - exists cn. split; [|assumption]. unfold h'. rewrite lookup_insert_ne; auto. }
  assert (forall q, ~ child_of h' c q) as Hno.
  { intros q (nq & Hq & Hcq).
    exact (detached_after_removeChild h c cn p n Hwf Hc Hpar Hp q nq Hq Hcq). }
  split; [exact Hc'|]. split; [exact Hno|].
  intros Wc Hups.
  destruct (updateSceneNodes_reach h' fuel nodes ups Hup c Wc Hups)
    as [(n0 & Hn0 & Hroot) | (q & Hq)].
  - destruct Hc' as (cn' & Hcn' & Hpar'). congruence.
  - exact (Hno q Hq).
Qed.

End Detached.

(** ** Switching lights off *)

Section SwitchOff.

Implicit Types (l : list ptr) (light : ptr).

(** The loop changes nothing where the light is not in the vector from
    index [i] on. *)
Lemma switchOffLight_loop_absent light fuel :
  forall i l, (light ∉ drop i l) -> switchOffLight_loop light fuel i l = l.
Proof.
  induction fuel as [|fuel IH]; intros i l Hno; [reflexivity|].
  simpl. destruct (l !! i) as [p|] eqn:Hi; [|reflexivity].
  destruct (decide (light = p)) as [-> | Hne].
  - exfalso. apply Hno. apply list_elem_of_lookup_2 with 0.
    rewrite lookup_drop, Nat.add_0_r. exact Hi.
  - apply IH. intros Hin. apply Hno.
    rewrite (drop_S l p i Hi). apply elem_of_cons. right. exact Hin.
Qed.

(** The loop walks to the first entry that holds the light. *)
Lemma switchOffLight_loop_walk light l1 rest :
  (light ∉ l1) ->
  forall k fuel, k <= length l1 ->
  switchOffLight_loop light (length l1 - k + fuel) k (l1 ++ rest)
  = switchOffLight_loop light fuel (length l1) (l1 ++ rest).
Proof.
  intros Hno k. remember (length l1 - k) as d eqn:Hd. revert k Hd.
  induction d as [|d IH]; intros k Hd fuel Hk.
  - replace k with (length l1) by lia. reflexivity.
  - simpl. destruct (lookup_lt_is_Some_2 l1 k ltac:(lia)) as [p Hp].
    rewrite (lookup_app_l_Some _ _ _ _ Hp).
    destruct (decide (light = p)) as [-> | Hne].
    + exfalso. apply Hno. eapply list_elem_of_lookup_2. exact Hp.
    + apply IH; lia.
Qed.

Lemma last_cons_default l (x d : ptr) : List.last (x :: l) d = List.last l x.
Proof.
  revert x d. induction l as [|a l IH]; intros x d; [reflexivity|].
  change (List.last (a :: l) d = List.last (a :: l) x).
  rewrite (IH a d), (IH a x). reflexivity.
Qed.

Lemma last_after l1 l2 (x d : ptr) :
  List.last (l1 ++ x :: l2) d = List.last l2 x.
Proof.
  induction l1 as [|y l1 IH].
  - apply last_cons_default.
  - change (List.last (y :: (l1 ++ x :: l2)) d = List.last l2 x).
    rewrite last_cons_default.
    destruct l1 as [|y' l1].
    + apply last_cons_default.
    + rewrite <- IH. change (List.last (y' :: (l1 ++ x :: l2)) y
                             = List.last (y' :: (l1 ++ x :: l2)) d).
      rewrite !last_cons_default. reflexivity.
Qed.

(** Moving the last entry to the front and dropping the end keeps the
    entries. *)
Lemma move_last_perm l (d : ptr) : removelast (List.last l d :: l) ≡ₚ l.
Proof.
  destruct l as [|q l]; [reflexivity|].
  assert (q :: l <> []) as Hne by discriminate.
  change (List.last (q :: l) d :: removelast (q :: l) ≡ₚ q :: l).
  pose proof (app_removelast_last d Hne) as Heq.
  rewrite Heq at 3. rewrite Permutation_app_comm. reflexivity.
Qed.

(** X3.  Switching off in a vector without repetitions: the light is taken
    out, the last light moves to its place, and the others keep their
    places; a light that is not in the vector leaves it as it is. *)
Theorem X3_switchOffLight_moves_last_light (sm : VESceneManager) (light : ptr) :
  NoDup (m_lights sm) ->
  ((light ∉ m_lights sm) -> m_lights (switchOffLight light sm) = m_lights sm) /\
  (forall l1 l2, m_lights sm = l1 ++ light :: l2 ->
     m_lights (switchOffLight light sm)
     = l1 ++ removelast (List.last l2 light :: l2)) /\
  (light ∉ m_lights (switchOffLight light sm)) /\
  (forall q, q <> light -> q ∈ m_lights (switchOffLight light sm) <-> q ∈ m_lights sm) /\
  getCamera (switchOffLight light sm) = getCamera sm.
Proof.
  intros Hnd.
  assert (forall l1 l2, m_lights sm = l1 ++ light :: l2 ->
            m_lights (switchOffLight light sm)
            = l1 ++ removelast (List.last l2 light :: l2)) as Hfound.
  { intros l1 l2 Heq. unfold switchOffLight. simpl. rewrite Heq in *.
    apply NoDup_app in Hnd as (Hnd1 & Hdisj & Hnd2).
    apply NoDup_cons in Hnd2 as (Hno2 & Hnd2).
    assert (light ∉ l1) as Hno1.
    { intros Hin. apply (Hdisj light Hin). apply elem_of_cons. left. reflexivity. }
    replace (length (l1 ++ light :: l2)) with (length l1 - 0 + S (length l2))
      by (rewrite length_app; simpl; lia).
    rewrite (switchOffLight_loop_walk light l1 (light :: l2) Hno1 0); [|lia].
    simpl. rewrite list_lookup_middle by reflexivity.
    destruct (decide (light = light)) as [_|]; [|congruence].
    rewrite insert_middle.
    assert (List.last (l1 ++ light :: l2) light = List.last l2 light) as ->.
    { apply last_after. }
    assert (removelast (l1 ++ List.last l2 light :: l2)
            = l1 ++ removelast (List.last l2 light :: l2)) as Hrl.
    { apply removelast_app. discriminate. }
    rewrite Hrl. apply switchOffLight_loop_absent.
    intros Hin. apply subseteq_drop in Hin.
    apply elem_of_app in Hin as [Hin | Hin]; [exact (Hno1 Hin)|].
    change (light ∈ removelast (List.last l2 light :: l2)) in Hin.
    rewrite move_last_perm in Hin. exact (Hno2 Hin). }
  assert ((light ∉ m_lights sm) -> m_lights (switchOffLight light sm) = m_lights sm)
    as Habsent.
  { intros Hno. unfold switchOffLight. simpl.
    apply switchOffLight_loop_absent. rewrite drop_0. exact Hno. }
  split; [exact Habsent|]. split; [exact Hfound|].
  destruct (decide (light ∈ m_lights sm)) as [Hin | Hno].
  - apply list_elem_of_split in Hin as (l1 & l2 & Heq).
    specialize (Hfound l1 l2 Heq).
    assert (l1 ++ removelast (List.last l2 light :: l2) ≡ₚ l1 ++ l2) as Hperm.
    { apply Permutation_app_head, move_last_perm. }
    rewrite Heq in Hnd. rewrite Hfound, Heq.
    apply NoDup_app in Hnd as (Hnd1 & Hdisj & Hnd2).
    apply NoDup_cons in Hnd2 as (Hno2 & Hnd2).
    split; [|split; [|reflexivity]].
    + rewrite Hperm. intros Hin. apply elem_of_app in Hin as [Hin | Hin].
      * apply (Hdisj light Hin). apply elem_of_cons. left. reflexivity.
      * exact (Hno2 Hin).
    + intros q Hq. rewrite Hperm. rewrite !elem_of_app, elem_of_cons. tauto.
  - rewrite (Habsent Hno). split; [exact Hno|]. split; [tauto | reflexivity].
Qed.

End SwitchOff.

Section SwitchOnOff.

Implicit Types (l : list ptr) (light : ptr).

Lemma switchOffLight_loop_end light fuel i l :
  length l <= i -> switchOffLight_loop light fuel i l = l.
Proof.
  intros Hle. destruct fuel as [|fuel]; [reflexivity|]. simpl.
  rewrite (lookup_ge_None_2 l i Hle). reflexivity.
Qed.

Lemma removelast_replicate l light m :
  removelast (l ++ replicate (S m) light) = l ++ replicate m light.
Proof.
  rewrite replicate_S_end, app_assoc. apply removelast_last.
Qed.

Lemma last_replicate l light m d :
  List.last (l ++ replicate (S m) light) d = light.
Proof. rewrite replicate_S_end, app_assoc. apply last_last. Qed.

(** The loop on a vector that ends in [m] copies of the light, from the
    [j]-th copy on: every turn drops one copy and steps over one. *)
Lemma switchOffLight_loop_copies light l :
  (light ∉ l) ->
  forall fuel m j, m <= j + fuel -> j <= m ->
  switchOffLight_loop light fuel (length l + j) (l ++ replicate m light)
  = l ++ replicate ((m + j) / 2) light.
Proof.
  intros Hno. induction fuel as [|fuel IH]; intros m j Hfuel Hj.
  - replace j with m by lia. replace ((m + m) / 2) with m; [reflexivity|].
    replace (m + m) with (m * 2) by lia. symmetry. apply Nat.div_mul. lia.
  - cbn [switchOffLight_loop]. destruct (decide (j = m)) as [-> | Hne].
    + rewrite lookup_ge_None_2 by (rewrite length_app, length_replicate; lia).
      replace ((m + m) / 2) with m; [reflexivity|].
      replace (m + m) with (m * 2) by lia. symmetry. apply Nat.div_mul. lia.
    + destruct m as [|m]; [lia|].
      assert ((l ++ replicate (S m) light) !! (length l + j) = Some light) as ->.
      { rewrite lookup_app_r by lia.
        replace (length l + j - length l) with j by lia.
        apply lookup_replicate_2. lia. }
      destruct (decide (light = light)) as [_|]; [|congruence].
      rewrite last_replicate.
      assert (<[length l + j := light]> (l ++ replicate (S m) light)
              = l ++ replicate (S m) light) as ->.
      { apply list_insert_id. rewrite lookup_app_r by lia.
        replace (length l + j - length l) with j by lia.
        apply lookup_replicate_2. lia. }
      rewrite removelast_replicate.
      replace (S (length l + j)) with (length l + S j) by lia.
      destruct (decide (S j <= m)) as [Hle | Hgt].
      * rewrite IH by lia. f_equal. f_equal.
        replace (S m + j) with (m + S j) by lia. reflexivity.
      * rewrite switchOffLight_loop_end
          by (rewrite length_app, length_replicate; lia).
        f_equal. f_equal. replace j with m by lia.
        replace (S m + m) with (1 + m * 2) by lia.
        rewrite Nat.div_add by lia. reflexivity.
Qed.

Lemma switchOnLight_iter light sm n :
  m_lights (Nat.iter n (switchOnLight light) sm) = m_lights sm ++ replicate n light.
Proof.
  induction n as [|n IH]; simpl.
  - rewrite app_nil_r. reflexivity.
  - rewrite IH, <- app_assoc.
    change (light :: replicate n light) with (replicate (S n) light).
    rewrite replicate_S_end. reflexivity.
Qed.

(** X4.  Switching on and off do not balance: after [n] calls of
    [switchOnLight] for a light that was off, one call of [switchOffLight]
    leaves [n / 2] entries of the light in the vector.  It undoes one call
    exactly, and after two calls the light stays on. *)
Theorem X4_switchOffLight_after_switchOnLight (sm : VESceneManager) (light : ptr) (n : nat) :
  (light ∉ m_lights sm) ->
  m_lights (switchOffLight light (Nat.iter n (switchOnLight light) sm))
  = m_lights sm ++ replicate (n / 2) light /\
  m_lights (switchOffLight light (switchOnLight light sm)) = m_lights sm /\
  m_lights (switchOffLight light (switchOnLight light (switchOnLight light sm)))
  = m_lights (switchOnLight light sm).
Proof.
  intros Hno.
  assert (forall k, m_lights (switchOffLight light (Nat.iter k (switchOnLight light) sm))
                    = m_lights sm ++ replicate (k / 2) light) as Hk.
  { intros k. unfold switchOffLight. cbn [m_lights]. rewrite switchOnLight_iter.
    replace (length (m_lights sm ++ replicate k light))
      with (length (m_lights sm) - 0 + k)
      by (rewrite length_app, length_replicate; lia).
    rewrite (switchOffLight_loop_walk light (m_lights sm) _ Hno 0) by lia.
    pose proof (switchOffLight_loop_copies light (m_lights sm) Hno k k 0) as H.
    rewrite !Nat.add_0_r in H. apply H; lia. }
  split; [apply Hk|]. split.
  - change (switchOnLight light sm) with (Nat.iter 1 (switchOnLight light) sm).
    rewrite (Hk 1). apply app_nil_r.
  - change (switchOnLight light (switchOnLight light sm))
      with (Nat.iter 2 (switchOnLight light) sm).
    rewrite (Hk 2). reflexivity.
Qed.

End SwitchOnOff.

(** ** The recorded command buffer *)

Section Recorded.

Variables (sm : VESceneManager) (subs : list VESubrender) (idx : nat).

Lemma record_run_app s cmds1 cmds2 :
  record_run s (cmds1 ++ cmds2) = record_run s cmds1 ≫= fun s' => record_run s' cmds2.
Proof.
  revert s. induction cmds1 as [|c cmds1 IH]; intros s; [reflexivity|].
  simpl. destruct (record_step s c) as [s'|]; simpl; [apply IH | reflexivity].
Qed.

Lemma record_run_shadow_passes pLight js :
  record_run Recording (flat_map (shadow_pass idx pLight) js) = Some Recording.
Proof. induction js as [|j js IH]; [reflexivity | exact IH]. Qed.

Lemma record_run_draws i pLight l :
  record_run InsideRenderPass
    (flat_map (fun pSub =>
       if bool_decide (i = 0) || bool_decide (getClass pSub = VE_SUBRENDERER_CLASS_OBJECT)
       then [prepareDraw pSub; draw pSub idx i (scene_camera (getCamera sm)) pLight]
       else []) l)
  = Some InsideRenderPass.
Proof.
  induction l as [|pSub l IH]; [reflexivity|]. simpl.
  destruct (bool_decide (i = 0) || bool_decide (getClass pSub = VE_SUBRENDERER_CLASS_OBJECT));
    exact IH.
Qed.

Lemma record_run_light_round i pLight :
  record_run Recording (light_round sm subs idx i pLight) = Some Recording.
Proof.
  unfold light_round, shadow_passes, light_pass.
  rewrite record_run_app, record_run_shadow_passes. simpl.
  rewrite record_run_app, record_run_draws. reflexivity.
Qed.

Lemma record_run_rounds lights :
  forall k, record_run Recording
              (concat (imap (fun i => light_round sm subs idx (k + i)) lights))
            = Some Recording.
Proof.
  induction lights as [|pLight lights IH]; intros k; [reflexivity|].
  simpl. rewrite record_run_app, record_run_light_round. simpl.
  assert (imap ((fun i => light_round sm subs idx (k + i)) ∘ S) lights
          = imap (fun i => light_round sm subs idx (S k + i)) lights) as ->.
  { apply imap_ext. intros i x _. simpl. f_equal. lia. }
  apply IH.
Qed.

(** X5.  The command buffer that [recordCmdBuffers] makes is well formed,
    whatever the lights and subrenderers are: the recording is begun first
    and ended last, render passes are begun one after the other and each is
    ended before the next begins, and every draw is recorded inside a render
    pass. *)
Theorem X5_command_buffer_is_well_formed :
  record_run Initial (recordCmdBuffers sm subs idx) = Some Executable.
Proof.
  rewrite recordCmdBuffers_rounds. simpl.
  rewrite record_run_app.
  change (imap (light_round sm subs idx) (m_lights sm))
    with (imap (fun i => light_round sm subs idx (0 + i)) (m_lights sm)).
  rewrite (record_run_rounds (m_lights sm) 0). reflexivity.
Qed.

End Recorded.

Section RecordedPasses.

Variables (sm : VESceneManager) (subs : list VESubrender) (idx : nat).

Lemma elem_of_rounds (c : Cmd) :
  c ∈ recordCmdBuffers sm subs idx ->
  c = vhCmdBeginCommandBuffer \/ c = vkEndCommandBuffer \/
  exists i pLight, m_lights sm !! i = Some pLight /\
                   c ∈ light_round sm subs idx i pLight.
Proof.
  rewrite recordCmdBuffers_rounds. intros Hin.
  apply elem_of_cons in Hin as [-> | Hin]; [left; reflexivity|].
  apply elem_of_app in Hin as [Hin | Hin].
  - right. right.
    apply list_elem_of_In, in_concat in Hin as (round & Hround & Hin).
    apply list_elem_of_In in Hround, Hin.
    apply list_elem_of_lookup_1 in Hround as [i Hi].
    apply list_lookup_imap_Some in Hi as (pLight & Hl & ->).
    eauto.
  - apply list_elem_of_singleton in Hin. right. left. exact Hin.
Qed.

Lemma elem_of_light_round (c : Cmd) i pLight :
  c ∈ light_round sm subs idx i pLight ->
  (exists j, j < length (m_shadowCameras (light_at sm pLight)) /\
             c ∈ shadow_pass idx pLight j) \/
  c ∈ light_pass sm subs idx i pLight.
Proof.
  unfold light_round, shadow_passes. intros Hin.
  apply elem_of_app in Hin as [Hin | Hin]; [left | right; exact Hin].
  apply list_elem_of_In, in_flat_map in Hin as (j & Hj & Hin).
  apply in_seq in Hj. apply list_elem_of_In in Hin. exists j. split; [lia | exact Hin].
Qed.

(** X6.  Every render pass is begun with as many clear values as it clears
    attachments: one for a shadow pass, two for the pass of the first light,
    and none for the passes of the other lights, which load what is in the
    framebuffer.  Shadow passes go to a shadow framebuffer of the image, the
    other passes to its swap chain framebuffer. *)
Theorem X6_clear_values_match_the_render_pass renderPass frameBuffer clearValues :
  vhRenderBeginRenderPass renderPass frameBuffer clearValues
    ∈ recordCmdBuffers sm subs idx ->
  clearValueCount clearValues
  = (if loadOp renderPass is VK_ATTACHMENT_LOAD_OP_CLEAR
     then attachmentCount renderPass else 0) /\
  match renderPass with
  | m_renderPassShadow =>
      exists pLight j, pLight ∈ m_lights sm /\
        j < length (m_shadowCameras (light_at sm pLight)) /\
        frameBuffer = m_shadowFramebuffers idx j
  | _ => frameBuffer = m_swapChainFramebuffers idx
  end.
Proof.
  intros Hin.
  apply elem_of_rounds in Hin as [Hin | [Hin | (i & pLight & Hl & Hin)]];
    [discriminate | discriminate |].
  apply elem_of_light_round in Hin as [(j & Hj & Hin) | Hin].
  - unfold shadow_pass in Hin.
    apply elem_of_cons in Hin as [Heq | Hin].
    + injection Heq as -> -> ->. split; [reflexivity|].
      exists pLight, j. split; [eapply list_elem_of_lookup_2; exact Hl|]. auto.
    + apply elem_of_cons in Hin as [Heq | Hin]; [discriminate|].
      apply list_elem_of_singleton in Hin. discriminate.
  - unfold light_pass in Hin.
    apply elem_of_cons in Hin as [Heq | Hin].
    + injection Heq as -> -> ->.
      destruct (bool_decide (i = 0)); split; reflexivity.
    + apply elem_of_app in Hin as [Hin | Hin].
      * apply list_elem_of_In, in_flat_map in Hin as (pSub & _ & Hin).
        destruct (bool_decide (i = 0) || bool_decide (getClass pSub = _));
          simpl in Hin; [|contradiction].
        destruct Hin as [Heq | [Heq | []]]; discriminate.
      * apply list_elem_of_singleton in Hin. discriminate.
Qed.

End RecordedPasses.

Section RecordedDraws.

Variables (sm : VESceneManager) (subs : list VESubrender) (idx : nat).
Variable (pSub : VESubrender).

Lemma count_draws_app cmds1 cmds2 :
  count_draws pSub (cmds1 ++ cmds2) = count_draws pSub cmds1 + count_draws pSub cmds2.
Proof. unfold count_draws. rewrite List.filter_app, length_app. reflexivity. Qed.

Lemma count_draws_shadow_passes pLight js :
  count_draws pSub (flat_map (shadow_pass idx pLight) js) = 0.
Proof. induction js as [|j js IH]; [reflexivity | exact IH]. Qed.

Lemma count_draws_subrenderers i pLight l :
  count_draws pSub
    (flat_map (fun s =>
       if bool_decide (i = 0) || bool_decide (getClass s = VE_SUBRENDERER_CLASS_OBJECT)
       then [prepareDraw s; draw s idx i (scene_camera (getCamera sm)) pLight]
       else []) l)
  = if bool_decide (i = 0) || bool_decide (getClass pSub = VE_SUBRENDERER_CLASS_OBJECT)
    then registered pSub l else 0.
Proof.
  induction l as [|s l IH].
  - simpl. destruct (_ || _); reflexivity.
  - cbn [flat_map]. rewrite count_draws_app, IH.
    unfold registered. cbn [List.filter].
    destruct (decide (s = pSub)) as [-> | Hne].
    + rewrite (bool_decide_eq_true_2 (pSub = pSub)) by reflexivity.
      destruct (bool_decide (i = 0) || bool_decide (getClass pSub = _)).
      * unfold count_draws. simpl.
        rewrite (bool_decide_eq_true_2 (pSub = pSub)) by reflexivity.
        reflexivity.
      * reflexivity.
    + rewrite (bool_decide_eq_false_2 (s = pSub)) by assumption.
      destruct (bool_decide (i = 0) || bool_decide (getClass s = _)).
      * unfold count_draws at 1. simpl.
        rewrite (bool_decide_eq_false_2 (s = pSub)) by assumption. reflexivity.
      * reflexivity.
Qed.

Lemma count_draws_light_round i pLight :
  count_draws pSub (light_round sm subs idx i pLight)
  = if bool_decide (i = 0) || bool_decide (getClass pSub = VE_SUBRENDERER_CLASS_OBJECT)
    then registered pSub subs else 0.
Proof.
  unfold light_round, shadow_passes, light_pass.
  rewrite count_draws_app, count_draws_shadow_passes.
  change (?a :: ?l ++ ?r) with ([a] ++ l ++ r).
  rewrite !count_draws_app, count_draws_subrenderers.
  change (count_draws pSub [vkCmdEndRenderPass]) with 0.
  change (count_draws pSub [vhRenderBeginRenderPass _ _ _]) with 0.
  lia.
Qed.

Lemma count_draws_later_rounds lights :
  forall k,
  count_draws pSub (concat (imap (fun i => light_round sm subs idx (S k + i)) lights))
  = length lights * (if bool_decide (getClass pSub = VE_SUBRENDERER_CLASS_OBJECT)
                     then registered pSub subs else 0).
Proof.
  induction lights as [|pLight lights IH]; intros k; [reflexivity|].
  cbn [imap concat]. rewrite count_draws_app, count_draws_light_round.
  assert (imap ((fun i => light_round sm subs idx (S k + i)) ∘ S) lights
          = imap (fun i => light_round sm subs idx (S (S k) + i)) lights) as ->.
  { apply imap_ext. intros i x _. simpl. f_equal. lia. }
  rewrite IH. rewrite (bool_decide_eq_false_2 (S k + 0 = 0)) by lia. simpl. lia.
Qed.

(** X7.  How often a subrenderer draws in one command buffer: a subrenderer
    of class object draws once for every active light, each other
    subrenderer once, in the pass of the first light, and not at all when no
    light is active.  A subrenderer registered several times draws that many
    times more. *)
Theorem X7_draws_per_subrenderer :
  count_draws pSub (recordCmdBuffers sm subs idx)
  = registered pSub subs
    * (if bool_decide (getClass pSub = VE_SUBRENDERER_CLASS_OBJECT)
       then length (m_lights sm)
       else Nat.min 1 (length (m_lights sm))).
Proof.
  rewrite recordCmdBuffers_rounds.
  change (?a :: ?l ++ ?r) with ([a] ++ l ++ r).
  rewrite !count_draws_app.
  change (count_draws pSub [vhCmdBeginCommandBuffer]) with 0.
  change (count_draws pSub [vkEndCommandBuffer]) with 0.
  destruct (m_lights sm) as [|pLight lights].
  - simpl. destruct (bool_decide _); lia.
  - cbn [imap concat]. rewrite count_draws_app, count_draws_light_round.
    assert (imap (light_round sm subs idx ∘ S) lights
            = imap (fun i => light_round sm subs idx (1 + i)) lights) as ->.
    { apply imap_ext. intros i x _. reflexivity. }
    rewrite (count_draws_later_rounds lights 0).
    rewrite (bool_decide_eq_true_2 (0 = 0)) by reflexivity. cbn [orb length].
    destruct (bool_decide (getClass pSub = VE_SUBRENDERER_CLASS_OBJECT)); simpl; lia.
Qed.

End RecordedDraws.

Section RecordedLayouts.

Variables (sm : VESceneManager) (subs : list VESubrender) (idx : nat).

Lemma layout_run_app layout cmds1 cmds2 :
  layout_run layout (cmds1 ++ cmds2)
  = layout_run layout cmds1 ≫= fun layout' => layout_run layout' cmds2.
Proof.
  revert layout. induction cmds1 as [|c cmds1 IH]; intros layout; [reflexivity|].
  simpl. destruct (layout_step layout c) as [layout'|]; simpl; [apply IH | reflexivity].
Qed.

Lemma layout_run_shadow_passes layout pLight js :
  layout_run layout (flat_map (shadow_pass idx pLight) js) = Some layout.
Proof. induction js as [|j js IH]; [reflexivity | exact IH]. Qed.

Lemma layout_run_draws layout i pLight l :
  layout_run layout
    (flat_map (fun pSub =>
       if bool_decide (i = 0) || bool_decide (getClass pSub = VE_SUBRENDERER_CLASS_OBJECT)
       then [prepareDraw pSub; draw pSub idx i (scene_camera (getCamera sm)) pLight]
       else []) l)
  = Some layout.
Proof.
  induction l as [|pSub l IH]; [reflexivity|]. simpl.
  destruct (bool_decide (i = 0) || bool_decide (getClass pSub = VE_SUBRENDERER_CLASS_OBJECT));
    exact IH.
Qed.

Lemma layout_run_light_round layout i pLight :
  i = 0 \/ layout = VK_IMAGE_LAYOUT_COLOR_ATTACHMENT_OPTIMAL ->
  layout_run layout (light_round sm subs idx i pLight)
  = Some VK_IMAGE_LAYOUT_COLOR_ATTACHMENT_OPTIMAL.
Proof.
  intros Hok. unfold light_round, shadow_passes, light_pass.
  rewrite layout_run_app, layout_run_shadow_passes. cbn [mbind option_bind].
  change (?a :: ?l ++ ?r) with ([a] ++ l ++ r).
  rewrite layout_run_app.
  assert (layout_run layout
            [vhRenderBeginRenderPass
               (if bool_decide (i = 0) then m_renderPassClear else m_renderPassLoad)
               (m_swapChainFramebuffers idx)
               (if bool_decide (i = 0) then clearValuesLight_init else [])]
          = Some VK_IMAGE_LAYOUT_COLOR_ATTACHMENT_OPTIMAL) as ->.
  { destruct Hok as [-> | ->]; [reflexivity|].
    destruct (bool_decide (i = 0)); reflexivity. }
  cbn [mbind option_bind]. rewrite layout_run_app, layout_run_draws. reflexivity.
Qed.

Lemma layout_run_later_rounds lights :
  forall k,
  layout_run VK_IMAGE_LAYOUT_COLOR_ATTACHMENT_OPTIMAL
    (concat (imap (fun i => light_round sm subs idx (k + i)) lights))
  = Some VK_IMAGE_LAYOUT_COLOR_ATTACHMENT_OPTIMAL.
Proof.
  induction lights as [|pLight lights IH]; intros k; [reflexivity|].
  cbn [imap concat]. rewrite layout_run_app, layout_run_light_round by (right; reflexivity).
  cbn [mbind option_bind].
  assert (imap ((fun i => light_round sm subs idx (k + i)) ∘ S) lights
          = imap (fun i => light_round sm subs idx (S k + i)) lights) as ->.
  { apply imap_ext. intros i x _. simpl. f_equal. lia. }
  apply IH.
Qed.

(** X8.  The layout of the swap chain image along the command buffer: the
    pass of the first light takes the image in any layout, every later pass
    finds it in the layout it was created for, and the buffer leaves it in
    the layout from which [presentFrame] makes the transition to the
    presentable one.  With no active light the buffer does not touch the
    image and leaves its layout as it was. *)
Theorem X8_swap_chain_image_layout (layout : VkImageLayout) :
  layout_run layout (recordCmdBuffers sm subs idx)
  = Some (if m_lights sm is [] then layout else presentFrame_oldLayout).
Proof.
  rewrite recordCmdBuffers_rounds.
  change (?a :: ?l ++ ?r) with ([a] ++ l ++ r).
  rewrite layout_run_app. cbn [layout_run layout_step mbind option_bind].
  rewrite layout_run_app.
  destruct (m_lights sm) as [|pLight lights]; [reflexivity|].
  cbn [imap concat]. rewrite layout_run_app, layout_run_light_round by (left; reflexivity).
  cbn [mbind option_bind].
  assert (imap (light_round sm subs idx ∘ S) lights
          = imap (fun i => light_round sm subs idx (1 + i)) lights) as ->.
  { apply imap_ext. intros i x _. reflexivity. }
  rewrite (layout_run_later_rounds lights 1). reflexivity.
Qed.

End RecordedLayouts.

(** ** Shadow cameras of the spot light and of the directional light *)

Section MoreShadowCameras.

Context `{Libm} `{CameraDefaults}.

Lemma VESpotLight_inv : spot_inv VESpotLight.
Proof.
  split; [reflexivity|]. split; [reflexivity|].
  repeat constructor.
Qed.

Lemma spot_update W Wcam pCamera l :
  spot_inv l ->
  exists l' cam, updateShadowCameras W Wcam pCamera l = Some l' /\
    spot_inv l' /\ m_param l' = m_param l /\
    m_shadowCameras l' = [cam] /\ spot_camera W (x4 (m_param l)) cam.
Proof.
  intros (Hty & Hlen & Hproj).
  destruct (m_shadowCameras l) as [|cam [|cam2 cams]] eqn:Hcams; try discriminate.
  apply Forall_cons in Hproj as [Hcam _].
  destruct cam as [p|o]; [|discriminate].
  unfold updateShadowCameras. rewrite Hty, Hcams. cbn.
  eexists _, _. split; [reflexivity|].
  split; [|split; [reflexivity|split; [reflexivity|]]].
  - split; [reflexivity|]. split; [reflexivity|]. repeat constructor.
  - eexists. repeat (split; [reflexivity|]). reflexivity.
Qed.

Lemma spot_run os l :
  spot_inv l ->
  exists l', run_light_ops os l = Some l' /\ spot_inv l'.
Proof.
  revert l. induction os as [|o os IH]; intros l Hinv; simpl; [eauto|].
  destruct o as [param | W Wcam pCamera]; simpl.
  - apply IH. exact Hinv.
  - destruct (spot_update W Wcam pCamera l Hinv) as (l1 & cam & -> & Hinv1 & _).
    simpl. by apply IH.
Qed.

(** X9.  A spot light has one shadow camera from its constructor on.  Each
    call of [updateShadowCameras] leaves it projective with the world matrix
    of the light as transform, a field of view of 90 degrees, aspect ratio 1
    and the fractions 0 and 1.  Its near plane is 0.1 for every finite reach
    [m_param[0]], and NaN when the reach is infinite. *)
Theorem X9_spot_light_shadow_camera :
  (forall os, exists l,
     run_light_ops os VESpotLight = Some l /\ length (m_shadowCameras l) = 1) /\
  (forall os W Wcam pCamera, exists l cam,
     run_light_ops (os ++ [UpdateShadowCameras W Wcam pCamera]) VESpotLight = Some l /\
     m_shadowCameras l = [cam] /\
     spot_camera W (x4 (m_param l)) cam) /\
  (forall reach, is_finite reach = true ->
     (F32.lit 1 10 + F32.zero * reach)%f32 = F32.lit 1 10) /\
  (forall reach, is_finite reach = false ->
     F32.is_nan (F32.lit 1 10 + F32.zero * reach)%f32 = true).
Proof.
  split; [|split; [|split]].
  - intros os.
    destruct (spot_run os _ VESpotLight_inv) as (l & Hrun & _ & Hlen & _). eauto.
  - intros os W Wcam pCamera. rewrite run_light_ops_app.
    destruct (spot_run os _ VESpotLight_inv) as (l & -> & Hinv). simpl.
    destruct (spot_update W Wcam pCamera l Hinv)
      as (l' & cam & -> & Hinv' & Hpar & Hcams & Hcam).
    simpl. exists l', cam. split; [reflexivity|]. split; [exact Hcams|].
    rewrite Hpar. exact Hcam.
  - intros reach Hfin. destruct reach as [s| s | |s m e]; try discriminate;
      destruct s; vm_compute; reflexivity.
  - intros reach Hfin. destruct reach as [s| s | |s m e]; try discriminate;
      try destruct s; vm_compute; reflexivity.
Qed.

(** The loop forgets what a turn before has written, when each turn
    does. *)
Lemma update_loop_forgets (step1 step2 : nat -> Camera -> option Camera) cams :
  (forall i cam cam', step1 i cam = Some cam' -> step2 i cam' = step2 i cam) ->
  forall i cams', update_loop step1 i cams = Some cams' ->
  update_loop step2 i cams' = update_loop step2 i cams.
Proof.
  intros Hstep. induction cams as [|cam cams IH]; intros i cams' Hloop; simpl in Hloop.
  - injection Hloop as <-. reflexivity.
  - destruct (step1 i cam) as [cam1|] eqn:H1; simpl in Hloop; [|discriminate].
    destruct (update_loop step1 (S i) cams) as [rest1|] eqn:Hrest; simpl in Hloop;
      [|discriminate].
    injection Hloop as <-. simpl.
    rewrite (Hstep i cam cam1 H1), (IH (S i) rest1 Hrest). reflexivity.
Qed.

(** X10.  The shadow cameras keep nothing from one frame to the next: a call
    of [updateShadowCameras] after another one gives what it gives without
    the other one, for each of the three kinds of light and whatever the
    world matrices and the viewer camera of the two calls are. *)
Theorem X10_shadow_cameras_keep_no_state W1 Wcam1 pCamera1 W2 Wcam2 pCamera2
  (l l1 : VELight) :
  updateShadowCameras W1 Wcam1 pCamera1 l = Some l1 ->
  updateShadowCameras W2 Wcam2 pCamera2 l1 = updateShadowCameras W2 Wcam2 pCamera2 l.
Proof.
  unfold updateShadowCameras. intros Hup.
  destruct (getLightType l) eqn:Hty.
  - destruct (update_loop _ 0 (m_shadowCameras l)) as [cams1|] eqn:Hloop in Hup;
      simpl in Hup; [|discriminate].
    injection Hup as <-. cbn [getLightType m_shadowCameras m_param].
    assert (forall i cam cam',
              directional_step W1 Wcam1 pCamera1 i cam = Some cam' ->
              directional_step W2 Wcam2 pCamera2 i cam'
              = directional_step W2 Wcam2 pCamera2 i cam) as Hforget.
    { intros i cam cam' Hstep. unfold directional_step in Hstep.
      destruct cam as [p|o]; [discriminate|].
      destruct (limits !! i) as [t0|]; cbn [mbind option_bind] in Hstep; [|discriminate].
      destruct (limits !! S i) as [t1|]; cbn [mbind option_bind] in Hstep; [|discriminate].
      destruct (getOBB W1 _) as [[[[center width] height] depth]|]; cbn [mbind option_bind] in Hstep; [|discriminate].
      injection Hstep as <-. reflexivity. }
    rewrite (update_loop_forgets _ _ _ Hforget 0 cams1 Hloop). reflexivity.
  - destruct (update_loop _ 0 (m_shadowCameras l)) as [cams1|] eqn:Hloop in Hup;
      simpl in Hup; [|discriminate].
    injection Hup as <-. cbn [getLightType m_shadowCameras m_param]. cbn zeta.
    assert (forall i cam cam',
              point_step (F32.lit 1 10) (x4 (m_param l))
                         (Vec3 (x4 (c3 W1)) (y4 (c3 W1)) (z4 (c3 W1))) i cam = Some cam' ->
              point_step (F32.lit 1 10) (x4 (m_param l))
                         (Vec3 (x4 (c3 W2)) (y4 (c3 W2)) (z4 (c3 W2))) i cam'
              = point_step (F32.lit 1 10) (x4 (m_param l))
                           (Vec3 (x4 (c3 W2)) (y4 (c3 W2)) (z4 (c3 W2))) i cam) as Hforget.
    { intros i cam cam' Hstep. unfold point_step in Hstep.
      destruct cam as [p|o]; [|discriminate].
      destruct (zaxis !! i) as [zi|]; cbn [mbind option_bind] in Hstep; [|discriminate].
      destruct (up !! i) as [ui|]; cbn [mbind option_bind] in Hstep; [|discriminate].
      injection Hstep as <-. reflexivity. }
    rewrite (update_loop_forgets _ _ _ Hforget 0 cams1 Hloop). reflexivity.
  - destruct (update_loop _ 0 (m_shadowCameras l)) as [cams1|] eqn:Hloop in Hup;
      simpl in Hup; [|discriminate].
    injection Hup as <-. cbn [getLightType m_shadowCameras m_param].
    assert (forall i cam cam',
              spot_step W1 (x4 (m_param l)) i cam = Some cam' ->
              spot_step W2 (x4 (m_param l)) i cam'
              = spot_step W2 (x4 (m_param l)) i cam) as Hforget.
    { intros i cam cam' Hstep. unfold spot_step in Hstep.
      destruct cam as [p|o]; [|discriminate].
      destruct (spot_limits !! i) as [t0|]; cbn [mbind option_bind] in Hstep; [|discriminate].
      destruct (spot_limits !! S i) as [t1|]; cbn [mbind option_bind] in Hstep; [|discriminate].
      injection Hstep as <-. reflexivity. }
    rewrite (update_loop_forgets _ _ _ Hforget 0 cams1 Hloop). reflexivity.
Qed.

Lemma directional_update_cameras W Wcam pCamera l :
  directional_inv l ->
  exists l', updateShadowCameras W Wcam pCamera l = Some l' /\
    directional_inv l' /\
    forall i cam', m_shadowCameras l' !! i = Some cam' ->
      directional_camera W Wcam pCamera i cam' /\
      exists cam, m_shadowCameras l !! i = Some cam /\
                  m_nearPlane (camera_base cam') = m_nearPlane (camera_base cam).
Proof.
  intros Hinv. pose proof Hinv as (Hty & Hlen & Hortho).
  destruct (directional_update W Wcam pCamera l Hinv) as (l' & Hup & Hinv' & _).
  exists l'. split; [exact Hup|]. split; [exact Hinv'|].
  unfold updateShadowCameras in Hup. rewrite Hty in Hup.
  destruct (update_loop _ 0 (m_shadowCameras l)) as [cams'|] eqn:Hloop in Hup;
    cbn [mbind option_bind] in Hup; [|discriminate].
  injection Hup as <-. cbn [m_shadowCameras].
  destruct (update_loop_spec (directional_step W Wcam pCamera)
              (fun k cam cam' => directional_camera W Wcam pCamera k cam' /\
                 m_nearPlane (camera_base cam') = m_nearPlane (camera_base cam))
              (m_shadowCameras l) 0)
    as (cams2 & Hloop2 & _ & Hall).
  { intros k cam Hk. change (0 + k) with k.
    assert (k < 4) as Hk4 by (rewrite <- Hlen; by apply (lookup_lt_Some _ _ cam)).
    rewrite Forall_forall in Hortho.
    assert (is_ortho cam = true) as Hcam
      by (apply Hortho; by apply (list_elem_of_lookup_2 _ k)).
    destruct cam as [p|o]; [discriminate|].
    destruct (limits_lookup k Hk4) as (t0 & t1 & Ht0 & Ht1).
    unfold directional_step. rewrite Ht0, Ht1. cbn [mbind option_bind].
    destruct (getFrustumPoints_cons Wcam pCamera t0 t1) as (p0 & rest & Hpts).
    destruct (getOBB W (getFrustumPoints Wcam pCamera t0 t1))
      as [[[[center width] height] depth]|] eqn:Hobb;
      [|rewrite Hpts in Hobb; discriminate].
    cbn [mbind option_bind].
    eexists. split; [reflexivity|]. split; [|reflexivity].
    eexists _, t0, t1, center, width, height, depth.
    split; [reflexivity|]. split; [exact Ht0|]. split; [exact Ht1|].
    split; [exact Hobb|]. repeat (split; [reflexivity|]). reflexivity. }
  rewrite Hloop in Hloop2. injection Hloop2 as <-.
  intros i cam' Hi. destruct (Hall i cam' Hi) as (cam & Hcam & _ & Hdc & Hnear).
  split; [exact Hdc|]. exists cam. split; assumption.
Qed.

Lemma directional_run_near os :
  forall l, directional_inv l -> default_near l ->
  exists l', run_light_ops os l = Some l' /\ directional_inv l' /\ default_near l'.
Proof.
  induction os as [|o os IH]; intros l Hinv Hnear; simpl; [eauto|].
  destruct o as [param | W Wcam pCamera]; simpl.
  - apply IH; assumption.
  - destruct (directional_update_cameras W Wcam pCamera l Hinv)
      as (l1 & -> & Hinv1 & Hcams).
    simpl. apply IH; [exact Hinv1|].
    apply Forall_forall. intros cam' Hin.
    apply list_elem_of_lookup_1 in Hin as [i Hi].
    destruct (Hcams i cam' Hi) as (_ & cam & Hcam & ->).
    unfold default_near in Hnear. rewrite Forall_forall in Hnear.
    apply Hnear. by apply (list_elem_of_lookup_2 _ i).
Qed.

(** X11.  The shadow cameras of a directional light: no call writes their
    near plane, which stays the one of the constructor of the camera; each
    call of [updateShadowCameras] gives the [i]-th camera the axes of the
    light, width and height of the box around the [i]-th segment of the
    viewer's frustum, five times the depth of the box as far plane, and a
    position nine tenths of the far plane behind the centre of the box. *)
Theorem X11_directional_shadow_cameras :
  (forall os, exists l,
     run_light_ops os VEDirectionalLight = Some l /\
     Forall (fun c => m_nearPlane (camera_base c)
                      = m_nearPlane (ortho_base new_VECameraOrtho))
            (m_shadowCameras l)) /\
  (forall os W Wcam pCamera, exists l,
     run_light_ops (os ++ [UpdateShadowCameras W Wcam pCamera]) VEDirectionalLight
     = Some l /\
     forall i cam, m_shadowCameras l !! i = Some cam ->
                   directional_camera W Wcam pCamera i cam).
Proof.
  assert (default_near VEDirectionalLight) as Hnear0.
  { unfold default_near. simpl. repeat constructor. }
  split.
  - intros os.
    destruct (directional_run_near os _ VEDirectionalLight_inv Hnear0)
      as (l & Hrun & _ & Hnear).
    exists l. split; assumption.
  - intros os W Wcam pCamera. rewrite run_light_ops_app.
    destruct (directional_run os _ VEDirectionalLight_inv) as (l & -> & Hinv).
    simpl.
    destruct (directional_update_cameras W Wcam pCamera l Hinv)
      as (l' & -> & _ & Hcams).
    simpl. exists l'. split; [reflexivity|].
    intros i cam Hi. apply (Hcams i cam Hi).
Qed.

End MoreShadowCameras.

(** ** Shadow passes of the lights of the engine *)

Section ShadowFramebuffers.

Context `{Libm} `{CameraDefaults}.

Lemma light_of_engine_cameras (l : VELight) :
  light_of_engine l -> length (m_shadowCameras l) <= 6.
Proof.
  intros (os & l0 & Hl0 & Hrun).
  destruct Hl0 as [-> | [-> | ->]].
  - destruct (directional_run os _ VEDirectionalLight_inv) as (l' & Hrun' & _ & Hlen & _).
    assert (l' = l) as -> by congruence. lia.
  - destruct (point_run os _ VEPointLight_inv) as (l' & Hrun' & _ & Hlen & _).
    assert (l' = l) as -> by congruence. lia.
  - destruct (spot_run os _ VESpotLight_inv) as (l' & Hrun' & _ & Hlen & _).
    assert (l' = l) as -> by congruence. lia.
Qed.

(** X12.  The shadow passes stay within six shadow framebuffers per swap
    chain image: when the active lights are directional, point and spot
    lights as their constructors make them, with any calls made on them
    since, every shadow pass of the command buffer renders to a framebuffer
    [m_shadowFramebuffers[imageIndex][j]] with [j] below 6. *)
Theorem X12_six_shadow_framebuffers_suffice (sm : VESceneManager)
  (subs : list VESubrender) (idx : nat) (c : Cmd) (k j : nat) :
  (forall pLight, pLight ∈ m_lights sm -> light_of_engine (light_at sm pLight)) ->
  c ∈ recordCmdBuffers sm subs idx ->
  shadow_framebuffer_of c = Some (k, j) ->
  k = idx /\ j < 6.
Proof.
  intros Hlights Hin Hfb.
  apply elem_of_rounds in Hin as [-> | [-> | (i & pLight & Hl & Hin)]];
    [discriminate | discriminate |].
  apply elem_of_light_round in Hin as [(j' & Hj' & Hin) | Hin].
  - unfold shadow_pass in Hin.
    apply elem_of_cons in Hin as [-> | Hin].
    + injection Hfb as <- <-. split; [reflexivity|].
      pose proof (light_of_engine_cameras _
                    (Hlights pLight (list_elem_of_lookup_2 _ _ _ Hl))). lia.
    + apply elem_of_cons in Hin as [-> | Hin]; [discriminate|].
      apply list_elem_of_singleton in Hin as ->. discriminate.
  - unfold light_pass in Hin.
    apply elem_of_cons in Hin as [-> | Hin]; [discriminate|].
    apply elem_of_app in Hin as [Hin | Hin].
    + apply list_elem_of_In, in_flat_map in Hin as (pSub & _ & Hin).
      destruct (bool_decide (i = 0) || bool_decide (getClass pSub = _));
        simpl in Hin; [|contradiction].
      destruct Hin as [<- | [<- | []]]; discriminate.
    + apply list_elem_of_singleton in Hin as ->. discriminate.
Qed.

End ShadowFramebuffers.

(** ** Command buffers from frame to frame *)

Section FrameToFrame.

Context `{Engine}.

(** [drawFrame] after a successful acquire: what it leaves in the
    renderer. *)
Lemma drawFrame_records sm result index r :
  result = VK_SUCCESS \/ result = VK_SUBOPTIMAL_KHR ->
  exists r',
    drawFrame sm result index r = Returned r' /\
    m_commandBuffers r'
    = (if m_commandBuffers r !! index is Some _ then m_commandBuffers r
       else <[index := recordCmdBuffers sm (m_subrenderers r) index]> (m_commandBuffers r)) /\
    calls r' = calls r ++ [vkWaitForFences (m_currentFrame r);
                           vkAcquireNextImageKHR (m_currentFrame r)]
               ++ (if m_commandBuffers r !! index is Some _ then []
                   else [call_recordCmdBuffers index])
               ++ [vhCmdSubmitCommandBuffer index (m_currentFrame r)] /\
    m_subrenderers r' = m_subrenderers r /\
    imageIndex r' = index /\
    m_currentFrame r' = m_currentFrame r /\
    m_framebufferResized r' = m_framebufferResized r.
Proof.
  intros Hres. unfold drawFrame, log.
  cbn [calls m_currentFrame m_subrenderers m_commandBuffers
       m_framebufferResized imageIndex].
  rewrite (bool_decide_eq_false_2 (result = VK_ERROR_OUT_OF_DATE_KHR))
    by (destruct Hres as [-> | ->]; discriminate).
  assert (bool_decide (result ≠ VK_SUCCESS) && bool_decide (result ≠ VK_SUBOPTIMAL_KHR)
          = false) as ->.
  { destruct Hres as [-> | ->].
    - rewrite (bool_decide_eq_false_2 (VK_SUCCESS ≠ VK_SUCCESS)) by tauto. reflexivity.
    - rewrite (bool_decide_eq_false_2 (VK_SUBOPTIMAL_KHR ≠ VK_SUBOPTIMAL_KHR)) by tauto.
      apply andb_false_r. }
  destruct (m_commandBuffers r !! index) as [cmds|];
    cbn [calls m_currentFrame m_subrenderers m_commandBuffers
         m_framebufferResized imageIndex];
    eexists; (split; [reflexivity|]);
    cbn [calls m_currentFrame m_subrenderers m_commandBuffers
         m_framebufferResized imageIndex];
    rewrite <- ?app_assoc; repeat split; reflexivity.
Qed.

(** [presentFrame] when nothing is wrong keeps the command buffers. *)
Lemma presentFrame_keeps r :
  m_framebufferResized r = false ->
  exists r',
    presentFrame VK_SUCCESS r = Returned r' /\
    m_commandBuffers r' = m_commandBuffers r /\
    m_subrenderers r' = m_subrenderers r /\
    m_framebufferResized r' = false /\
    calls r' = calls r ++ [vhBufTransitionImageLayout (imageIndex r);
                           vhRenderPresentResult (imageIndex r) (m_currentFrame r)].
Proof.
  intros Hflag. unfold presentFrame, log.
  cbn [calls m_currentFrame m_subrenderers m_commandBuffers
       m_framebufferResized imageIndex].
  rewrite Hflag.
  rewrite (bool_decide_eq_false_2 (VK_SUCCESS = VK_ERROR_OUT_OF_DATE_KHR)) by discriminate.
  rewrite (bool_decide_eq_false_2 (VK_SUCCESS = VK_SUBOPTIMAL_KHR)) by discriminate.
  rewrite (bool_decide_eq_false_2 (VK_SUCCESS ≠ VK_SUCCESS)) by tauto.
  cbn [orb]. eexists. split; [reflexivity|].
  cbn [calls m_currentFrame m_subrenderers m_commandBuffers
       m_framebufferResized imageIndex].
  rewrite <- ?app_assoc. repeat split; reflexivity.
Qed.


(** X13.  A command buffer is recorded once and then used again: when two
    frames get the same swap chain image and nothing made the swap chain
    anew in between, the second [drawFrame] records nothing and submits the
    buffer of the first, which holds the lights that were on then, whatever
    lights are on by now. *)
Theorem X13_command_buffer_is_used_again (sm1 sm2 : VESceneManager)
  (result1 result2 : VkResult) (index : nat) (r : VERendererForward) :
  m_commandBuffers r !! index = None ->
  m_framebufferResized r = false ->
  result1 = VK_SUCCESS \/ result1 = VK_SUBOPTIMAL_KHR ->
  result2 = VK_SUCCESS \/ result2 = VK_SUBOPTIMAL_KHR ->
  exists r1 r2 r3,
    drawFrame sm1 result1 index r = Returned r1 /\
    presentFrame VK_SUCCESS r1 = Returned r2 /\
    drawFrame sm2 result2 index r2 = Returned r3 /\
    m_commandBuffers r3 !! index
    = Some (recordCmdBuffers sm1 (m_subrenderers r) index) /\
    calls r3 = calls r2 ++ [vkWaitForFences (m_currentFrame r2);
                            vkAcquireNextImageKHR (m_currentFrame r2);
                            vhCmdSubmitCommandBuffer index (m_currentFrame r2)].
Proof.
  intros Hnone Hflag Hres1 Hres2.
  destruct (drawFrame_records sm1 result1 index r Hres1)
    as (r1 & Hd1 & Hbuf1 & _ & Hsub1 & _ & _ & Hflag1).
  rewrite Hnone in Hbuf1. rewrite Hflag in Hflag1.
  destruct (presentFrame_keeps r1 Hflag1) as (r2 & Hp & Hbuf2 & Hsub2 & _ & _).
  destruct (drawFrame_records sm2 result2 index r2 Hres2)
    as (r3 & Hd3 & Hbuf3 & Hcalls3 & _).
  assert (m_commandBuffers r2 !! index
          = Some (recordCmdBuffers sm1 (m_subrenderers r) index)) as Hat.
  { rewrite Hbuf2, Hbuf1. apply lookup_insert_eq. }
  rewrite Hat in Hbuf3, Hcalls3.
  exists r1, r2, r3. repeat (split; [assumption|]).
  split; [rewrite Hbuf3; exact Hat | exact Hcalls3].
Qed.


End FrameToFrame.

(** ** The order of binary32 numbers *)

Section FloatOrder.

Ltac float_order :=
  unfold F32.ltb, SFltb, SFcompare;
  repeat match goal with
         | x : float |- _ => destruct x as [[]|[]| |[] ? ?]
         end;
  cbn [F32.is_nan];
  repeat match goal with
         | |- context [Z.compare ?x ?y] => destruct (Z.compare_spec x y); cbn
         | |- context [Pos.compare_cont Eq ?x ?y] =>
             change (Pos.compare_cont Eq x y) with (Pos.compare x y);
             destruct (Pos.compare_spec x y); cbn
         end;
  intros; subst; first [congruence | lia].

(** [a < c] and not [a < b] give not [c < b], NaN or not. *)
Lemma ltb_above (a b c : float) :
  F32.ltb a c = true -> F32.ltb a b = false -> F32.ltb c b = false.
Proof. revert a b c. intros a b c. float_order. Qed.

Lemma ltb_irrefl (a : float) : F32.ltb a a = false.
Proof. float_order. Qed.

Lemma ltb_asym (a b : float) : F32.ltb a b = true -> F32.ltb b a = false.
Proof. float_order. Qed.

(** Not [a < b] and not [b < c] give not [a < c] when [b] is a number. *)
Lemma ltb_le_trans (a b c : float) :
  F32.is_nan b = false ->
  F32.ltb a b = false -> F32.ltb b c = false -> F32.ltb a c = false.
Proof. float_order. Qed.

End FloatOrder.

(** ** The box around a set of points ([VESceneNode::getOBB]) *)

Section OBB.

Lemma maxvalue_fold (axis : vec4) (rest seen : list vec4) :
  forall m,
  (exists q, q ∈ seen /\ m = dot4 axis q) ->
  (forall p, p ∈ seen -> (m <? dot4 axis p)%f32 = false) ->
  let r := foldl (fun m p => let tmp := dot4 axis p in
                             if (m <? tmp)%f32 then tmp else m) m rest in
  (exists q, q ∈ seen ++ rest /\ r = dot4 axis q) /\
  (forall p, p ∈ seen ++ rest -> (r <? dot4 axis p)%f32 = false).
Proof.
  revert seen. induction rest as [|p rest IH]; intros seen m Hatt Hmax.
  - simpl. rewrite app_nil_r. split; assumption.
  - cbn [foldl]. cbn zeta.
    replace (seen ++ p :: rest) with ((seen ++ [p]) ++ rest)
      by (rewrite <- app_assoc; reflexivity).
    apply IH.
    + destruct (m <? dot4 axis p)%f32 eqn:Hlt.
      * exists p. split; [|reflexivity]. apply elem_of_app. right.
        apply list_elem_of_singleton. reflexivity.
      * destruct Hatt as (q & Hq & ->). exists q. split; [|reflexivity].
        apply elem_of_app. left. exact Hq.
    + intros p' Hp'. apply elem_of_app in Hp' as [Hp' | Hp'].
      * destruct (m <? dot4 axis p)%f32 eqn:Hlt; [|apply Hmax; exact Hp'].
        apply (ltb_above m); [exact Hlt | apply Hmax; exact Hp'].
      * apply list_elem_of_singleton in Hp' as ->.
        destruct (m <? dot4 axis p)%f32 eqn:Hlt; [apply ltb_irrefl | exact Hlt].
Qed.

Lemma maxvalue_spec (axis p0 : vec4) (rest : list vec4) :
  (exists q, q ∈ p0 :: rest /\ maxvalue axis p0 rest = dot4 axis q) /\
  (forall p, p ∈ p0 :: rest -> (maxvalue axis p0 rest <? dot4 axis p)%f32 = false).
Proof.
  apply (maxvalue_fold axis rest [p0] (dot4 axis p0)).
  - exists p0. split; [|reflexivity]. apply list_elem_of_singleton. reflexivity.
  - intros p Hp. apply list_elem_of_singleton in Hp as ->. apply ltb_irrefl.
Qed.

Lemma maxvalue_spans (axis p0 : vec4) (rest : list vec4) :
  spans axis (p0 :: rest)
        (maxvalue axis p0 rest
         + maxvalue (scalar4 (- F32.one)%f32 axis) p0 rest)%f32.
Proof.
  destruct (maxvalue_spec axis p0 rest) as ((pmax & Hpmax & Hmax) & Hall).
  destruct (maxvalue_spec (scalar4 (- F32.one)%f32 axis) p0 rest)
    as ((pmin & Hpmin & Hmin) & Hall').
  exists pmin, pmax. split; [exact Hpmin|]. split; [exact Hpmax|].
  split; [rewrite Hmax, Hmin; reflexivity|].
  intros p Hp. rewrite <- Hmax, <- Hmin. split; [apply Hall | apply Hall']; exact Hp.
Qed.

(** X15.  The box of [getOBB] holds the points: width, height and depth are
    each the distance, along the x, y and z axis of the node, between two of
    the points beyond which no point lies in either direction, NaN or not.
    On an empty vector of points the function reads [points[0]], which is
    undefined. *)
Theorem X15_getOBB_holds_the_points (W : mat4) :
  getOBB W [] = None /\
  forall p0 rest, exists center width height depth,
    getOBB W (p0 :: rest) = Some (center, width, height, depth) /\
    spans (c0 W) (p0 :: rest) width /\
    spans (c1 W) (p0 :: rest) height /\
    spans (c2 W) (p0 :: rest) depth.
Proof.
  split; [reflexivity|]. intros p0 rest. unfold getOBB.
  eexists _, _, _, _. split; [reflexivity|].
  split; [|split]; apply maxvalue_spans.
Qed.

End OBB.

(** ** The radius of a mesh *)

Section MeshRadius.

Lemma shr_1_nonneg mrs : (0 <= shr_m mrs)%Z -> (0 <= shr_m (shr_1 mrs))%Z.
Proof.
  destruct mrs as [m r s]. simpl. intros Hm.
  destruct m as [|[p|p|]|p]; simpl; lia.
Qed.

Lemma iter_shr_1_nonneg p :
  forall mrs, (0 <= shr_m mrs)%Z -> (0 <= shr_m (SpecFloat.iter_pos shr_1 p mrs))%Z.
Proof.
  induction p as [p IH|p IH|]; intros mrs Hm; simpl.
  - apply IH, IH, shr_1_nonneg, Hm.
  - apply IH, IH, Hm.
  - apply shr_1_nonneg, Hm.
Qed.

Lemma shr_fexp_nonneg prec emax m e l :
  (0 <= m)%Z -> (0 <= shr_m (shr_fexp prec emax m e l).1)%Z.
Proof.
  intros Hm. unfold shr_fexp, shr.
  assert (0 <= shr_m (shr_record_of_loc m l))%Z as H0
    by (destruct l as [|[]]; exact Hm).
  destruct (fexp prec emax (Zdigits2 m + e) - e)%Z; simpl; try exact H0.
  apply iter_shr_1_nonneg, H0.
Qed.

Lemma round_nearest_even_nonneg m l : (0 <= m)%Z -> (0 <= round_nearest_even m l)%Z.
Proof.
  intros Hm. destruct l as [|[]]; simpl; try lia.
  destruct (Z.even m); lia.
Qed.

Lemma binary_round_aux_not_nan prec emax sx mx ex lx :
  (0 <= mx)%Z -> F32.is_nan (binary_round_aux prec emax sx mx ex lx) = false.
Proof.
  intros Hm. unfold binary_round_aux.
  pose proof (shr_fexp_nonneg prec emax mx ex lx Hm) as H1.
  destruct (shr_fexp prec emax mx ex lx) as [mrs' e']. simpl in H1.
  pose proof (shr_fexp_nonneg prec emax
                (round_nearest_even (shr_m mrs') (loc_of_shr_record mrs')) e' loc_Exact
                (round_nearest_even_nonneg _ _ H1)) as H2.
  destruct (shr_fexp prec emax _ e' loc_Exact) as [mrs'' e'']. simpl in H2.
  destruct (shr_m mrs'') as [|m|m]; [reflexivity | | lia].
  destruct (e'' <=? emax - prec)%Z; reflexivity.
Qed.

(** The square of a number is a number. *)
Lemma mul_self_not_nan (x : float) :
  F32.is_nan x = false -> F32.is_nan (x * x)%f32 = false.
Proof.
  destruct x as [s|s| |s m e]; try discriminate; intros _.
  - reflexivity.
  - reflexivity.
  - apply binary_round_aux_not_nan. lia.
Qed.

Lemma max_spec (a b : float) :
  F32.is_nan a = false -> F32.is_nan b = false ->
  (F32.max a b = a \/ F32.max a b = b) /\
  F32.is_nan (F32.max a b) = false /\
  F32.ltb (F32.max a b) a = false /\
  F32.ltb (F32.max a b) b = false.
Proof.
  intros Ha Hb. unfold F32.max. destruct (F32.ltb a b) eqn:Hlt.
  - split; [right; reflexivity|]. split; [exact Hb|].
    split; [apply ltb_asym, Hlt | apply ltb_irrefl].
  - split; [left; reflexivity|]. split; [exact Ha|].
    split; [apply ltb_irrefl | exact Hlt].
Qed.

Lemma radius_step_spec (r : float) (p : vec3) :
  F32.is_nan r = false -> vec3_has_nan p = false ->
  F32.is_nan (radius_step r p) = false /\
  (radius_step r p = r \/ radius_step r p ∈ squares p) /\
  F32.ltb (radius_step r p) r = false /\
  forall s, s ∈ squares p -> F32.ltb (radius_step r p) s = false.
Proof.
  intros Hr Hp. unfold vec3_has_nan in Hp.
  apply orb_false_elim in Hp as [Hp Hz]. apply orb_false_elim in Hp as [Hx Hy].
  apply mul_self_not_nan in Hx, Hy, Hz.
  unfold radius_step.
  destruct (max_spec _ _ Hx Hy) as (Hm1 & Hn1 & Hx1 & Hy1).
  set (m1 := F32.max (x3 p * x3 p)%f32 (y3 p * y3 p)%f32) in *.
  destruct (max_spec _ _ Hn1 Hz) as (Hm2 & Hn2 & H12 & Hz2).
  set (m2 := F32.max m1 (z3 p * z3 p)%f32) in *.
  destruct (max_spec _ _ Hn2 Hr) as (Hm3 & Hn3 & H23 & Hr3).
  set (m3 := F32.max m2 r) in *.
  split; [exact Hn3|]. split; [|split; [exact Hr3|]].
  - destruct Hm3 as [-> | ->]; [right | left; reflexivity].
    unfold squares. rewrite !elem_of_cons.
    destruct Hm2 as [-> | ->]; [|tauto].
    destruct Hm1 as [-> | ->]; tauto.
  - assert (F32.ltb m3 m1 = false) as H13
      by (apply (ltb_le_trans m3 m2 m1); assumption).
    intros s Hs. unfold squares in Hs. rewrite !elem_of_cons in Hs.
    destruct Hs as [-> | [-> | [-> | Hs]]]; [| | |inversion Hs].
    + apply (ltb_le_trans m3 m1); assumption.
    + apply (ltb_le_trans m3 m1); assumption.
    + apply (ltb_le_trans m3 m2); assumption.
Qed.

Lemma radius_fold (mVertices seen : list vec3) :
  Forall (fun p => vec3_has_nan p = false) mVertices ->
  forall r,
  F32.is_nan r = false ->
  (r = F32.zero \/ exists p, p ∈ seen /\ r ∈ squares p) ->
  (forall p s, p ∈ seen -> s ∈ squares p -> F32.ltb r s = false) ->
  let q := foldl radius_step r mVertices in
  F32.is_nan q = false /\
  (q = F32.zero \/ exists p, p ∈ seen ++ mVertices /\ q ∈ squares p) /\
  (forall p s, p ∈ seen ++ mVertices -> s ∈ squares p -> F32.ltb q s = false).
Proof.
  revert seen. induction mVertices as [|p ps IH]; intros seen Hall r Hr Hatt Hmax.
  - simpl. rewrite app_nil_r. auto.
  - apply Forall_cons in Hall as [Hp Hall]. cbn [foldl].
    replace (seen ++ p :: ps) with ((seen ++ [p]) ++ ps)
      by (rewrite <- app_assoc; reflexivity).
    destruct (radius_step_spec r p Hr Hp) as (Hn & Hwhich & Hrr & Hsq).
    apply IH; [exact Hall | exact Hn | |].
    + destruct Hwhich as [-> | Hin].
      * destruct Hatt as [-> | (p' & Hp' & Hin')]; [left; reflexivity|].
        right. exists p'. split; [apply elem_of_app; left|]; assumption.
      * right. exists p. split; [|exact Hin]. apply elem_of_app. right.
        apply list_elem_of_singleton. reflexivity.
    + intros p' s Hp' Hs. apply elem_of_app in Hp' as [Hp' | Hp'].
      * apply (ltb_le_trans _ r); [exact Hr | exact Hrr | exact (Hmax p' s Hp' Hs)].
      * apply list_elem_of_singleton in Hp' as ->. apply Hsq, Hs.
Qed.

Lemma foldl_radius_pos (vertices : list vhVertex) r :
  foldl (fun r v => radius_step r (pos v)) r vertices
  = foldl radius_step r (map pos vertices).
Proof.
  revert r. induction vertices as [|v vs IH]; intros r; [reflexivity|]. apply IH.
Qed.

(** X16.  The radius that both constructors of [VEMesh] compute, for
    positions without NaN: it is the square root of a number [q] that is the
    square of a coordinate of some vertex (or 0), and no square of a
    coordinate of any vertex is greater than [q].  So the radius is the
    largest coordinate by magnitude, not the largest distance from the
    origin. *)
Theorem X16_mesh_radius_is_the_largest_coordinate (mVertices : list vec3) :
  Forall (fun p => vec3_has_nan p = false) mVertices ->
  exists q,
    m_boundingSphereRadius (VEMesh_of_aiMesh mVertices) = F32.sqrt q /\
    (forall vertices, map pos vertices = mVertices ->
       m_boundingSphereRadius (VEMesh_of_vertices vertices) = F32.sqrt q) /\
    F32.is_nan q = false /\
    (q = F32.zero \/ exists p, p ∈ mVertices /\ q ∈ squares p) /\
    (forall p s, p ∈ mVertices -> s ∈ squares p -> F32.ltb q s = false).
Proof.
  intros Hall. exists (foldl radius_step F32.zero mVertices).
  split; [reflexivity|]. split.
  - intros vertices <-. unfold VEMesh_of_vertices. cbn [m_boundingSphereRadius].
    rewrite foldl_radius_pos. reflexivity.
  - apply (radius_fold mVertices [] Hall F32.zero); [reflexivity | left; reflexivity |].
    intros p s Hp. inversion Hp.
Qed.

End MeshRadius.

(** ** Making a scene node *)

Section NewSceneNode.

Lemma fresh_node_wf (h : heap) this m0 parent :
  tree_wf h -> h !! this = None ->
  from_option (fun p => is_Some (h !! p)) True parent ->
  tree_wf (<[this := mkSceneNode m0 parent []]> h).
Proof.
  intros Hwf Hfresh Hparent. split.
  - intros p n c Hp Hc. destruct (decide (p = this)) as [-> | Hne].
    + rewrite lookup_insert_eq in Hp. injection Hp as <-. inversion Hc.
    + rewrite lookup_insert_ne in Hp by auto.
      destruct (wf_child_parent h Hwf p n c Hp Hc) as (cn & Hcn & Hpar).
      exists cn. split; [|exact Hpar].
      rewrite lookup_insert_ne; [exact Hcn|]. intros <-. congruence.
  - intros p n Hp. destruct (decide (p = this)) as [-> | Hne].
    + rewrite lookup_insert_eq in Hp. injection Hp as <-. apply NoDup_nil_2.
    + rewrite lookup_insert_ne in Hp by auto. exact (wf_nodup h Hwf p n Hp).
  - intros c cn p Hc Hpar. destruct (decide (c = this)) as [-> | Hne].
    + rewrite lookup_insert_eq in Hc. injection Hc as <-. simpl in Hpar. subst parent.
      simpl in Hparent. destruct (decide (p = this)) as [-> | Hne].
      * rewrite lookup_insert_eq. eauto.
      * rewrite lookup_insert_ne by auto. exact Hparent.
    + rewrite lookup_insert_ne in Hc by auto.
      destruct (decide (p = this)) as [-> | Hne'].
      * rewrite lookup_insert_eq. eauto.
      * rewrite lookup_insert_ne by auto. exact (wf_parent_alive h Hwf c cn p Hc Hpar).
Qed.

Lemma set_transform_wf (h : heap) this n trans :
  tree_wf h -> h !! this = Some n ->
  tree_wf (<[this := set_transform n trans]> h).
Proof.
  intros Hwf Hn.
  replace (set_transform n trans)
    with (set_children (set_transform n trans) (m_children n)) by (destruct n; reflexivity).
  split.
  - intros p np c Hp Hc. destruct (decide (p = this)) as [-> | Hne].
    + rewrite lookup_insert_eq in Hp. injection Hp as <-. simpl in Hc.
      destruct (wf_child_parent h Hwf this n c Hn Hc) as (cn & Hcn & Hpar).
      destruct (decide (c = this)) as [-> | Hne].
      * rewrite lookup_insert_eq. eexists. split; [reflexivity|]. simpl. congruence.
      * rewrite lookup_insert_ne by auto. eauto.
    + rewrite lookup_insert_ne in Hp by auto.
      destruct (wf_child_parent h Hwf p np c Hp Hc) as (cn & Hcn & Hpar).
      destruct (decide (c = this)) as [-> | Hne'].
      * rewrite lookup_insert_eq. eexists. split; [reflexivity|]. simpl. congruence.
      * rewrite lookup_insert_ne by auto. eauto.
  - intros p np Hp. destruct (decide (p = this)) as [-> | Hne].
    + rewrite lookup_insert_eq in Hp. injection Hp as <-. simpl.
      exact (wf_nodup h Hwf this n Hn).
    + rewrite lookup_insert_ne in Hp by auto. exact (wf_nodup h Hwf p np Hp).
  - intros c cn p Hc Hpar.
    assert (exists cn0, h !! c = Some cn0 /\ m_parent cn0 = Some p) as (cn0 & Hc0 & Hp0).
    { destruct (decide (c = this)) as [-> | Hne].
      - rewrite lookup_insert_eq in Hc. injection Hc as <-. simpl in Hpar. eauto.
      - rewrite lookup_insert_ne in Hc by auto. eauto. }
    destruct (wf_parent_alive h Hwf c cn0 p Hc0 Hp0) as [pn Hpn].
    destruct (decide (p = this)) as [-> | Hne].
    + rewrite lookup_insert_eq. eauto.
    + rewrite lookup_insert_ne by auto. eauto.
Qed.

(** The world transform reads only transforms and parent pointers. *)
Lemma getWorldTransform_agree (h h' : heap) :
  (forall q n, h !! q = Some n ->
     exists n', h' !! q = Some n' /\ m_transform n' = m_transform n /\
                m_parent n' = m_parent n) ->
  forall fuel q W, getWorldTransform fuel h q = Some W ->
                   getWorldTransform fuel h' q = Some W.
Proof.
  intros Hagree. induction fuel as [|fuel IH]; intros q W Hw; [discriminate|].
  simpl in Hw. destruct (h !! q) as [n|] eqn:Hq; simpl in Hw; [|discriminate].
  destruct (Hagree q n Hq) as (n' & Hq' & Ht & Hp).
  simpl. rewrite Hq'. simpl. rewrite Ht, Hp.
  destruct (m_parent n) as [p|]; [|exact Hw].
  destruct (getWorldTransform fuel h p) as [WP|] eqn:HWP; simpl in Hw; [|discriminate].
  rewrite (IH p WP HWP). exact Hw.
Qed.

(** X17.  The constructor of a scene node on well-formed child lists: the
    new node has the transform and the parent it was given and no children,
    it is appended once to the child list of its parent, every other node
    and list stays as it is, the child lists are well formed again, and the
    world transform of the new node is that of its parent times its own. *)
Theorem X17_new_scene_node (h : heap) (this : ptr) (m0 transf : mat4)
  (parent : option ptr) :
  tree_wf h -> h !! this = None ->
  from_option (fun p => is_Some (h !! p)) True parent ->
  exists h',
    new_VESceneNode this m0 transf parent h = Some h' /\
    tree_wf h' /\
    h' !! this = Some (mkSceneNode transf parent []) /\
    (forall p, parent = Some p -> children_of h' p = children_of h p ++ [this]) /\
    (forall q n, q <> this -> h !! q = Some n ->
       exists n', h' !! q = Some n' /\ m_transform n' = m_transform n /\
                  m_parent n' = m_parent n /\
                  (parent <> Some q -> m_children n' = m_children n)) /\
    (forall p fuel WP, parent = Some p -> getWorldTransform fuel h p = Some WP ->
       getWorldTransform (S fuel) h' this = Some (glm.mul WP transf)).
Proof.
  intros Hwf Hfresh Hparent.
  enough (exists h',
    new_VESceneNode this m0 transf parent h = Some h' /\
    tree_wf h' /\
    h' !! this = Some (mkSceneNode transf parent []) /\
    (forall p, parent = Some p -> children_of h' p = children_of h p ++ [this]) /\
    (forall q n, q <> this -> h !! q = Some n ->
       exists n', h' !! q = Some n' /\ m_transform n' = m_transform n /\
                  m_parent n' = m_parent n /\
                  (parent <> Some q -> m_children n' = m_children n)))
    as (h' & Hnew & Hwf' & Hthis & Hch & Hold).
  { exists h'. repeat (split; [assumption|]).
    intros p fuel WP -> HWP. simpl. rewrite Hthis. simpl.
    rewrite (getWorldTransform_agree h h') with (W := WP); [reflexivity | | exact HWP].
    intros q n Hq. assert (q <> this) as Hne by (intros ->; congruence).
    destruct (Hold q n Hne Hq) as (n' & Hq' & Ht & Hp & _). eauto. }
  unfold new_VESceneNode.
  pose proof (fresh_node_wf h this m0 parent Hwf Hfresh Hparent) as Hwf0.
  set (h0 := <[this := mkSceneNode m0 parent []]> h) in *.
  assert (h0 !! this = Some (mkSceneNode m0 parent [])) as Hthis0
    by apply lookup_insert_eq.
  destruct parent as [p|].
  - simpl in Hparent. destruct Hparent as [pn Hpn].
    assert (p <> this) as Hpt by (intros ->; congruence).
    assert (h0 !! p = Some pn) as Hp0 by (unfold h0; rewrite lookup_insert_ne; auto).
    destruct (addChild_reparent h0 p p this _ Hwf0 Hthis0 eq_refl (ex_intro _ pn Hp0))
      as (h1 & o' & Hadd & Hthis1 & Hpar1 & _ & Hch).
    destruct (addChild_steps p this h0 _ Hwf0 (ex_intro _ pn Hp0) Hthis0)
      as (hr & o1 & t & Hhr & Hhr_this & Ho1 & Ht & Hwfr & _ & Hnot & Hadd').
    rewrite Hadd in Hadd'. injection Hadd' as Hh1.
    destruct (addChild_wf p this h0 Hwf0 (ex_intro _ pn Hp0) (ex_intro _ _ Hthis0))
      as (h1' & Hadd'' & Hwf1 & _).
    rewrite Hadd in Hadd''. injection Hadd'' as <-.
    rewrite Hadd. cbn [mbind option_bind]. rewrite Hthis1. cbn [mbind option_bind].
    rewrite decide_True in Hch by reflexivity.
    assert (children_of h0 p = children_of h p) as Hch0.
    { unfold children_of. rewrite Hp0, Hpn. reflexivity. }
    assert (this ∉ children_of h p) as Hnotin.
    { unfold children_of. rewrite Hpn. intros Hin.
      destruct (wf_child_parent h Hwf p pn this Hpn Hin) as (cn & Hcn & _). congruence. }
    rewrite Hch0, (removeChild_loop_absent this _ _ 0 Hnotin) in Hch.
    (* the node at [this] in [h1] *)
    assert (o' = mkSceneNode m0 (Some p) []) as ->.
    { simpl in Hhr. rewrite Hp0 in Hhr. simpl in Hhr. subst hr.
      rewrite lookup_insert_ne in Hhr_this by auto.
      rewrite Hthis0 in Hhr_this. injection Hhr_this as <-.
      rewrite Hh1 in Hthis1. rewrite lookup_insert_ne in Hthis1 by auto.
      rewrite lookup_insert_eq in Hthis1. injection Hthis1 as <-. reflexivity. }
    eexists. split; [reflexivity|].
    split; [apply set_transform_wf; assumption|].
    split; [apply lookup_insert_eq|]. split.
    + intros p' Hp'. injection Hp' as <-.
      unfold children_of at 1. rewrite lookup_insert_ne by auto.
      fold (children_of h1 p). exact Hch.
    + intros q n Hq Hn.
      rewrite lookup_insert_ne by auto.
      simpl in Hhr. rewrite Hp0 in Hhr. simpl in Hhr. subst hr.
      assert (children_of h0 p = m_children pn) as Hcp
        by (unfold children_of; rewrite Hp0; reflexivity).
      rewrite Hcp, (removeChild_loop_absent this _ _ 0) in Ht, Hh1
        by (rewrite <- Hcp, Hch0; exact Hnotin).
      destruct (decide (q = p)) as [-> | Hqp].
      * rewrite Hh1, lookup_insert_eq.
        rewrite lookup_insert_ne, lookup_insert_eq in Ht by auto.
        injection Ht as <-. rewrite Hpn in Hn. injection Hn as <-.
        eexists. split; [reflexivity|]. simpl.
        split; [reflexivity|]. split; [reflexivity|]. intros Hne. congruence.
      * rewrite Hh1. rewrite !lookup_insert_ne by auto.
        unfold h0. rewrite lookup_insert_ne by auto.
        exists n. auto.
  - cbn [mbind option_bind]. rewrite Hthis0. cbn [mbind option_bind].
    eexists. split; [reflexivity|].
    split; [apply set_transform_wf; assumption|].
    split; [apply lookup_insert_eq|]. split; [discriminate|].
    intros q n Hq Hn. rewrite lookup_insert_ne by auto.
    unfold h0. rewrite lookup_insert_ne by auto. exists n. auto.
Qed.

End NewSceneNode.

(** ** Bounding spheres of entities *)

(** X18.  The bounding sphere of an entity.  An entity made with a mesh and
    a material answers with the sphere of the mesh, whose centre is the
    origin for every mesh that a constructor of [VEMesh] makes: the sphere
    does not follow the position of the entity.  An entity made with a mesh
    but without material does not keep the mesh; without a mesh the sphere
    has radius 1 around the position of the entity. *)
Theorem X18_bounding_sphere_of_an_entity (members : VEEntity) (transf : mat4)
  (pos : vec3) :
  (forall mVertices mat,
     getBoundingSphere
       (entity_setPosition pos
          (new_VEEntity members (Some (VEMesh_of_aiMesh mVertices)) (Some mat) transf))
     = (Vec3 F32.zero F32.zero F32.zero,
        m_boundingSphereRadius (VEMesh_of_aiMesh mVertices))) /\
  (forall vertices mat,
     getBoundingSphere
       (entity_setPosition pos
          (new_VEEntity members (Some (VEMesh_of_vertices vertices)) (Some mat) transf))
     = (Vec3 F32.zero F32.zero F32.zero,
        m_boundingSphereRadius (VEMesh_of_vertices vertices))) /\
  (forall mesh,
     m_pMesh (new_VEEntity members (Some mesh) None transf) = m_pMesh members /\
     m_drawEntity (new_VEEntity members (Some mesh) None transf) = m_drawEntity members) /\
  (forall pMesh pMat,
     m_pMesh (new_VEEntity members pMesh pMat transf) = None ->
     getBoundingSphere (entity_setPosition pos (new_VEEntity members pMesh pMat transf))
     = (pos, F32.one)).
Proof.
  split; [|split; [|split]].
  - reflexivity.
  - reflexivity.
  - intros mesh. split; reflexivity.
  - intros pMesh pMat Hnone. unfold getBoundingSphere, VEEntity_getBoundingSphere.
    assert (m_pMesh (entity_setPosition pos (new_VEEntity members pMesh pMat transf)) = None)
      as -> by exact Hnone.
    destruct pos; reflexivity.
Qed.

(** ** The meshes of the scene manager *)

Section Meshes.

Implicit Types (a : Assets) (x : aiMesh) (filekey name : string).

Lemma append_inv_head (s s1 s2 : string) : s +:+ s1 = s +:+ s2 -> s1 = s2.
Proof.
  induction s as [|c s IH]; simpl; intros Heq; [exact Heq|].
  injection Heq as Heq. exact (IH Heq).
Qed.

Lemma mesh_key_inj filekey x y :
  mesh_key filekey x = mesh_key filekey y <-> mName x = mName y.
Proof.
  unfold mesh_key. split; [|intros ->; reflexivity].
  intros Heq. apply append_inv_head in Heq. apply append_inv_head in Heq. exact Heq.
Qed.

(** A turn on a name that holds an object changes nothing and pushes the
    object. *)
Lemma turn_stored filekey x a p :
  stored a (mesh_key filekey x) p ->
  createMeshes_turn filekey x a = (a, Some p).
Proof.
  unfold stored, createMeshes_turn, at_key. intros ->. destruct a; reflexivity.
Qed.

(** A turn on a name that holds no object makes one at an address not in
    use, from the vertices of the mesh. *)
Lemma turn_new filekey x a :
  (forall p, ~ stored a (mesh_key filekey x) p) ->
  exists p,
    createMeshes_turn filekey x a
    = (mkAssets (<[mesh_key filekey x := Some p]> (m_meshes a))
                (<[p := VEMesh_of_aiMesh (mVertices x)]> (objects a)), Some p) /\
    objects a !! p = None.
Proof.
  intros Hno. unfold createMeshes_turn, at_key, new_VEMesh.
  exists (fresh (dom (objects a))).
  split; [|apply not_elem_of_dom, is_fresh].
  destruct (m_meshes a !! mesh_key filekey x) as [[p|]|] eqn:Hk.
  - exfalso. exact (Hno p Hk).
  - reflexivity.
  - rewrite insert_insert_eq. reflexivity.
Qed.

(** What a turn keeps, whichever way it goes. *)
Lemma turn_spec filekey x a :
  exists a1 p,
    createMeshes_turn filekey x a = (a1, Some p) /\
    stored a1 (mesh_key filekey x) p /\
    (forall name q, stored a name q -> stored a1 name q) /\
    (forall q v, objects a !! q = Some v -> objects a1 !! q = Some v) /\
    (forall name q, stored a1 name q -> stored a name q \/ name = mesh_key filekey x) /\
    ((forall q, ~ stored a (mesh_key filekey x) q) ->
     objects a !! p = None /\
     objects a1 !! p = Some (VEMesh_of_aiMesh (mVertices x))).
Proof.
  destruct (m_meshes a !! mesh_key filekey x) as [[p|]|] eqn:Hk.
  - exists a, p. rewrite (turn_stored filekey x a p Hk).
    split; [reflexivity|]. split; [exact Hk|]. split; [auto|]. split; [auto|].
    split; [auto|]. intros Hno. exfalso. exact (Hno p Hk).
  - destruct (turn_new filekey x a) as (p & Hturn & Hfresh).
    { intros q Hq. unfold stored in Hq. congruence. }
    eexists _, p. split; [exact Hturn|]. unfold stored. cbn [m_meshes objects].
    split; [apply lookup_insert_eq|]. split; [|split; [|split]].
    + intros name q Hq. rewrite lookup_insert_ne; [exact Hq|]. intros <-. congruence.
    + intros q v Hq. rewrite lookup_insert_ne; [exact Hq|]. intros <-. congruence.
    + intros name q Hq. destruct (decide (mesh_key filekey x = name)) as [<- | Hne];
        [right; reflexivity|]. left. rewrite lookup_insert_ne in Hq by exact Hne. exact Hq.
    + intros _. split; [exact Hfresh | apply lookup_insert_eq].
  - destruct (turn_new filekey x a) as (p & Hturn & Hfresh).
    { intros q Hq. unfold stored in Hq. congruence. }
    eexists _, p. split; [exact Hturn|]. unfold stored. cbn [m_meshes objects].
    split; [apply lookup_insert_eq|]. split; [|split; [|split]].
    + intros name q Hq. rewrite lookup_insert_ne; [exact Hq|]. intros <-. congruence.
    + intros q v Hq. rewrite lookup_insert_ne; [exact Hq|]. intros <-. congruence.
    + intros name q Hq. destruct (decide (mesh_key filekey x = name)) as [<- | Hne];
        [right; reflexivity|]. left. rewrite lookup_insert_ne in Hq by exact Hne. exact Hq.
    + intros _. split; [exact Hfresh | apply lookup_insert_eq].
Qed.

Lemma createMeshes_acc mMeshes filekey :
  forall a acc,
  createMeshes mMeshes filekey a acc
  = ((createMeshes mMeshes filekey a []).1,
     acc ++ (createMeshes mMeshes filekey a []).2).
Proof.
  induction mMeshes as [|x rest IH]; intros a acc; simpl.
  - rewrite app_nil_r. reflexivity.
  - destruct (createMeshes_turn filekey x a) as [a1 pMesh].
    rewrite (IH a1 (acc ++ [pMesh])), (IH a1 [pMesh]). simpl.
    rewrite <- app_assoc. reflexivity.
Qed.

Lemma createMeshes_spec mMeshes filekey :
  forall a, exists a' meshes,
    createMeshes mMeshes filekey a [] = (a', meshes) /\
    length meshes = length mMeshes /\
    (forall name q, stored a name q -> stored a' name q) /\
    (forall q v, objects a !! q = Some v -> objects a' !! q = Some v) /\
    (forall i x, mMeshes !! i = Some x ->
       exists p, meshes !! i = Some (Some p) /\ stored a' (mesh_key filekey x) p) /\
    (forall i x, mMeshes !! i = Some x ->
       (forall q, ~ stored a (mesh_key filekey x) q) ->
       (forall k z, k < i -> mMeshes !! k = Some z -> mName z <> mName x) ->
       exists p, meshes !! i = Some (Some p) /\
                 objects a !! p = None /\
                 objects a' !! p = Some (VEMesh_of_aiMesh (mVertices x))).
Proof.
  induction mMeshes as [|x rest IH]; intros a.
  - exists a, []. split; [reflexivity|]. split; [reflexivity|].
    split; [auto|]. split; [auto|]. split; intros i y Hi; discriminate.
  - destruct (turn_spec filekey x a)
      as (a1 & p & Hturn & Hp & Hmono & Hobj & Hback & Hnew).
    destruct (IH a1) as (a' & meshes & Hrest & Hlen & Hmono' & Hobj' & Hall & Hfirst).
    exists a', (Some p :: meshes).
    split.
    { simpl. rewrite Hturn, createMeshes_acc, Hrest. reflexivity. }
    split; [simpl; congruence|]. split; [auto|]. split; [auto|]. split.
    + intros [|i] y Hi; simpl in Hi.
      * injection Hi as <-. exists p. split; [reflexivity|]. apply Hmono', Hp.
      * apply (Hall i y Hi).
    + intros [|i] y Hi Hno Hbefore; simpl in Hi.
      * injection Hi as <-. exists p. split; [reflexivity|].
        destruct (Hnew Hno) as [Hfresh Hat]. split; [exact Hfresh|]. apply Hobj', Hat.
      * assert (mName x <> mName y) as Hxy by (apply (Hbefore 0 x); [lia | reflexivity]).
        destruct (Hfirst i y Hi) as (q & Hq & Hfresh & Hat).
        { intros q Hq. destruct (Hback _ _ Hq) as [Hq' | Heq]; [exact (Hno q Hq')|].
          apply mesh_key_inj in Heq. congruence. }
        { intros k z Hk Hz. apply (Hbefore (S k) z); [lia | exact Hz]. }
        exists q. split; [exact Hq|]. split; [|exact Hat].
        destruct (objects a !! q) as [v|] eqn:Hv; [|reflexivity].
        rewrite (Hobj q v Hv) in Hfresh. discriminate.
Qed.

(** Nothing is made for meshes whose names all hold objects. *)
Lemma createMeshes_all_stored mMeshes filekey :
  forall a meshes,
  (forall i x, mMeshes !! i = Some x ->
     exists p, meshes !! i = Some (Some p) /\ stored a (mesh_key filekey x) p) ->
  length meshes = length mMeshes ->
  createMeshes mMeshes filekey a [] = (a, meshes).
Proof.
  induction mMeshes as [|x rest IH]; intros a meshes Hall Hlen.
  - destruct meshes; [reflexivity | discriminate].
  - destruct meshes as [|q meshes]; [discriminate|].
    destruct (Hall 0 x eq_refl) as (p & Hq & Hp). injection Hq as ->.
    simpl. rewrite (turn_stored filekey x a p Hp), createMeshes_acc.
    rewrite (IH a meshes); [reflexivity| |simpl in Hlen; lia].
    intros i y Hi. apply (Hall (S i) y Hi).
Qed.

(** X19.  [createMeshes] keeps one [VEMesh] per name.  It returns one
    non-null pointer for each mesh of the file, the one that the map holds
    under the name of the mesh afterwards.  Meshes of the file that have the
    same name therefore get the same [VEMesh]: the one made from the
    vertices of the first of them, when the name held no object before.
    Loading the file again makes nothing and returns the same pointers. *)
Theorem X19_createMeshes_shares_by_name (mMeshes : list aiMesh) (filekey : string)
  (a : Assets) :
  exists a' meshes,
    createMeshes mMeshes filekey a [] = (a', meshes) /\
    length meshes = length mMeshes /\
    (forall i x, mMeshes !! i = Some x ->
       exists p, meshes !! i = Some (Some p) /\
                 m_meshes a' !! mesh_key filekey x = Some (Some p)) /\
    (forall i j x y, mMeshes !! i = Some x -> mMeshes !! j = Some y ->
       mName x = mName y -> meshes !! i = meshes !! j) /\
    (forall i x, mMeshes !! i = Some x ->
       (forall q, m_meshes a !! mesh_key filekey x <> Some (Some q)) ->
       (forall k z, k < i -> mMeshes !! k = Some z -> mName z <> mName x) ->
       exists p, meshes !! i = Some (Some p) /\
                 objects a !! p = None /\
                 objects a' !! p = Some (VEMesh_of_aiMesh (mVertices x))) /\
    createMeshes mMeshes filekey a' [] = (a', meshes).
Proof.
  destruct (createMeshes_spec mMeshes filekey a)
    as (a' & meshes & Hrun & Hlen & _ & _ & Hall & Hfirst).
  exists a', meshes. split; [exact Hrun|]. split; [exact Hlen|].
  split; [exact Hall|]. split; [|split].
  - intros i j x y Hi Hj Hxy.
    destruct (Hall i x Hi) as (p & -> & Hp). destruct (Hall j y Hj) as (q & -> & Hq).
    apply (mesh_key_inj filekey) in Hxy. unfold stored in Hp, Hq. rewrite Hxy in Hp.
    congruence.
  - exact Hfirst.
  - apply createMeshes_all_stored; [exact Hall | exact Hlen].
Qed.

Lemma turn_ok filekey x a :
  assets_ok a -> assets_ok (createMeshes_turn filekey x a).1.
Proof.
  intros [Halive Hinj].
  destruct (m_meshes a !! mesh_key filekey x) as [[p|]|] eqn:Hk.
  - rewrite (turn_stored filekey x a p Hk). split; assumption.
  - destruct (turn_new filekey x a) as (p & -> & Hfresh).
    { intros q Hq. unfold stored in Hq. congruence. }
    cbn [fst]. split; cbn [m_meshes objects].
    + intros name q Hq. destruct (decide (mesh_key filekey x = name)) as [<- | Hne].
      * rewrite lookup_insert_eq in Hq. injection Hq as <-. rewrite lookup_insert_eq. eauto.
      * rewrite lookup_insert_ne in Hq by exact Hne.
        destruct (Halive name q Hq) as [v Hv].
        rewrite lookup_insert_ne; [eauto|]. intros <-. congruence.
    + intros name1 name2 q H1 H2.
      destruct (decide (mesh_key filekey x = name1)) as [<- | Hne1];
        destruct (decide (mesh_key filekey x = name2)) as [<- | Hne2];
        [reflexivity | | |].
      * rewrite lookup_insert_eq in H1. injection H1 as <-.
        rewrite lookup_insert_ne in H2 by exact Hne2.
        destruct (Halive name2 p H2) as [v Hv]. congruence.
      * rewrite lookup_insert_eq in H2. injection H2 as <-.
        rewrite lookup_insert_ne in H1 by exact Hne1.
        destruct (Halive name1 p H1) as [v Hv]. congruence.
      * rewrite lookup_insert_ne in H1, H2 by assumption. exact (Hinj _ _ _ H1 H2).
  - destruct (turn_new filekey x a) as (p & -> & Hfresh).
    { intros q Hq. unfold stored in Hq. congruence. }
    cbn [fst]. split; cbn [m_meshes objects].
    + intros name q Hq. destruct (decide (mesh_key filekey x = name)) as [<- | Hne].
      * rewrite lookup_insert_eq in Hq. injection Hq as <-. rewrite lookup_insert_eq. eauto.
      * rewrite lookup_insert_ne in Hq by exact Hne.
        destruct (Halive name q Hq) as [v Hv].
        rewrite lookup_insert_ne; [eauto|]. intros <-. congruence.
    + intros name1 name2 q H1 H2.
      destruct (decide (mesh_key filekey x = name1)) as [<- | Hne1];
        destruct (decide (mesh_key filekey x = name2)) as [<- | Hne2];
        [reflexivity | | |].
      * rewrite lookup_insert_eq in H1. injection H1 as <-.
        rewrite lookup_insert_ne in H2 by exact Hne2.
        destruct (Halive name2 p H2) as [v Hv]. congruence.
      * rewrite lookup_insert_eq in H2. injection H2 as <-.
        rewrite lookup_insert_ne in H1 by exact Hne1.
        destruct (Halive name1 p H1) as [v Hv]. congruence.
      * rewrite lookup_insert_ne in H1, H2 by assumption. exact (Hinj _ _ _ H1 H2).
Qed.

Lemma createMeshes_ok mMeshes filekey :
  forall a, assets_ok a -> assets_ok (createMeshes mMeshes filekey a []).1.
Proof.
  induction mMeshes as [|x rest IH]; intros a Hok; [exact Hok|].
  simpl. pose proof (turn_ok filekey x a Hok) as Hok1.
  destruct (createMeshes_turn filekey x a) as [a1 pMesh].
  rewrite createMeshes_acc. cbn [fst]. apply IH, Hok1.
Qed.

(** [deleteMesh] on a name that holds an object, and on any other name. *)
Lemma deleteMesh_stored name a p :
  m_meshes a !! name = Some (Some p) ->
  deleteMesh name a = mkAssets (delete name (m_meshes a)) (delete p (objects a)).
Proof. unfold deleteMesh, at_key. intros ->. reflexivity. Qed.

Lemma deleteMesh_not_stored name a :
  (forall p, m_meshes a !! name <> Some (Some p)) ->
  deleteMesh name a = mkAssets (<[name := None]> (m_meshes a)) (objects a).
Proof.
  unfold deleteMesh, at_key. intros Hno.
  destruct (m_meshes a !! name) as [[p|]|] eqn:Hk.
  - exfalso. exact (Hno p eq_refl).
  - rewrite insert_id by exact Hk. reflexivity.
  - reflexivity.
Qed.

Lemma deleteMesh_ok name a : assets_ok a -> assets_ok (deleteMesh name a).
Proof.
  intros [Halive Hinj].
  destruct (m_meshes a !! name) as [[p|]|] eqn:Hk.
  - rewrite (deleteMesh_stored name a p Hk). split; cbn [m_meshes objects].
    + intros name' q Hq. apply lookup_delete_Some in Hq as [Hne Hq].
      destruct (Halive name' q Hq) as [v Hv].
      rewrite lookup_delete_ne; [eauto|]. intros <-. apply Hne. exact (Hinj _ _ _ Hk Hq).
    + intros name1 name2 q H1 H2.
      apply lookup_delete_Some in H1 as [_ H1]. apply lookup_delete_Some in H2 as [_ H2].
      exact (Hinj _ _ _ H1 H2).
  - rewrite deleteMesh_not_stored by (intros p; congruence).
    rewrite insert_id by exact Hk. destruct a. split; assumption.
  - rewrite deleteMesh_not_stored by (intros p; congruence).
    split; cbn [m_meshes objects].
    + intros name' q Hq. destruct (decide (name = name')) as [<- | Hne].
      * rewrite lookup_insert_eq in Hq. discriminate.
      * rewrite lookup_insert_ne in Hq by exact Hne. exact (Halive name' q Hq).
    + intros name1 name2 q H1 H2.
      destruct (decide (name = name1)) as [<- | Hne1];
        [rewrite lookup_insert_eq in H1; discriminate|].
      destruct (decide (name = name2)) as [<- | Hne2];
        [rewrite lookup_insert_eq in H2; discriminate|].
      rewrite lookup_insert_ne in H1, H2 by assumption. exact (Hinj _ _ _ H1 H2).
Qed.

(** X20.  Loading and deleting meshes in any order, from a scene manager
    without meshes: every pointer that the map [m_meshes] holds names an
    object that is alive, and no object is held under two names, so that
    [deleteMesh] never frees an object that the map still holds under
    another name.  [deleteMesh] frees the object of its name and takes the
    name out of the map; for a name that the map does not have it frees
    nothing, and the name enters the map with the null pointer. *)
Theorem X20_meshes_in_the_map_are_alive (os : list asset_op) :
  assets_ok (run_asset_ops os no_assets) /\
  (forall a name p, m_meshes a !! name = Some (Some p) ->
     m_meshes (deleteMesh name a) !! name = None /\
     objects (deleteMesh name a) !! p = None /\
     (forall q, q <> p -> objects (deleteMesh name a) !! q = objects a !! q)) /\
  (forall a name, m_meshes a !! name = None ->
     m_meshes (deleteMesh name a) !! name = Some None /\
     objects (deleteMesh name a) = objects a).
Proof.
  split; [|split].
  - assert (forall a, assets_ok a -> assets_ok (run_asset_ops os a)) as Hrun.
    { unfold run_asset_ops. induction os as [|o os IH]; intros a Hok; [exact Hok|].
      simpl. apply IH. destruct o as [mMeshes filekey | name]; simpl.
      - apply createMeshes_ok, Hok.
      - apply deleteMesh_ok, Hok. }
    apply Hrun. split; intros *; cbn; rewrite lookup_empty; discriminate.
  - intros a name p Hk. rewrite (deleteMesh_stored name a p Hk). cbn [m_meshes objects].
    split; [apply lookup_delete_eq|]. split; [apply lookup_delete_eq|].
    intros q Hq. apply lookup_delete_ne. auto.
  - intros a name Hk. rewrite deleteMesh_not_stored by (intros p; congruence).
    cbn [m_meshes objects]. split; [apply lookup_insert_eq | reflexivity].
Qed.

End Meshes.

(** ** The mouse *)

Section Mouse.

Context `{Libm}.

Lemma run_mouse_camera_step (evs : list mouse_event) :
  forall l cam consumed,
  (foldl on_mouse_event (l, cam, consumed) evs).1.2
  = (foldl on_mouse_event (l, cam, []) evs).1.2.
Proof.
  induction evs as [|e evs IH]; intros l cam consumed; [reflexivity|].
  simpl. destruct e as [b a | x y dt].
  - destruct (onMouseButton b a l) as [l' r]. rewrite IH. symmetry. apply IH.
  - destruct (onMouseMove x y dt l cam) as [[l' cam'] r]. rewrite IH. symmetry. apply IH.
Qed.

Lemma onMouseButton_click b a l :
  is_click (MouseButton b a) = true ->
  m_usePrevCursorPosition (onMouseButton b a l).1 = false.
Proof.
  unfold is_click, onMouseButton. intros Hc.
  destruct (bool_decide (a = GLFW_PRESS)).
  - destruct (bool_decide (b = GLFW_MOUSE_BUTTON_RIGHT)); reflexivity.
  - simpl in Hc. rewrite Hc.
    destruct (bool_decide (b = GLFW_MOUSE_BUTTON_RIGHT)); reflexivity.
Qed.

Lemma onMouseButton_other b a l :
  is_click (MouseButton b a) = false -> (onMouseButton b a l).1 = l.
Proof.
  unfold is_click, onMouseButton. intros Hc.
  apply orb_false_elim in Hc as [-> ->]. reflexivity.
Qed.

Lemma no_two_moves_camera (evs : list mouse_event) :
  forall after_move l cam,
  (m_usePrevCursorPosition l = true -> after_move = true) ->
  no_two_moves after_move evs = true ->
  (run_mouse evs l cam).1.2 = cam.
Proof.
  unfold run_mouse.
  induction evs as [|e evs IH]; intros after_move l cam Hprev Hno; [reflexivity|].
  simpl in Hno |- *. destruct e as [b a | x y dt].
  - destruct (onMouseButton b a l) as [l' r] eqn:Hb.
    rewrite run_mouse_camera_step.
    apply (IH (if is_click (MouseButton b a) then false else after_move)); [|exact Hno].
    destruct (is_click (MouseButton b a)) eqn:Hc.
    + pose proof (onMouseButton_click b a l Hc) as Hl. rewrite Hb in Hl. simpl in Hl.
      congruence.
    + pose proof (onMouseButton_other b a l Hc) as Hl. rewrite Hb in Hl. simpl in Hl.
      subst l'. exact Hprev.
  - apply andb_true_iff in Hno as [Hafter Hno].
    apply negb_true_iff in Hafter. subst after_move.
    assert (m_usePrevCursorPosition l = false) as Hfalse
      by (destruct (m_usePrevCursorPosition l); [discriminate (Hprev eq_refl) | reflexivity]).
    unfold onMouseMove. rewrite Hfalse.
    destruct (m_rightButtonClicked l); cbn [negb];
      rewrite run_mouse_camera_step; apply (IH true); auto.
Qed.

Lemma right_button_up_camera (evs : list mouse_event) :
  forall l cam,
  m_rightButtonClicked l = false ->
  Forall (fun e => is_right_press e = false) evs ->
  (run_mouse evs l cam).1.2 = cam.
Proof.
  unfold run_mouse.
  induction evs as [|e evs IH]; intros l cam Hup Hall; [reflexivity|].
  apply Forall_cons in Hall as [He Hall].
  simpl. destruct e as [b a | x y dt].
  - destruct (onMouseButton b a l) as [l' r] eqn:Hb.
    rewrite run_mouse_camera_step. apply IH; [|exact Hall].
    unfold onMouseButton in Hb. simpl in He.
    destruct (bool_decide (a = GLFW_PRESS)) eqn:Ha.
    + rewrite andb_true_r in He. rewrite He in Hb. injection Hb as <- _. exact Hup.
    + destruct (bool_decide (a = GLFW_RELEASE)).
      * destruct (bool_decide (b = GLFW_MOUSE_BUTTON_RIGHT)); injection Hb as <- _;
          [reflexivity | exact Hup].
      * injection Hb as <- _. exact Hup.
  - unfold onMouseMove. rewrite Hup. cbn [negb].
    rewrite run_mouse_camera_step. apply IH; assumption.
Qed.

(** X21.  Turning the camera with the mouse takes the right button and two
    moves.  While the right button is up, no event but its press makes a
    move turn the camera.  After any press or release of any button the
    next move only records the cursor, so that events in which no two moves
    follow each other never turn the camera.  A press of the right button
    followed by two moves turns the camera once, by the rotation for the
    distance between the two cursor positions, and only the first of the
    two moves is consumed. *)
Theorem X21_mouse_turns_the_camera :
  (forall evs l cam,
     m_rightButtonClicked l = false ->
     Forall (fun e => is_right_press e = false) evs ->
     (run_mouse evs l cam).1.2 = cam) /\
  (forall evs l cam,
     m_usePrevCursorPosition l = false ->
     no_two_moves false evs = true ->
     (run_mouse evs l cam).1.2 = cam) /\
  (forall l cam x0 y0 dt0 x1 y1 dt1,
     run_mouse [MouseButton GLFW_MOUSE_BUTTON_RIGHT GLFW_PRESS;
                MouseMove x0 y0 dt0; MouseMove x1 y1 dt1] l cam
     = (mkListener true true x1 y1,
        multiplyTransform (mouse_rotation dt1 (x1 - x0)%f32 (y1 - y0)%f32 cam) cam,
        [true; true; false])).
Proof.
  split; [|split].
  - intros evs l cam. apply right_button_up_camera.
  - intros evs l cam Hprev. apply no_two_moves_camera. congruence.
  - intros l cam x0 y0 dt0 x1 y1 dt1. reflexivity.
Qed.

End Mouse.

(** ** The rows of houses *)

Section Houses.

Variable loadModel : nat -> nat -> ptr.




End Houses.

(** ** Moving the first light with the keyboard *)

(** X23.  [LightListener::onKeyboard] reads the first active light before it
    looks at the key: with no light switched on, every key event other than
    a release reads [getLights()[0]] of an empty vector, also for keys that
    move nothing and after [switchOffLight] has switched off the only light.
    A release changes nothing.  With a first light that is alive the call
    returns false, changes no node but that light, and a key other than Y,
    I, U, J, H and K changes nothing at all. *)
Theorem X23_light_keys_need_a_light (idata1 idata3 : Z) (dt : float)
  (sm : VESceneManager) (h : heap) :
  (m_lights sm = [] -> idata3 <> GLFW_RELEASE ->
   LightListener_onKeyboard idata1 idata3 dt sm h = None) /\
  (forall light, m_lights sm = [light] -> idata3 <> GLFW_RELEASE ->
   LightListener_onKeyboard idata1 idata3 dt (switchOffLight light sm) h = None) /\
  LightListener_onKeyboard idata1 GLFW_RELEASE dt sm h = Some (h, false) /\
  (forall pLight n, m_lights sm !! 0 = Some pLight -> h !! pLight = Some n ->
   exists h',
     LightListener_onKeyboard idata1 idata3 dt sm h = Some (h', false) /\
     (forall q, q <> pLight -> h' !! q = h !! q) /\
     (exists n', h' !! pLight = Some n' /\ m_parent n' = m_parent n /\
                 m_children n' = m_children n) /\
     (light_key idata1 = None -> h' = h)).
Proof.
  split; [|split; [|split]].
  - intros Hno Hrel. unfold LightListener_onKeyboard.
    rewrite bool_decide_eq_false_2 by exact Hrel. rewrite Hno. reflexivity.
  - intros light Hone Hrel. unfold LightListener_onKeyboard.
    rewrite bool_decide_eq_false_2 by exact Hrel.
    unfold switchOffLight. cbn [m_lights]. rewrite Hone. simpl.
    destruct (decide (light = light)) as [_|]; [reflexivity | congruence].
  - reflexivity.
  - intros pLight n Hfirst Hn. unfold LightListener_onKeyboard.
    destruct (bool_decide (idata3 = GLFW_RELEASE)).
    + exists h. split; [reflexivity|]. split; [reflexivity|]. split; [eauto | reflexivity].
    + rewrite Hfirst. cbn [mbind option_bind].
      destruct (light_key idata1) as [direction|].
      * unfold multiplyTransform_at. rewrite Hn. cbn [mbind option_bind].
        eexists. split; [reflexivity|]. split; [|split].
        -- intros q Hq. apply lookup_insert_ne. auto.
        -- eexists. split; [apply lookup_insert_eq|]. split; reflexivity.
        -- discriminate.
      * exists h. split; [reflexivity|]. split; [reflexivity|]. split; [eauto | reflexivity].
Qed.

(** ** Cycles in the scene graph *)

Section Cycles.

Implicit Types (h : heap) (x a p : ptr).

Lemma ancestor_trans h x p a : ancestor h x p -> ancestor h p a -> ancestor h x a.
Proof.
  induction 1 as [x n p Hx Hp | x n q p Hx Hq _ IH]; intros Hpa.
  - exact (ancestor_step h x n p a Hx Hp Hpa).
  - exact (ancestor_step h x n q a Hx Hq (IH Hpa)).
Qed.

(** On a cycle of parent pointers the recursion of [getWorldTransform] has
    no end. *)
Lemma cycle_has_no_world_transform h :
  forall fuel x, ancestor h x x -> getWorldTransform fuel h x = None.
Proof.
  induction fuel as [|fuel IH]; intros x Hcycle; [reflexivity|].
  assert (exists n p, h !! x = Some n /\ m_parent n = Some p /\ ancestor h p p)
    as (n & p & Hx & Hp & Hpp).
  { inversion Hcycle as [x' n a Hx Hp | x' n p a Hx Hp Hpx]; subst.
    - exists n, x. auto.
    - exists n, p. split; [exact Hx|]. split; [exact Hp|].
      exact (ancestor_trans h p x p Hpx (ancestor_parent h x n p Hx Hp)). }
  simpl. rewrite Hx. simpl. rewrite Hp, (IH p Hpp). reflexivity.
Qed.

(** A node in its own child list: the recursion of [update] has no end. *)
Lemma own_child_has_no_update h a n :
  h !! a = Some n -> a ∈ m_children n ->
  forall fuel W, update_from fuel h W a = None.
Proof.
  intros Ha Hin. induction fuel as [|fuel IH]; intros W; [reflexivity|].
  simpl. rewrite Ha. simpl.
  destruct (mapM (update_from fuel h (glm.mul W (m_transform n))) (m_children n))
    as [below|] eqn:Hbelow; [|reflexivity].
  exfalso. apply mapM_Some in Hbelow.
  apply list_elem_of_lookup_1 in Hin as [i Hi].
  destruct (Forall2_lookup_l _ _ _ _ _ Hbelow Hi) as (ups & _ & Hups).
  rewrite IH in Hups. discriminate.
Qed.

(** [addChild] keeps the parent pointers of all nodes but the new child. *)
Lemma addChild_keeps_parents this a h h' :
  tree_wf h -> is_Some (h !! this) -> is_Some (h !! a) ->
  addChild this a h = Some h' ->
  (exists n', h' !! a = Some n' /\ m_parent n' = Some this) /\
  forall x n, x <> a -> h !! x = Some n ->
    exists n', h' !! x = Some n' /\ m_parent n' = m_parent n.
Proof.
  intros Hwf Hthis [o Ho] Hadd.
  destruct (addChild_steps this a h o Hwf Hthis Ho)
    as (h1 & o1 & t & Hh1 & Hh1a & Ho1 & Ht & _ & _ & _ & Hadd').
  rewrite Hadd in Hadd'. injection Hadd' as ->.
  assert (forall x n, h !! x = Some n ->
            exists n1, h1 !! x = Some n1 /\ m_parent n1 = m_parent n) as Hpar1.
  { intros x n Hx. subst h1. destruct (m_parent o) as [q|]; [|eauto].
    destruct (decide (x = q)) as [-> | Hne].
    - rewrite lookup_insert_eq. eexists. split; [reflexivity|].
      rewrite Hx. reflexivity.
    - rewrite lookup_insert_ne by auto. eauto. }
  split.
  - destruct (decide (this = a)) as [-> | Hne].
    + rewrite lookup_insert_eq. rewrite lookup_insert_eq in Ht. injection Ht as <-.
      eexists. split; [reflexivity|]. reflexivity.
    + rewrite lookup_insert_ne, lookup_insert_eq by auto.
      eexists. split; [reflexivity|]. reflexivity.
  - intros x n Hxa Hx. destruct (Hpar1 x n Hx) as (n1 & Hx1 & Hp1).
    destruct (decide (x = this)) as [-> | Hne].
    + rewrite lookup_insert_eq. rewrite lookup_insert_ne in Ht by auto.
      rewrite Hx1 in Ht. injection Ht as <-.
      eexists. split; [reflexivity|]. exact Hp1.
    + rewrite !lookup_insert_ne by auto. eauto.
Qed.

(** Parent chains that do not pass through [a] are kept, when all nodes but
    [a] keep their parent pointers. *)
Lemma ancestor_kept h h' a :
  (forall x n, x <> a -> h !! x = Some n ->
     exists n', h' !! x = Some n' /\ m_parent n' = m_parent n) ->
  forall x, ancestor h x a -> x = a \/ ancestor h' x a.
Proof.
  intros Hkeep x Hx. induction Hx as [x n a Hx Hp | x n p a Hx Hp _ IH].
  - destruct (decide (x = a)) as [-> | Hne]; [left; reflexivity|]. right.
    destruct (Hkeep x n Hne Hx) as (n1 & Hx1 & Hp1).
    apply (ancestor_parent h' x n1 a Hx1). congruence.
  - destruct (decide (x = a)) as [-> | Hne]; [left; reflexivity|]. right.
    destruct (Hkeep x n Hne Hx) as (n1 & Hx1 & Hp1).
    destruct (IH Hkeep) as [-> | IH'].
    + apply (ancestor_parent h' x n1 a Hx1). congruence.
    + apply (ancestor_step h' x n1 p a Hx1); [congruence | exact IH'].
Qed.

(** X24.  Nothing keeps a node from becoming its own ancestor.  [addChild]
    takes a node as child of itself, or of a node below it, and leaves
    well-formed child lists; but then the parent pointers form a cycle, and
    for the new child the recursion of [getWorldTransform] never comes to an
    end.  For a node that is its own child the recursion of [update] over
    the children has no end either. *)
Theorem X24_addChild_can_close_a_cycle (h : heap) (this pObject : ptr) :
  tree_wf h -> is_Some (h !! this) -> is_Some (h !! pObject) ->
  this = pObject \/ ancestor h this pObject ->
  exists h',
    addChild this pObject h = Some h' /\
    tree_wf h' /\
    ancestor h' pObject pObject /\
    (forall fuel, getWorldTransform fuel h' pObject = None) /\
    (this = pObject -> forall fuel W, update_from fuel h' W pObject = None).
Proof.
  intros Hwf Hthis Hobj Hbelow.
  destruct (addChild_wf this pObject h Hwf Hthis Hobj) as (h' & Hadd & Hwf' & _).
  destruct (addChild_keeps_parents this pObject h h' Hwf Hthis Hobj Hadd)
    as ((n' & Hn' & Hpar') & Hkeep).
  pose proof (ancestor_kept h h' pObject Hkeep) as Hanc.
  assert (ancestor h' pObject pObject) as Hcycle.
  { assert (this = pObject \/ ancestor h' this pObject) as [-> | Hup].
    { destruct Hbelow as [-> | Hb]; [left; reflexivity | exact (Hanc this Hb)]. }
    - exact (ancestor_parent h' pObject n' pObject Hn' Hpar').
    - exact (ancestor_step h' pObject n' this pObject Hn' Hpar' Hup). }
  exists h'. split; [exact Hadd|]. split; [exact Hwf'|]. split; [exact Hcycle|].
  split.
  - intros fuel. apply cycle_has_no_world_transform, Hcycle.
  - intros -> fuel W.
    destruct Hobj as [o Ho].
    destruct (addChild_steps pObject pObject h o Hwf (ex_intro _ o Ho) Ho)
      as (h1 & o1 & t & _ & _ & _ & Ht & _ & _ & _ & Hadd3).
    rewrite Hadd in Hadd3. injection Hadd3 as ->.
    apply (own_child_has_no_update _ pObject
             (set_children t (m_children t ++ [pObject]))).
    + apply lookup_insert_eq.
    + simpl. apply elem_of_app. right. apply list_elem_of_singleton. reflexivity.
Qed.

End Cycles.

(** ** Command buffers over any number of frames *)

Section Frames.

Context `{Engine}.







End Frames.

(** ** The textures of a material *)

Section Materials.

Variables (filekey basedir : string).

Abbreviation tex := (texture_of filekey basedir).

Lemma diffuse_loop names :
  forall pMat made,
  foldl (diffuse_turn filekey basedir) (pMat, made) names
  = (mkMaterial (shading pMat) (material_color pMat)
                (from_option Some (mapDiffuse pMat) (tex <$> last names))
                (mapBump pMat) (mapNormal pMat) (mapHeight pMat),
     made ++ map tex names).
Proof.
  induction names as [|name names IH]; intros pMat made.
  - simpl. rewrite app_nil_r. destruct pMat; reflexivity.
  - cbn [foldl diffuse_turn]. rewrite IH. cbn [shading material_color mapBump mapNormal mapHeight mapDiffuse].
    rewrite <- app_assoc. f_equal. f_equal. clear IH.
    destruct names as [|name' names]; [reflexivity|].
    rewrite last_cons_cons.
    destruct (proj2 (last_is_Some (name' :: names))) as [x ->]; [discriminate|].
    reflexivity.
Qed.

Lemma normals_loop names :
  forall pMat made,
  mapNormal pMat = None ->
  foldl (normals_turn filekey basedir) (pMat, made) names
  = (mkMaterial (shading pMat) (material_color pMat) (mapDiffuse pMat) (mapBump pMat)
                (tex <$> head names) (mapHeight pMat),
     made ++ map tex (take 1 names)).
Proof.
  intros pMat made Hnull. destruct names as [|name names].
  - simpl. rewrite app_nil_r. destruct pMat; simpl in *; subst; reflexivity.
  - cbn [foldl]. unfold normals_turn at 2. rewrite Hnull.
    induction names as [|name' names IH]; [reflexivity|]. exact IH.
Qed.

Lemma displacement_loop names :
  forall pMat made,
  mapBump pMat = None ->
  foldl (displacement_turn filekey basedir) (pMat, made) names
  = (mkMaterial (shading pMat) (material_color pMat) (mapDiffuse pMat) (tex <$> head names)
                (mapNormal pMat) (mapHeight pMat),
     made ++ map tex (take 1 names)).
Proof.
  intros pMat made Hnull. destruct names as [|name names].
  - simpl. rewrite app_nil_r. destruct pMat; simpl in *; subst; reflexivity.
  - cbn [foldl]. unfold displacement_turn at 2. rewrite Hnull.
    induction names as [|name' names IH]; [reflexivity|]. exact IH.
Qed.

Lemma height_loop names :
  forall pMat made,
  mapHeight pMat = None ->
  foldl (height_turn filekey basedir) (pMat, made) names
  = (mkMaterial (shading pMat) (material_color pMat) (mapDiffuse pMat) (mapBump pMat)
                (mapNormal pMat) (tex <$> head names),
     made ++ map tex (take 1 names)).
Proof.
  intros pMat made Hnull. destruct names as [|name names].
  - simpl. rewrite app_nil_r. destruct pMat; simpl in *; subst; reflexivity.
  - cbn [foldl]. unfold height_turn at 2. rewrite Hnull.
    induction names as [|name' names IH]; [reflexivity|]. exact IH.
Qed.

(** X26.  The textures of a new material whose four maps start as null
    pointers: [mapDiffuse] is the last diffuse texture of the Assimp
    material, while [mapNormal], [mapBump] and [mapHeight] are the first
    texture of their kind.  A texture is made for every diffuse texture, so
    that with [k] of them [k - 1] textures are made that no material points
    to; of the other kinds only the first is made. *)
Theorem X26_textures_of_a_new_material (members : VEMaterial) (paiMat : aiMaterial) :
  mapDiffuse members = None -> mapBump members = None ->
  mapNormal members = None -> mapHeight members = None ->
  let '(pMat, made) := new_VEMaterial members filekey basedir paiMat in
  mapDiffuse pMat = tex <$> last (aiTextureType_DIFFUSE paiMat) /\
  mapNormal pMat = tex <$> head (aiTextureType_NORMALS paiMat) /\
  mapBump pMat = tex <$> head (aiTextureType_DISPLACEMENT paiMat) /\
  mapHeight pMat = tex <$> head (aiTextureType_HEIGHT paiMat) /\
  made = map tex (aiTextureType_DIFFUSE paiMat
                  ++ take 1 (aiTextureType_NORMALS paiMat)
                  ++ take 1 (aiTextureType_DISPLACEMENT paiMat)
                  ++ take 1 (aiTextureType_HEIGHT paiMat)) /\
  length made
  = length (maps_of pMat) + (length (aiTextureType_DIFFUSE paiMat) - 1).
Proof.
  intros Hd Hb Hn Hh. unfold new_VEMaterial.
  set (pMat0 := match AI_MATKEY_COLOR_DIFFUSE paiMat with
                | Some (r, g, b) => _
                | None => _
                end).
  assert (mapDiffuse pMat0 = None /\ mapBump pMat0 = None /\
          mapNormal pMat0 = None /\ mapHeight pMat0 = None) as (Hd0 & Hb0 & Hn0 & Hh0).
  { subst pMat0. destruct (AI_MATKEY_COLOR_DIFFUSE paiMat) as [[[r g] b]|]; simpl; auto. }
  rewrite diffuse_loop, normals_loop by exact Hn0.
  rewrite displacement_loop by exact Hb0.
  rewrite height_loop by exact Hh0.
  cbn [mapDiffuse mapBump mapNormal mapHeight shading material_color].
  rewrite Hd0. cbn [app].
  split; [destruct (last (aiTextureType_DIFFUSE paiMat)); reflexivity|].
  split; [reflexivity|]. split; [reflexivity|]. split; [reflexivity|].
  split; [rewrite !map_app, <- !app_assoc; reflexivity|].
  unfold maps_of. rewrite !length_app, !length_map.
  destruct (aiTextureType_DIFFUSE paiMat) as [|d ds] eqn:Hds;
    destruct (aiTextureType_NORMALS paiMat) as [|n1 ns];
    destruct (aiTextureType_DISPLACEMENT paiMat) as [|b1 bs];
    destruct (aiTextureType_HEIGHT paiMat) as [|h1 hs];
    try (rewrite last_cons; destruct (last ds)); cbn; rewrite ?length_map, ?take_0; cbn; lia.
Qed.

End Materials.

(** ** The properties above on concrete inputs *)


Lemma X2_removed_child_is_not_updated_witness :
  exists h' ups,
    removeChild 0 1 example_scene = Some h' /\
    updateSceneNodes 3 h' [0; 1; 2] = Some ups /\
    (forall q, ~ child_of h' 1 q) /\
    forall Wc, (1, Wc) ∉ ups.
Proof.
  eexists _, _. split; [reflexivity|]. split; [vm_compute; reflexivity|].
  eapply (X2_removed_child_is_not_updated example_scene _ 0 1 3 [0; 1; 2]).
  - apply tree_wfb_correct. vm_compute. reflexivity.
  - exists (mkSceneNode (translation 1 3 1) None [1]). split; [reflexivity|].
    apply list_elem_of_singleton. reflexivity.
  - reflexivity.
  - vm_compute. reflexivity.
Defined.

Lemma X3_switchOffLight_moves_last_light_witness :
  m_lights (switchOffLight 7 (scene_with_three_lights (H := example_defaults))) = [9; 8].
Proof.
  assert (NoDup (m_lights (scene_with_three_lights (H := example_defaults)))) as Hnd.
  { apply (bool_decide_unpack _). vm_compute. exact I. }
  destruct (X3_switchOffLight_moves_last_light
              (scene_with_three_lights (H := example_defaults)) 7 Hnd)
    as (_ & Hfound & _).
  exact (Hfound [] [8; 9] eq_refl).
Defined.

Lemma X4_switchOffLight_after_switchOnLight_witness :
  m_lights (switchOffLight 8
              (Nat.iter 3 (switchOnLight 8) (scene_with_one_light (H := example_defaults))))
  = [7; 8].
Proof.
  assert (8 ∉ m_lights (scene_with_one_light (H := example_defaults))) as Hno.
  { intros Hin. apply list_elem_of_singleton in Hin. discriminate. }
  destruct (X4_switchOffLight_after_switchOnLight
              (scene_with_one_light (H := example_defaults)) 8 3 Hno) as (Hn & _).
  exact Hn.
Defined.

Lemma X6_clear_values_match_the_render_pass_witness :
  let sm := scene_with_one_light (H := example_defaults) in
  let subs := m_subrenderers renderer_at_start in
  vhRenderBeginRenderPass m_renderPassClear (m_swapChainFramebuffers 0)
                          clearValuesLight_init
    ∈ recordCmdBuffers sm subs 0 /\
  clearValueCount clearValuesLight_init = 2.
Proof.
  intros sm subs.
  assert (vhRenderBeginRenderPass m_renderPassClear (m_swapChainFramebuffers 0)
                                  clearValuesLight_init
            ∈ recordCmdBuffers sm subs 0) as Hin.
  { apply list_elem_of_In. vm_compute. do 13 right. left. reflexivity. }
  split; [exact Hin|].
  exact (proj1 (X6_clear_values_match_the_render_pass sm subs 0 _ _ _ Hin)).
Defined.

Lemma X10_shadow_cameras_keep_no_state_witness :
  let W1 := translation 1 3 1 in
  let W2 := translation 0 0 15 in
  let pCamera := CameraProjective camera_16_9 in
  let l := VESpotLight (H := example_defaults) in
  exists l1,
    updateShadowCameras (H := example_libm) W1 glm.identity pCamera l = Some l1 /\
    updateShadowCameras (H := example_libm) W2 glm.identity pCamera l1
    = updateShadowCameras (H := example_libm) W2 glm.identity pCamera l.
Proof.
  intros W1 W2 pCamera l. eexists. split; [reflexivity|].
  apply (X10_shadow_cameras_keep_no_state (H := example_libm)
           W1 glm.identity pCamera W2 glm.identity pCamera l).
  reflexivity.
Defined.

Lemma X12_six_shadow_framebuffers_suffice_witness :
  let sm := scene_with_one_light (H := example_defaults) in
  let subs := m_subrenderers renderer_at_start in
  let c := vhRenderBeginRenderPass m_renderPassShadow (m_shadowFramebuffers 0 3)
                                   clearValuesShadow in
  c ∈ recordCmdBuffers sm subs 0 /\ 0 = 0 /\ 3 < 6.
Proof.
  intros sm subs c.
  assert (c ∈ recordCmdBuffers sm subs 0) as Hin.
  { apply list_elem_of_In. vm_compute. do 10 right. left. reflexivity. }
  split; [exact Hin|].
  apply (X12_six_shadow_framebuffers_suffice (H := example_libm) (H0 := example_defaults)
           sm subs 0 c 0 3); [|exact Hin|reflexivity].
  intros pLight HpLight. apply list_elem_of_singleton in HpLight as ->.
  exists [], (VEDirectionalLight (H := example_defaults)).
  split; [left; reflexivity | reflexivity].
Defined.

Lemma X13_command_buffer_is_used_again_witness :
  let sm1 := scene_with_one_light (H := example_defaults) in
  let sm2 := switchOnLight 8 sm1 in
  exists r1 r2 r3,
    drawFrame (H := fatalError_comes_back) sm1 VK_SUCCESS 0 renderer_at_start
    = Returned r1 /\
    presentFrame (H := fatalError_comes_back) VK_SUCCESS r1 = Returned r2 /\
    drawFrame (H := fatalError_comes_back) sm2 VK_SUCCESS 0 r2 = Returned r3 /\
    m_commandBuffers r3 !! 0
    = Some (recordCmdBuffers sm1 (m_subrenderers renderer_at_start) 0) /\
    calls r3 = calls r2 ++ [vkWaitForFences (m_currentFrame r2);
                            vkAcquireNextImageKHR (m_currentFrame r2);
                            vhCmdSubmitCommandBuffer 0 (m_currentFrame r2)].
Proof.
  intros sm1 sm2.
  apply (X13_command_buffer_is_used_again (H := fatalError_comes_back)
           sm1 sm2 VK_SUCCESS VK_SUCCESS 0 renderer_at_start).
  - reflexivity.
  - reflexivity.
  - left. reflexivity.
  - left. reflexivity.
Defined.


Lemma X16_mesh_radius_is_the_largest_coordinate_witness :
  exists q,
    m_boundingSphereRadius (VEMesh_of_aiMesh [vec3_of_Z 3 4 0]) = F32.sqrt q /\
    (forall vertices, map pos vertices = [vec3_of_Z 3 4 0] ->
       m_boundingSphereRadius (VEMesh_of_vertices vertices) = F32.sqrt q) /\
    F32.is_nan q = false /\
    (q = F32.zero \/ exists p, p ∈ [vec3_of_Z 3 4 0] /\ q ∈ squares p) /\
    (forall p s, p ∈ [vec3_of_Z 3 4 0] -> s ∈ squares p -> F32.ltb q s = false).
Proof.
  apply (X16_mesh_radius_is_the_largest_coordinate [vec3_of_Z 3 4 0]).
  apply Forall_cons_2; [vm_compute; reflexivity | apply Forall_nil_2].
Defined.

Lemma X17_new_scene_node_witness :
  exists h',
    new_VESceneNode 3 glm.identity (translation 5 0 0) (Some 2) example_scene = Some h' /\
    children_of h' 2 = [3] /\
    getWorldTransform 1 example_scene 2 = Some glm.identity /\
    getWorldTransform 2 h' 3 = Some (glm.mul glm.identity (translation 5 0 0)).
Proof.
  destruct (X17_new_scene_node example_scene 3 glm.identity (translation 5 0 0) (Some 2))
    as (h' & Hnew & _ & _ & Hch & _ & Hworld).
  - apply tree_wfb_correct. vm_compute. reflexivity.
  - reflexivity.
  - simpl. eexists. reflexivity.
  - exists h'. split; [exact Hnew|].
    split; [exact (Hch 2 eq_refl)|].
    split; [reflexivity|].
    apply (Hworld 2 1 glm.identity eq_refl). reflexivity.
Defined.


Lemma X24_addChild_can_close_a_cycle_witness :
  ancestor example_scene 1 0 /\
  exists h',
    addChild 1 0 example_scene = Some h' /\
    forall fuel, getWorldTransform fuel h' 0 = None.
Proof.
  assert (ancestor example_scene 1 0) as Hanc.
  { apply (ancestor_parent example_scene 1 (mkSceneNode (translation 0 0 15) (Some 0) []));
      reflexivity. }
  split; [exact Hanc|].
  destruct (X24_addChild_can_close_a_cycle example_scene 1 0)
    as (h' & Hadd & _ & _ & Hnever & _).
  - apply tree_wfb_correct. vm_compute. reflexivity.
  - eexists. reflexivity.
  - eexists. reflexivity.
  - right. exact Hanc.
  - exists h'. split; [exact Hadd | exact Hnever].
Defined.

Lemma X26_textures_of_a_new_material_witness :
  let paiMat := mkAiMaterial 2 None ["wall.png"; "roof.png"] ["wall_n.png"; "roof_n.png"] [] [] in
  let members := mkMaterial 0 (Vec4 F32.zero F32.zero F32.zero F32.zero) None None None None in
  let '(pMat, made) := new_VEMaterial members "house" "models" paiMat in
  mapDiffuse pMat = Some (texture_of "house" "models" "roof.png") /\
  mapNormal pMat = Some (texture_of "house" "models" "wall_n.png") /\
  length made = 3 /\ length (maps_of pMat) = 2.
Proof.
  intros paiMat members.
  pose proof (X26_textures_of_a_new_material "house" "models" members paiMat
                eq_refl eq_refl eq_refl eq_refl) as H.
  destruct (new_VEMaterial members "house" "models" paiMat) as [pMat made].
  destruct H as (Hd & Hn & _ & _ & Hmade & Hlen).
  split; [exact Hd|]. split; [exact Hn|].
  assert (length made = 3) as H3 by (rewrite Hmade; reflexivity).
  split; [exact H3|]. rewrite H3 in Hlen.
  change (length (aiTextureType_DIFFUSE paiMat) - 1) with 1 in Hlen. lia.
Defined.
